(** * The AWS Cognito token template tag: cache and validity logic

    A shallow embedding of [src/plugin.js] and the properties of its
    token cache.

    Conventions of the embedding.
    - A JavaScript string is a [string]: the bytes of its UTF-8 form,
      a surrogate that stands alone written in three bytes like any
      other code unit. A value that may be [undefined] (a template-tag
      argument, a store entry, a claim of a token) is an [option].
    - A Number is the rational ([Q]) it stands for, in lowest terms.
      Arithmetic rounds to the nearest double, ties to even, as IEEE
      754 has it. Infinities and NaN are not modelled, and the two
      zeros are one: the numbers of the plugin are times, far from
      all of them. [Date.now()] is an integer count of milliseconds
      ([Z]).
    - The claims [exp] and [nbf] of a decoded token are numbers and the
      claim [error] is a string, as the plugin and RFC 7519 write them.
    - [async] code is a computation over a [World]: the store behind
      [context.store], the clock, and the log of the calls made so far.
      Operations of the store do not fail.
    - The libraries the plugin calls are modelled next to it:
      [CryptoJS.enc.Base64], [JSON], [jwt-decode]. The network client
      ([amazon-cognito-identity-js]) is a parameter of the plugin, and
      so is the decoder: what is proved of [validToken] and [run] holds
      for every decoder, and the model of [jwt-decode] is what the
      error token is read back with. *)

From Stdlib Require Import ZArith QArith Qround Qpower Ascii String List Bool Lia Lqa.
From stdpp Require Import base gmap strings.

Local Open Scope string_scope.
Local Open Scope list_scope.

(** * JavaScript values *)

Abbreviation explode := list_ascii_of_string.
Abbreviation implode := string_of_list_ascii.

Definition byteVal (c : ascii) : Z := Z.of_N (N_of_ascii c).
Definition byteChr (z : Z) : ascii := ascii_of_N (Z.to_N z).

(** [!v] is [negb (truthy v)]: [undefined] and the empty string are the
    falsy values of this type. *)
Definition truthy (v : option string) : bool :=
  match v with
  | None => false
  | Some s => negb (String.eqb s "")
  end.

(** What [Array.prototype.join] prints for one element: [undefined]
    prints as the empty string. *)
Definition elementText (v : option string) : string := default "" v.

(** [Array.prototype.join]. *)
Fixpoint join (sep : string) (l : list (option string)) : string :=
  match l with
  | [] => ""
  | x :: xs =>
      match xs with
      | [] => elementText x
      | _ :: _ => elementText x +:+ sep +:+ join sep xs
      end
  end.

(** [String.prototype.startsWith], [includes] and [endsWith]. *)
Fixpoint startsWith (p s : string) : bool :=
  match p with
  | EmptyString => true
  | String a p' =>
      match s with
      | EmptyString => false
      | String b s' => Ascii.eqb a b && startsWith p' s'
      end
  end.

Fixpoint includes (sub s : string) : bool :=
  startsWith sub s ||
  match s with
  | EmptyString => false
  | String _ s' => includes sub s'
  end.

Fixpoint endsWith (c : ascii) (s : string) : bool :=
  match s with
  | EmptyString => false
  | String a EmptyString => Ascii.eqb a c
  | String _ s' => endsWith c s'
  end.

(** [String.prototype.split] on a one-character separator. *)
Fixpoint splitOn (sep : ascii) (l : list ascii) : list (list ascii) :=
  match l with
  | [] => [[]]
  | c :: r =>
      if Ascii.eqb c sep then [] :: splitOn sep r
      else
        match splitOn sep r with
        | h :: t => (c :: h) :: t
        | [] => [[c]]
        end
  end.

Definition split (sep : ascii) (s : string) : list string :=
  map implode (splitOn sep (explode s)).

(** [s.replace(/c+$/, "")]: the trailing run of [c] is removed. *)
Fixpoint dropTrailing (c : ascii) (l : list ascii) : list ascii :=
  match l with
  | [] => []
  | a :: r =>
      match dropTrailing c r with
      | [] => if Ascii.eqb a c then [] else [a]
      | r' => a :: r'
      end
  end.

(** [s.replace(/a/g, b)] for single characters. *)
Definition replaceAll (a b : ascii) (l : list ascii) : list ascii :=
  map (fun c => if Ascii.eqb c a then b else c) l.

(** The text after a leading ["::"]. *)
Definition afterSep (s : string) : option string :=
  match s with
  | String c (String c' r) => if Ascii.eqb c ":" && Ascii.eqb c' ":" then Some r else None
  | _ => None
  end.

(** [s] cut at its first ["::"]. *)
Fixpoint cut (s : string) : option (string * string) :=
  match afterSep s with
  | Some r => Some ("", r)
  | None =>
      match s with
      | EmptyString => None
      | String c s' =>
          match cut s' with
          | Some (a, b) => Some (String c a, b)
          | None => None
          end
      end
  end.

(** [a < b] on numbers. *)
Definition Qltb (a b : Q) : bool := negb (Qle_bool b a).

(** * Libraries *)

(** ** CryptoJS: [enc.Utf8] and [enc.Base64]; the browser's [atob] *)

Module Utf8.
Local Open Scope Z_scope.

(** [CryptoJS.enc.Utf8.parse]: the bytes of a string. (It throws on a
    string with a surrogate that stands alone; [JSON.stringify] gives
    no such string.) *)
Definition parse (s : string) : list ascii := explode s.

Definition continuation (c : ascii) : bool := (128 <=? byteVal c) && (byteVal c <=? 191).

(** The bytes are the UTF-8 form of a text (Unicode, table 3-7): what
    [decodeURIComponent] decodes of a sequence of [%XX]. No form longer
    than needed, no surrogate, nothing past U+10FFFF. *)
Fixpoint wellFormed (l : list ascii) : bool :=
  match l with
  | [] => true
  | b0 :: r0 =>
      let n0 := byteVal b0 in
      if n0 <? 128 then wellFormed r0
      else
        match r0 with
        | [] => false
        | b1 :: r1 =>
            let n1 := byteVal b1 in
            if (194 <=? n0) && (n0 <=? 223) then continuation b1 && wellFormed r1
            else
              match r1 with
              | [] => false
              | b2 :: r2 =>
                  if (224 <=? n0) && (n0 <=? 239) then
                    (if n0 =? 224 then 160 <=? n1 else 128 <=? n1)
                    && (if n0 =? 237 then n1 <=? 159 else n1 <=? 191)
                    && continuation b2 && wellFormed r2
                  else
                    match r2 with
                    | [] => false
                    | b3 :: r3 =>
                        (240 <=? n0) && (n0 <=? 244)
                        && (if n0 =? 240 then 144 <=? n1 else 128 <=? n1)
                        && (if n0 =? 244 then n1 <=? 143 else n1 <=? 191)
                        && continuation b2 && continuation b3 && wellFormed r3
                    end
              end
        end
  end.

(** The UTF-8 form of a code point (of a surrogate too). *)
Definition encode (cp : Z) : list ascii :=
  if cp <? 128 then [byteChr cp]
  else if cp <? 2048 then [byteChr (192 + cp / 64); byteChr (128 + cp mod 64)]
  else if cp <? 65536 then
    [byteChr (224 + cp / 4096); byteChr (128 + (cp / 64) mod 64); byteChr (128 + cp mod 64)]
  else
    [byteChr (240 + cp / 262144); byteChr (128 + (cp / 4096) mod 64);
     byteChr (128 + (cp / 64) mod 64); byteChr (128 + cp mod 64)].

(** The bytes are the form of a sequence of code units: UTF-8 for the
    characters, and three bytes for a surrogate that is not one of a
    pair (a pair is one character, of four bytes). [afterHigh]: the
    code unit before the bytes is such a surrogate, a high one. *)
Fixpoint ofCodeUnitsFrom (afterHigh : bool) (l : list ascii) : bool :=
  match l with
  | [] => true
  | b0 :: r0 =>
      let n0 := byteVal b0 in
      if n0 <? 128 then ofCodeUnitsFrom false r0
      else
        match r0 with
        | [] => false
        | b1 :: r1 =>
            let n1 := byteVal b1 in
            if (194 <=? n0) && (n0 <=? 223) then continuation b1 && ofCodeUnitsFrom false r1
            else
              match r1 with
              | [] => false
              | b2 :: r2 =>
                  if (224 <=? n0) && (n0 <=? 239) then
                    (if n0 =? 224 then 160 <=? n1 else 128 <=? n1)
                    && (n1 <=? 191) && continuation b2
                    && negb (afterHigh && (n0 =? 237) && (176 <=? n1))
                    && ofCodeUnitsFrom ((n0 =? 237) && (160 <=? n1) && (n1 <=? 175)) r2
                  else
                    match r2 with
                    | [] => false
                    | b3 :: r3 =>
                        (240 <=? n0) && (n0 <=? 244)
                        && (if n0 =? 240 then 144 <=? n1 else 128 <=? n1)
                        && (if n0 =? 244 then n1 <=? 143 else n1 <=? 191)
                        && continuation b2 && continuation b3 && ofCodeUnitsFrom false r3
                    end
              end
        end
  end.

Definition ofCodeUnits (l : list ascii) : bool := ofCodeUnitsFrom false l.

(** The code unit of a surrogate written in three bytes. *)
Definition surrogate (b0 b1 b2 : ascii) : option Z :=
  if (byteVal b0 =? 237) && (160 <=? byteVal b1) && (byteVal b1 <=? 191) && continuation b2
  then Some (55296 + (byteVal b1 - 160) * 64 + (byteVal b2 - 128))
  else None.
End Utf8.

(** The [string] is a JavaScript string: the form of a sequence of
    code units. *)
Definition isString (s : string) : bool := Utf8.ofCodeUnits (explode s).

Module Base64.
Local Open Scope Z_scope.

Definition _map : string :=
  "ABCDEFGHIJKLMNOPQRSTUVWXYZabcdefghijklmnopqrstuvwxyz0123456789+/=".

(** [s.charAt(k)]: the character at [k], or nothing. *)
Definition charAt (s : string) (k : Z) : list ascii :=
  match String.get (Z.to_nat k) s with
  | Some c => [c]
  | None => []
  end.

(** [(byte1 << 16) | (byte2 << 8) | byte3] *)
Definition triplet (byte1 byte2 byte3 : Z) : Z :=
  Z.lor (Z.lor (Z.shiftl byte1 16) (Z.shiftl byte2 8)) byte3.

(** [map.charAt((triplet >>> (6 * (3 - j))) & 0x3f)] *)
Definition base64Char (t j : Z) : list ascii :=
  charAt _map (Z.land (Z.shiftr t (6 * (3 - j))) 63).

(** The loop of [stringify]: three bytes give four characters; a last
    group of one or two bytes gives two or three. *)
Fixpoint base64Chars (bytes : list ascii) : list ascii :=
  match bytes with
  | [] => []
  | [b1] =>
      let t := triplet (byteVal b1) 0 0 in
      base64Char t 0 ++ base64Char t 1
  | [b1; b2] =>
      let t := triplet (byteVal b1) (byteVal b2) 0 in
      base64Char t 0 ++ base64Char t 1 ++ base64Char t 2
  | b1 :: b2 :: b3 :: rest =>
      let t := triplet (byteVal b1) (byteVal b2) (byteVal b3) in
      base64Char t 0 ++ base64Char t 1 ++ base64Char t 2 ++ base64Char t 3
        ++ base64Chars rest
  end.

(** [CryptoJS.enc.Base64.stringify]: the characters, padded with [=]
    to a multiple of four. *)
Definition stringify (bytes : list ascii) : string :=
  let chars := base64Chars bytes in
  implode (chars ++ repeat "="%char (Nat.modulo (4 - Nat.modulo (length chars) 4) 4)).

Fixpoint indexFrom (c : ascii) (l : list ascii) (k : Z) : option Z :=
  match l with
  | [] => None
  | a :: r => if Ascii.eqb a c then Some k else indexFrom c r (k + 1)
  end.

(** The six-bit value of a character of the alphabet. *)
Definition indexOf (c : ascii) : option Z :=
  match indexFrom c (explode _map) 0 with
  | Some k => if k <? 64 then Some k else None
  | None => None
  end.

Fixpoint sextets (l : list ascii) : option (list Z) :=
  match l with
  | [] => Some []
  | c :: r =>
      match indexOf c, sextets r with
      | Some k, Some ks => Some (k :: ks)
      | _, _ => None
      end
  end.

Definition group (s0 s1 s2 s3 : Z) : Z := ((s0 * 64 + s1) * 64 + s2) * 64 + s3.

(** Four characters give three bytes; the bits left over at the end
    are dropped. *)
Fixpoint bytesOf (sx : list Z) : list ascii :=
  match sx with
  | s0 :: s1 :: s2 :: s3 :: r =>
      let u := group s0 s1 s2 s3 in
      byteChr (u / 65536) :: byteChr ((u / 256) mod 256) :: byteChr (u mod 256)
        :: bytesOf r
  | [s0; s1; s2] =>
      let u := group s0 s1 s2 0 in
      [byteChr (u / 65536); byteChr ((u / 256) mod 256)]
  | [s0; s1] =>
      let u := group s0 s1 0 0 in
      [byteChr (u / 65536)]
  | _ => []
  end.

Definition isWhitespace (c : ascii) : bool :=
  existsb (Ascii.eqb c) [" "%char; "009"%char; "010"%char; "012"%char; "013"%char].

(** One or two [=] at the end are removed. *)
Definition dropPadding (l : list ascii) : list ascii :=
  match rev l with
  | a :: b :: r =>
      if Ascii.eqb a "=" then
        if Ascii.eqb b "=" then rev r else rev (b :: r)
      else l
  | _ => l
  end.

(** [atob] (forgiving-base64 decode): [None] when it throws. *)
Definition atob (data : string) : option (list ascii) :=
  let l := List.filter (fun c => negb (isWhitespace c)) (explode data) in
  let l := if (length l mod 4 =? 0)%nat then dropPadding l else l in
  if (length l mod 4 =? 1)%nat then None
  else option_map bytesOf (sextets l).

(** *** Vocabulary of the properties *)

(** [(t >>> (6 * (3 - j))) & 0x3f] *)
Definition sextetOf (t j : Z) : Z := Z.land (Z.shiftr t (6 * (3 - j))) 63.

(** A character that neither the padding, the URL alphabet, the token
    separator nor white space can be mistaken for. *)
Definition plainChar (c : ascii) : bool :=
  negb (Ascii.eqb c "=") && negb (Ascii.eqb c "-") && negb (Ascii.eqb c "_")
  && negb (Ascii.eqb c ".") && negb (isWhitespace c).

(** The character at [k] is plain and is read back as [k]. *)
Definition goodIndex (k : Z) : bool :=
  match charAt _map k with
  | [c] =>
      match indexOf c with
      | Some k' => (k' =? k) && plainChar c
      | None => false
      end
  | _ => false
  end.

Definition notDot (c : ascii) : bool := negb (Ascii.eqb c ".").
End Base64.

(** ** Numbers

    The Number values of ECMAScript that are finite: IEEE 754 doubles,
    each the rational it stands for. *)

Module Number.
Local Open Scope Z_scope.

Definition digitChar (d : Z) : ascii := byteChr (48 + d).

Fixpoint showDigits (fuel : nat) (n : Z) (acc : list ascii) : list ascii :=
  match fuel with
  | O => acc
  | S fuel' =>
      let acc' := digitChar (n mod 10) :: acc in
      if n / 10 =? 0 then acc' else showDigits fuel' (n / 10) acc'
  end.

(** The decimal digits of a natural number. *)
Definition showNat (n : Z) : list ascii :=
  showDigits (S (Z.to_nat (Z.log2 n))) n [].

Fixpoint fracDigits (fuel : nat) (r d : Z) : list ascii :=
  match fuel with
  | O => []
  | S fuel' =>
      if r =? 0 then []
      else digitChar (10 * r / d) :: fracDigits fuel' (10 * r mod d) d
  end.

(** The digits [showDecimal] prints after the point, at most. *)
Definition digitsLimit : nat := 1200.

(** A decimal that is not negative, written out without an exponent:
    the integer part, then the digits of the fraction, by long
    division, until the remainder vanishes. *)
Definition showDecimal (q : Q) : list ascii :=
  let d := Z.pos (Qden q) in
  let a := Z.abs (Qnum q) in
  let frac := fracDigits digitsLimit (a mod d) d in
  showNat (a / d) ++ match frac with [] => [] | _ :: _ => "."%char :: frac end.

Local Open Scope Q_scope.

Definition pow2 (e : Z) : Q := 2 ^ e.
Definition pow10 (e : Z) : Q := 10 ^ e.

(** To the nearest integer, a tie to the even one. *)
Definition roundHalfEven (x : Q) : Z :=
  let f := Qfloor x in
  match Qcompare (x - inject_Z f) (1 # 2) with
  | Lt => f
  | Gt => (f + 1)%Z
  | Eq => if Z.even f then f else (f + 1)%Z
  end.

(** The exponent of the power of two at or below a positive [a]. *)
Definition ilog2 (a : Q) : Z :=
  let l := (Z.log2 (Qnum a) - Z.log2 (Z.pos (Qden a)))%Z in
  if Qle_bool (pow2 l) a then l else (l - 1)%Z.

(** The exponent of the smallest positive double. *)
Definition emin : Z := (-1074)%Z.

(** The exponent of the last of the 53 bits a double at [a] has. *)
Definition exponentOf (a : Q) : Z := Z.max (ilog2 a - 52) emin.

(** To the nearest multiple of [2 ^ e]. *)
Definition roundTo (e : Z) (a : Q) : Q := inject_Z (roundHalfEven (a / pow2 e)) * pow2 e.

Definition roundPositive (a : Q) : Q := roundTo (exponentOf a) a.

(** The double nearest to a real, a tie to the one with an even last
    bit. The largest double is not modelled: a value past it, which
    ECMAScript reads as an infinity, stays the large finite value it
    is, and is compared as that. *)
Definition nearest (q : Q) : Q :=
  match Qcompare q 0 with
  | Eq => 0
  | Gt => roundPositive q
  | Lt => - roundPositive (- q)
  end.

(** The Number value for a real: the nearest double, in lowest terms,
    so that two Numbers are equal only when they are the same. *)
Definition fromQ (q : Q) : Q := Qred (nearest q).

(** [a + b] and [a / b] on Numbers. *)
Definition add (a b : Q) : Q := fromQ (a + b).
Definition div (a b : Q) : Q := fromQ (a / b).

(** *** Number::toString *)

Fixpoint leadingZeros (fuel : nat) (a : Q) (n : Z) : Z :=
  match fuel with
  | O => n
  | S fuel' => if Qle_bool 1 a then n else leadingZeros fuel' (a * 10) (n - 1)
  end.

(** The [n] with [10 ^ (n - 1) <= a < 10 ^ n], for a positive [a]. *)
Definition decimalExponent (a : Q) : Z :=
  if Qle_bool 1 a then Z.of_nat (length (showNat (Qfloor a)))
  else leadingZeros 400 (a * 10) 0.

(** The decimal of [k] digits that reads back as [a], if there is one:
    of the two that lie next to [a], the closer one, and the one with
    an even last digit when they are as close. *)
Definition candidate (a : Q) (n k : Z) : option Q :=
  let unit := pow10 (n - k) in
  let s := Qfloor (a / unit) in
  let lo := inject_Z s * unit in
  let hi := inject_Z (s + 1) * unit in
  let okLo := Qeq_bool (fromQ lo) a in
  let okHi := Qeq_bool (fromQ hi) a in
  if okLo && okHi then
    match Qcompare (a - lo) (hi - a) with
    | Lt => Some lo
    | Gt => Some hi
    | Eq => if Z.even s then Some lo else Some hi
    end
  else if okLo then Some lo
  else if okHi then Some hi
  else None.

Fixpoint shortestFrom (fuel : nat) (a : Q) (n k : Z) : option Q :=
  match fuel with
  | O => None
  | S fuel' =>
      match candidate a n k with
      | Some v => Some v
      | None => shortestFrom fuel' a n (k + 1)
      end
  end.

(** The digits the search goes up to: no double needs more than 767
    to be written out in full, and read back. *)
Definition searchLimit : nat := 800.

(** The decimal with the fewest digits that reads back as the double
    [a], with the [n] that has [10 ^ (n - 1) <= v < 10 ^ n] for it. *)
Definition shortest (a : Q) : option (Q * Z) :=
  let n := decimalExponent a in
  match shortestFrom searchLimit a n 1 with
  | Some v => Some (v, if Qle_bool (pow10 n) v then (n + 1)%Z else n)
  | None => None
  end.

(** [d.ddde+x] for [v] in [10 ^ (n - 1) <= v < 10 ^ n]. *)
Definition exponential (v : Q) (n : Z) : list ascii :=
  showDecimal (v / pow10 (n - 1))
    ++ "e"%char :: (if (0 <=? n - 1)%Z then "+"%char else "-"%char)
    :: showNat (Z.abs (n - 1)).

(** Number::toString of a positive number: the shortest decimal that
    reads back as the number, with an exponent from [1e21] on and below
    [1e-6]. (The search ends for a double; for another number that it
    does not end for, the number is written out as it is.) *)
Definition positiveString (a : Q) : list ascii :=
  match shortest a with
  | Some (v, n) =>
      if Qle_bool (pow10 21) v || negb (Qle_bool (pow10 (-6)) v) then exponential v n
      else showDecimal v
  | None => showDecimal a
  end.

(** Number::toString, radix 10. *)
Definition toString (q : Q) : list ascii :=
  match Qcompare q 0 with
  | Eq => ["0"%char]
  | Gt => positiveString q
  | Lt => "-"%char :: positiveString (- q)
  end.

(** *** Vocabulary of the properties *)

(** The decimal expansion of [q] ends within the digits [showDecimal]
    prints. *)
Definition finiteDecimal (q : Q) : Prop :=
  (Z.pos (Qden q) | (Z.abs (Qnum q) mod Z.pos (Qden q)) * 10 ^ Z.of_nat digitsLimit)%Z.

(** [v] is a natural number of units of [10 ^ (- digitsLimit)]. *)
Definition scaled (v : Q) : Prop :=
  exists S : Z, (0 <= S)%Z /\ v == inject_Z S * pow10 (- Z.of_nat digitsLimit).

(** The time values of ECMAScript: what [Date.now()] may read. *)
Definition timeValue (ms : Z) : Prop :=
  (-8640000000000000 <= ms <= 8640000000000000)%Z.
End Number.

(** ** JSON

    [JSON.stringify] and [JSON.parse] on values without functions,
    [undefined] or cycles. *)

#[local] Unset Elimination Schemes.
Inductive json :=
| JNull
| JBool (b : bool)
| JNumber (q : Q)
| JString (s : string)
| JArray (l : list json)
| JObject (m : list (string * json)).
#[local] Set Elimination Schemes.

Module JSON.
Local Open Scope Z_scope.

Definition dquote : ascii := "034".
Definition backslash : ascii := "\".

Definition hexChar (k : Z) : ascii :=
  nth (Z.to_nat k) (explode "0123456789abcdef") "0"%char.

(** QuoteJSONString, one character of one byte, or one byte of a
    longer character, at a time. *)
Definition quoteChar (c : ascii) : list ascii :=
  let n := byteVal c in
  if n =? 8 then [backslash; "b"%char]
  else if n =? 9 then [backslash; "t"%char]
  else if n =? 10 then [backslash; "n"%char]
  else if n =? 12 then [backslash; "f"%char]
  else if n =? 13 then [backslash; "r"%char]
  else if n =? 34 then [backslash; dquote]
  else if n =? 92 then [backslash; backslash]
  else if n <? 32 then
    [backslash; "u"%char; "0"%char; "0"%char; hexChar (n / 16); hexChar (n mod 16)]
  else [c].

(** [\uXXXX] for a code unit. *)
Definition escapeUnit (cu : Z) : list ascii :=
  [backslash; "u"%char; hexChar (cu / 4096); hexChar ((cu / 256) mod 16);
   hexChar ((cu / 16) mod 16); hexChar (cu mod 16)].

(** QuoteJSONString without the quotes: a surrogate that stands alone
    is written as an escape, every other character as [quoteChar] has
    it. *)
Fixpoint quoteChars (s : list ascii) : list ascii :=
  match s with
  | [] => []
  | b0 :: r0 =>
      match r0 with
      | b1 :: b2 :: r2 =>
          match Utf8.surrogate b0 b1 b2 with
          | Some cu => escapeUnit cu ++ quoteChars r2
          | None => quoteChar b0 ++ quoteChars r0
          end
      | _ => quoteChar b0 ++ quoteChars r0
      end
  end.

Definition quote (s : list ascii) : list ascii :=
  dquote :: quoteChars s ++ [dquote].

Fixpoint commaSep (parts : list (list ascii)) : list ascii :=
  match parts with
  | [] => []
  | p :: ps =>
      match ps with
      | [] => p
      | _ :: _ => p ++ ","%char :: commaSep ps
      end
  end.

Fixpoint serialize (v : json) : list ascii :=
  match v with
  | JNull => explode "null"
  | JBool true => explode "true"
  | JBool false => explode "false"
  | JNumber q => Number.toString q
  | JString s => quote (explode s)
  | JArray l => "["%char :: commaSep (map serialize l) ++ ["]"%char]
  | JObject m =>
      "{"%char
        :: commaSep (map (fun kv => quote (explode (fst kv)) ++ ":"%char :: serialize (snd kv)) m)
        ++ ["}"%char]
  end.

Definition stringify (v : json) : string := implode (serialize v).

(** *** JSON.parse *)

Notation "'let*' p := e 'in' k" :=
  (match e with Some p => k | None => None end)
    (at level 10, p pattern, e at level 200, k at level 200, only parsing).

Definition isWs (c : ascii) : bool :=
  existsb (Ascii.eqb c) [" "%char; "009"%char; "010"%char; "013"%char].

Fixpoint skipWs (l : list ascii) : list ascii :=
  match l with
  | c :: r => if isWs c then skipWs r else l
  | [] => []
  end.

Definition isDigit (c : ascii) : bool := (48 <=? byteVal c) && (byteVal c <=? 57).

Definition hexVal (c : ascii) : option Z :=
  let n := byteVal c in
  if (48 <=? n) && (n <=? 57) then Some (n - 48)
  else if (97 <=? n) && (n <=? 102) then Some (n - 87)
  else if (65 <=? n) && (n <=? 70) then Some (n - 55)
  else None.

Definition hex4 (h1 h2 h3 h4 : ascii) : option Z :=
  let* a := hexVal h1 in
  let* b := hexVal h2 in
  let* c := hexVal h3 in
  let* d := hexVal h4 in
  Some (((a * 16 + b) * 16 + c) * 16 + d).

Definition unescape (e : ascii) : option ascii :=
  if Ascii.eqb e dquote then Some dquote
  else if Ascii.eqb e backslash then Some backslash
  else if Ascii.eqb e "/" then Some "/"%char
  else if Ascii.eqb e "b" then Some "008"%char
  else if Ascii.eqb e "f" then Some "012"%char
  else if Ascii.eqb e "n" then Some "010"%char
  else if Ascii.eqb e "r" then Some "013"%char
  else if Ascii.eqb e "t" then Some "009"%char
  else None.

(** A high surrogate that no low one follows stands alone. *)
Definition lone (pending : option Z) : list ascii :=
  match pending with
  | Some hi => Utf8.encode hi
  | None => []
  end.

(** The characters of a string literal after its opening quote, up to
    and including the closing one. [pending] holds a high surrogate
    read from a [\u] escape: with a low one from the next escape it
    makes one character, and otherwise it stands alone. (The texts read
    here come out of a UTF-8 decoder or hold no character past U+00FF:
    a surrogate is in them as an escape or not at all.) *)
Fixpoint parseChars (l : list ascii) (pending : option Z)
  : option (list ascii * list ascii) :=
  let lone := lone pending in
  match l with
  | [] => None
  | c :: r =>
      if Ascii.eqb c backslash then
        match r with
        | [] => None
        | e :: r1 =>
            if Ascii.eqb e "u" then
              match r1 with
              | h1 :: h2 :: h3 :: h4 :: r2 =>
                  let* cu := hex4 h1 h2 h3 h4 in
                  if (55296 <=? cu) && (cu <=? 56319) then
                    let* (s, rest) := parseChars r2 (Some cu) in
                    Some (lone ++ s, rest)
                  else if (56320 <=? cu) && (cu <=? 57343) then
                    let* (s, rest) := parseChars r2 None in
                    match pending with
                    | Some hi =>
                        Some (Utf8.encode (65536 + (hi - 55296) * 1024 + (cu - 56320)) ++ s,
                              rest)
                    | None => Some (Utf8.encode cu ++ s, rest)
                    end
                  else
                    let* (s, rest) := parseChars r2 None in
                    Some (lone ++ Utf8.encode cu ++ s, rest)
              | _ => None
              end
            else
              let* b := unescape e in
              let* (s, rest) := parseChars r1 None in
              Some (lone ++ b :: s, rest)
        end
      else if Ascii.eqb c dquote then Some (lone, r)
      else if byteVal c <? 32 then None
      else
        let* (s, rest) := parseChars r None in
        Some (lone ++ c :: s, rest)
  end.

Fixpoint spanDigits (l : list ascii) : list ascii * list ascii :=
  match l with
  | c :: r =>
      if isDigit c then let (ds, rest) := spanDigits r in (c :: ds, rest)
      else ([], l)
  | [] => ([], [])
  end.

Definition digitsVal (ds : list ascii) : Z :=
  fold_left (fun a c => a * 10 + (byteVal c - 48)) ds 0.

Definition parseSign (l : list ascii) : bool * list ascii :=
  match l with
  | c :: r => if Ascii.eqb c "-" then (true, r) else (false, l)
  | [] => (false, l)
  end.

Definition parseFraction (l : list ascii) : option (list ascii * list ascii) :=
  match l with
  | c :: r =>
      if Ascii.eqb c "." then
        match spanDigits r with
        | ([], _) => None
        | (fs, rest) => Some (fs, rest)
        end
      else Some ([], l)
  | [] => Some ([], l)
  end.

Definition parseExponent (l : list ascii) : option (Z * list ascii) :=
  match l with
  | c :: r =>
      if Ascii.eqb c "e" || Ascii.eqb c "E" then
        let (neg, r1) :=
          match r with
          | s :: r' =>
              if Ascii.eqb s "-" then (true, r')
              else if Ascii.eqb s "+" then (false, r') else (false, r)
          | [] => (false, r)
          end in
        match spanDigits r1 with
        | ([], _) => None
        | (es, rest) => Some (if neg then - digitsVal es else digitsVal es, rest)
        end
      else Some (0, l)
  | [] => Some (0, l)
  end.

(** A number as it is written: the decimal itself, not yet a double. *)
Definition parseNumber (l : list ascii) : option (Q * list ascii) :=
  let (neg, l1) := parseSign l in
  let (ds, l2) := spanDigits l1 in
  match ds with
  | [] => None
  | d0 :: ds' =>
      (* a leading zero stands alone *)
      let '(ip, l2) :=
        if Ascii.eqb d0 "0" then ([d0], ds' ++ l2) else (ds, l2) in
      let* (fs, l3) := parseFraction l2 in
      let* (e, l4) := parseExponent l3 in
      let m := digitsVal (ip ++ fs) in
      let q := (if neg then - m else m) # Z.to_pos (10 ^ Z.of_nat (length fs)) in
      Some (if e =? 0 then q else (q * Qpower (inject_Z 10) e)%Q, l4)
  end.

Fixpoint stripPrefix (p l : list ascii) : option (list ascii) :=
  match p with
  | [] => Some l
  | a :: p' =>
      match l with
      | b :: l' => if Ascii.eqb a b then stripPrefix p' l' else None
      | [] => None
      end
  end.

Section Structures.
Variable parseValue : list ascii -> option (json * list ascii).

(** Members after the opening brace, white space already skipped. *)
Fixpoint parseMembers (n : nat) (l : list ascii)
  : option (list (string * json) * list ascii) :=
  match n with
  | O => None
  | S n' =>
      match l with
      | c :: r =>
          if Ascii.eqb c dquote then
            let* (k, r1) := parseChars r None in
            match skipWs r1 with
            | c1 :: r2 =>
                if Ascii.eqb c1 ":" then
                  let* (v, r3) := parseValue r2 in
                  match r3 with
                  | c2 :: r4 =>
                      if Ascii.eqb c2 "," then
                        let* (ms, r5) := parseMembers n' (skipWs r4) in
                        Some ((implode k, v) :: ms, r5)
                      else if Ascii.eqb c2 "}" then Some ([(implode k, v)], r4)
                      else None
                  | [] => None
                  end
                else None
            | [] => None
            end
          else None
      | [] => None
      end
  end.

Fixpoint parseElements (n : nat) (l : list ascii)
  : option (list json * list ascii) :=
  match n with
  | O => None
  | S n' =>
      let* (v, r) := parseValue l in
      match r with
      | c :: r1 =>
          if Ascii.eqb c "," then
            let* (vs, r2) := parseElements n' r1 in
            Some (v :: vs, r2)
          else if Ascii.eqb c "]" then Some ([v], r1)
          else None
      | [] => None
      end
  end.
End Structures.

(** A value with the white space around it. *)
Fixpoint parseValue (fuel : nat) (l : list ascii) : option (json * list ascii) :=
  match fuel with
  | O => None
  | S fuel' =>
      match skipWs l with
      | [] => None
      | c :: r =>
          if Ascii.eqb c "{" then
            match skipWs r with
            | c' :: r' =>
                if Ascii.eqb c' "}" then Some (JObject [], skipWs r')
                else
                  let* (ms, r1) := parseMembers (parseValue fuel') fuel' (c' :: r') in
                  Some (JObject ms, skipWs r1)
            | [] => None
            end
          else if Ascii.eqb c "[" then
            match skipWs r with
            | c' :: r' =>
                if Ascii.eqb c' "]" then Some (JArray [], skipWs r')
                else
                  let* (vs, r1) := parseElements (parseValue fuel') fuel' (c' :: r') in
                  Some (JArray vs, skipWs r1)
            | [] => None
            end
          else if Ascii.eqb c dquote then
            let* (s, r1) := parseChars r None in
            Some (JString (implode s), skipWs r1)
          else if Ascii.eqb c "-" || isDigit c then
            let* (q, r1) := parseNumber (c :: r) in
            Some (JNumber (Number.fromQ q), skipWs r1)
          else
            match stripPrefix (explode "true") (c :: r) with
            | Some r1 => Some (JBool true, skipWs r1)
            | None =>
                match stripPrefix (explode "false") (c :: r) with
                | Some r1 => Some (JBool false, skipWs r1)
                | None =>
                    let* r1 := stripPrefix (explode "null") (c :: r) in
                    Some (JNull, skipWs r1)
                end
            end
      end
  end.

Definition parse (text : string) : option json :=
  let l := explode text in
  match parseValue (S (length l)) l with
  | Some (v, []) => Some v
  | _ => None
  end.

(** *** Vocabulary of the properties *)

Definition asciiByte (c : ascii) : bool := byteVal c <? 128.

Definition hasPending (pending : option Z) : bool :=
  match pending with Some _ => true | None => false end.

(** A character of more than one byte: it is written and read as it
    is, and is UTF-8. *)
Definition rawChar (c : list ascii) : Prop :=
  c <> [] /\ Forall (fun b => 128 <= byteVal b) c
  /\ (forall t, quoteChars (c ++ t) = c ++ quoteChars t)
  /\ (forall t, Utf8.wellFormed (c ++ t) = Utf8.wellFormed t).

Definition digitsFrom (a : Z) (ds : list ascii) : Z :=
  fold_left (fun a c => a * 10 + (byteVal c - 48)) ds a.

(** What may follow a number for the number to end there. *)
Definition numberEnd (rest : list ascii) : bool :=
  match rest with
  | [] => true
  | c :: _ =>
      negb (isDigit c) && negb (Ascii.eqb c ".") && negb (Ascii.eqb c "e")
      && negb (Ascii.eqb c "E")
  end.

(** What may follow the digits of a number for the digits to end
    there. *)
Definition fractionEnd (rest : list ascii) : bool :=
  match rest with
  | [] => true
  | c :: _ => negb (isDigit c) && negb (Ascii.eqb c ".")
  end.

Definition fractionText (frac : list ascii) : list ascii :=
  match frac with [] => [] | _ :: _ => "."%char :: frac end.

End JSON.

(** ** jwt-decode *)

(** The claims the plugin reads off a decoded payload. A claim that is
    not there is [None] ([typeof data.exp === "undefined"]). *)
Record Claims := {
  exp : option Q;
  nbf : option Q;
  error : option string
}.

Module JwtDecode.
(** [b64DecodeUnicode]: the bytes [atob] gives, read as UTF-8 by
    [decodeURIComponent]. [None] when either throws. *)
Definition b64DecodeUnicode (str : string) : option string :=
  match Base64.atob str with
  | Some bytes => if Utf8.wellFormed bytes then Some (implode bytes) else None
  | None => None
  end.

(** The string [atob] returns: one character for each byte. *)
Definition binaryString (bytes : list ascii) : string :=
  implode (flat_map (fun b => Utf8.encode (byteVal b)) bytes).

(** The [switch] of [base64_url_decode]: the padding is restored from
    the length. [None] for the length that it throws on. *)
Definition padded (output : list ascii) : option (list ascii) :=
  match (length output mod 4)%nat with
  | 0%nat => Some output
  | 2%nat => Some (output ++ explode "==")
  | 3%nat => Some (output ++ explode "=")
  | _ => None
  end.

(** [base64_url_decode]: the URL alphabet is mapped back, the padding
    is restored, and the result is decoded as UTF-8, or, when that
    throws, left as [atob] gives it. *)
Definition base64_url_decode (str : string) : option string :=
  let output := replaceAll "_" "/" (replaceAll "-" "+" (explode str)) in
  match padded output with
  | Some output =>
      match b64DecodeUnicode (implode output) with
      | Some s => Some s
      | None => option_map binaryString (Base64.atob (implode output))
      end
  | None => None
  end.

(** [o[k]] on a parsed object: of two members with one name the later
    one is kept. *)
Fixpoint member (k : string) (m : list (string * json)) : option json :=
  match m with
  | [] => None
  | (k', v) :: m' =>
      match member k m' with
      | Some v' => Some v'
      | None => if String.eqb k' k then Some v else None
      end
  end.

Definition numberClaim (v : option json) : option (option Q) :=
  match v with
  | None => Some None
  | Some (JNumber q) => Some (Some q)
  | Some _ => None
  end.

Definition stringClaim (v : option json) : option (option string) :=
  match v with
  | None => Some None
  | Some (JString s) => Some (Some s)
  | Some _ => None
  end.

(** The claims of a parsed payload, read at the types of [Claims].
    [None] when nothing can be read: the payload is [null], off which
    reading a property throws, or a claim has another type than
    [Claims] gives it ([exp: "soon"]). The plugin would go on with such
    a claim, and JavaScript would convert it where it is compared;
    that is outside this model, and what is proved below with this
    decoder is about tokens whose claims have these types. A payload
    that is no object has no claims. *)
Definition claimsOf (v : json) : option Claims :=
  match v with
  | JNull => None
  | JObject m =>
      match numberClaim (member "exp" m), numberClaim (member "nbf" m),
            stringClaim (member "error" m) with
      | Some e, Some n, Some r => Some {| exp := e; nbf := n; error := r |}
      | _, _, _ => None
      end
  | _ => Some {| exp := None; nbf := None; error := None |}
  end.

(** [jwtDecode(token)]: [JSON.parse(base64_url_decode(token.split(".")[1]))],
    followed by the reading of the claims. [None] when any step
    throws. *)
Definition jwtDecode (token : string) : option Claims :=
  match split "." token with
  | _ :: part :: _ =>
      match base64_url_decode part with
      | Some text =>
          match JSON.parse text with
          | Some v => claimsOf v
          | None => None
          end
      | None => None
      end
  | _ => None
  end.
End JwtDecode.

(** * The plugin: [src/plugin.js] *)

(** The arguments of the template tag, and the object handed to
    [cognitoAuth] (lines 138-146). *)
Record AuthData := {
  Username : option string;
  Password : option string;
  Region : option string;
  ClientId : option string;
  UserPoolId : option string;
  TokenType : option string;
  ClientSecret : option string
}.

(** What a successful handshake gives: [getIdToken().getJwtToken()] and
    [getAccessToken().getJwtToken()]. *)
Record AuthSession := {
  idToken : string;
  accessToken : string
}.

(** A thrown [Error] and its [message]. *)
Record exn := Error { message : string }.

(** ** Asynchronous computations *)

(** The calls a run makes, in order. [ValidToken] records a call of the
    plugin's own validity check. *)
Inductive Event :=
| GetItem (key : string)
| SetItem (key value : string)
| Authenticate (authData : AuthData)
| ValidToken (token : string).

Record World := {
  store : gmap string string;   (* context.store *)
  clock : Z;                    (* Date.now(), in milliseconds *)
  trace : list Event
}.

Inductive Completion (A : Type) :=
| Return (a : A)
| Throw (e : exn).
Arguments Return {A} a.
Arguments Throw {A} e.

Definition Async (A : Type) : Type := World -> Completion A * World.

Definition ret {A} (a : A) : Async A := fun w => (Return a, w).

Definition throw {A} (e : exn) : Async A := fun w => (Throw e, w).

Definition bind {A B} (m : Async A) (k : A -> Async B) : Async B :=
  fun w =>
    match m w with
    | (Return a, w') => k a w'
    | (Throw e, w') => (Throw e, w')
    end.

Definition tryCatch {A} (body : Async A) (handler : exn -> Async A) : Async A :=
  fun w =>
    match body w with
    | (Return a, w') => (Return a, w')
    | (Throw e, w') => handler e w'
    end.

Notation "x <- m ;; k" := (bind m (fun x => k))
  (at level 100, m at next level, right associativity).

Definition logEvent (e : Event) : Async unit :=
  fun w => (Return tt, {| store := store w; clock := clock w; trace := trace w ++ [e] |}).

(** The world after further calls. *)
Definition logged (w : World) (events : list Event) : World :=
  {| store := store w; clock := clock w; trace := trace w ++ events |}.

(** The world with the entry under [key] taken out of the store. *)
Definition withoutEntry (key : string) (w : World) : World :=
  {| store := delete key (store w); clock := clock w; trace := trace w |}.

(** [Date.now().valueOf()] *)
Definition dateNow : Async Z := fun w => (Return (clock w), w).

(** [context.store.getItem(key)] *)
Definition getItem (key : string) : Async (option string) :=
  _ <- logEvent (GetItem key);;
  fun w => (Return (store w !! key), w).

(** [context.store.setItem(key, value)] *)
Definition setItem (key value : string) : Async unit :=
  _ <- logEvent (SetItem key value);;
  fun w => (Return tt, {| store := <[key := value]> (store w); clock := clock w;
                          trace := trace w |}).

(** [ms / 1000] *)
Definition seconds (ms : Z) : Q := Number.div (inject_Z ms) 1000.

(** [v === s] *)
Definition strictEq (v : option string) (s : string) : bool :=
  match v with
  | Some t => String.eqb t s
  | None => false
  end.

(** ** The functions of the plugin *)

(** Lines 62-68. *)
Definition base64url (source : list ascii) : string :=
  let encodedSource := Base64.stringify source in
  let encodedSource := implode (dropTrailing "=" (explode encodedSource)) in
  let encodedSource := implode (replaceAll "+" "-" (explode encodedSource)) in
  let encodedSource := implode (replaceAll "/" "_" (explode encodedSource)) in
  encodedSource.

(** Lines 70-86. *)
Definition errorToken (error : string) : Async string :=
  let header := JObject [("alg", JString "HS256"); ("typ", JString "JWT")] in
  let stringifiedHeader := Utf8.parse (JSON.stringify header) in
  let encodedHeader := base64url stringifiedHeader in
  (* If error we keep it for 1 min *)
  ms <- dateNow;;
  let exp := Number.add (seconds ms) 60 in
  let data := JObject [("error", JString error); ("exp", JNumber exp)] in
  let stringifiedData := Utf8.parse (JSON.stringify data) in
  let encodedData := base64url stringifiedData in
  ret (encodedHeader +:+ "." +:+ encodedData).

(** Lines 118-126: the key of the cache entry. *)
Definition keyFields (d : AuthData) : list (option string) :=
  [Username d; Password d; Region d; ClientId d; UserPoolId d; TokenType d; ClientSecret d].

(** The six of them that a separator follows. *)
Definition separatedFields (d : AuthData) : list (option string) :=
  [Username d; Password d; Region d; ClientId d; UserPoolId d; TokenType d].

Definition cacheKey (d : AuthData) : string := join "::" (keyFields d).

(** Lines 114-116: the values the run goes on with, [TokenType] set to
    ["access"] when it came in falsy. *)
Definition credentialSet (a : AuthData) : AuthData :=
  {| Username := Username a;
     Password := Password a;
     Region := Region a;
     ClientId := ClientId a;
     UserPoolId := UserPoolId a;
     TokenType := if negb (truthy (TokenType a)) then Some "access" else TokenType a;
     ClientSecret := ClientSecret a |}.

Section Plugin.
(** [jwtDecode] of the library jwt-decode, with the claims read off its
    result: [None] when the call, or the reading of a claim off what it
    returns, throws. *)
Variable jwtDecode : string -> option Claims.

(** [cognitoUser.authenticateUser] of amazon-cognito-identity-js for a
    pool ([UserPoolId], [ClientId]) and a user ([Username],
    [Password]), started at a time: the time at which its callback
    fires, and the session ([onSuccess]) or the error ([onFailure]). *)
Variable authenticateUser :
  option string -> option string -> option string -> option string -> Z ->
  Z * (AuthSession + exn).

Definition decode (token : string) : Async Claims :=
  match jwtDecode token with
  | Some data => ret data
  | None => throw (Error "Invalid token specified")
  end.

(** Lines 9-42. [Region] and [ClientSecret] are read and not used. *)
Definition cognitoAuth (authData : AuthData) : Async string :=
  fun w =>
    let '(finished, outcome) :=
      authenticateUser (UserPoolId authData) (ClientId authData)
        (Username authData) (Password authData) (clock w) in
    let w' := {| store := store w; clock := finished;
                 trace := trace w ++ [Authenticate authData] |} in
    match outcome with
    | inl authUser =>
        if strictEq (TokenType authData) "id" then (Return (idToken authUser), w')
        else (Return (accessToken authUser), w')
    | inr err => (Throw err, w')
    end.

(** The token [cognitoAuth] picks from a session (lines 40-41). *)
Definition sessionToken (authData : AuthData) (authUser : AuthSession) : string :=
  if strictEq (TokenType authData) "id" then idToken authUser else accessToken authUser.

(** Lines 45-59. *)
Definition validToken (token : string) : Async bool :=
  _ <- logEvent (ValidToken token);;
  ms <- dateNow;;
  let now := seconds ms in
  tryCatch
    (data <- decode token;;
     if match exp data with Some e => Qltb e now | None => false end
     then ret false
     else if match nbf data with Some n => Qltb now n | None => false end
     then ret false
     else ret true)
    (fun err => ret false).

(** Lines 136-155: the branch that asks for a new token. *)
Definition computeNew (authData : AuthData) (key : string) : Async string :=
  (* Compute a new token *)
  tryCatch
    (token <- cognitoAuth authData;;
     _ <- setItem key token;;
     ret token)
    (fun error =>
       (* To keep thing simple we create a fake JWT token with error message *)
       token <- errorToken (message error);;
       _ <- setItem key token;;
       ret (message error)).

(** Lines 89-156. *)
Definition run (a : AuthData) : Async string :=
  if negb (truthy (Username a)) then throw (Error "Username attribute is required")
  else if negb (truthy (Password a)) then throw (Error "Password attribute is required")
  else if negb (truthy (Region a)) then throw (Error "Region attribute is required")
  else if negb (truthy (ClientId a)) then throw (Error "ClientId attribute is required")
  else if negb (truthy (UserPoolId a)) then throw (Error "UserPoolId attribute is required")
  else
    let authData := credentialSet a in
    let key := cacheKey authData in
    token <- getItem key;;
    match token with
    | Some t =>
        if truthy token then
          valid <- validToken t;;
          if valid then
            data <- decode t;;
            match error data with
            | Some m =>
                if truthy (error data) then ret m (* Display error *)
                else ret t
            | None => ret t (* JWT token is still valid, reuse it *)
            end
          else computeNew authData key
        else computeNew authData key
    | None => computeNew authData key
    end.

(** ** Vocabulary of the properties *)

(** The answer of [validToken] when the clock reads [now]. *)
Definition validAt (now : Z) (token : string) : bool :=
  match fst (validToken token {| store := ∅; clock := now; trace := [] |}) with
  | Return b => b
  | Throw _ => false
  end.

(** The cached value is reused: [token && validToken(token)]. *)
Definition cacheHit (now : Z) (cached : option string) : bool :=
  match cached with
  | Some t => truthy cached && validAt now t
  | None => false
  end.

(** The calls of [validToken] that looking at a cached value makes. *)
Definition checkEvents (cached : option string) : list Event :=
  match cached with
  | Some t => if truthy cached then [ValidToken t] else []
  | None => []
  end.
End Plugin.

(** The five mandatory arguments, in the order of the checks. *)
Definition requiredFields (a : AuthData) : list (string * option string) :=
  [("Username", Username a); ("Password", Password a); ("Region", Region a);
   ("ClientId", ClientId a); ("UserPoolId", UserPoolId a)].

(** The arguments with another token type. *)
Definition withTokenType (t : option string) (a : AuthData) : AuthData :=
  {| Username := Username a;
     Password := Password a;
     Region := Region a;
     ClientId := ClientId a;
     UserPoolId := UserPoolId a;
     TokenType := t;
     ClientSecret := ClientSecret a |}.

(** All five mandatory arguments are there. *)
Definition validated (a : AuthData) : bool :=
  forallb (fun f => truthy (snd f)) (requiredFields a).

(** The token [errorToken] builds when the clock reads [now]. *)
Definition errorTokenAt (now : Z) (error : string) : string :=
  match fst (errorToken error {| store := ∅; clock := now; trace := [] |}) with
  | Return t => t
  | Throw _ => ""
  end.

(** A field that [join] can be undone on: it holds no separator and does
    not end in half of one. *)
Definition plainField (v : option string) : bool :=
  negb (includes "::" (elementText v)) && negb (endsWith ":" (elementText v)).

(** * The template tag (lines 158-215) *)

(** An entry of the [options] of an argument of type [enum]. *)
Module EnumOption.
Record t := {
  displayName : string;
  value : string
}.
End EnumOption.

(** An entry of [args]. [validate] and [defaultValue] are [None] and
    [options] is empty where the source does not give them. *)
Module Arg.
Record t := {
  displayName : string;
  type : string;
  validate : option (option string -> string);
  defaultValue : option string;
  options : list EnumOption.t
}.
End Arg.

Module TemplateTag.
Record t := {
  name : string;
  displayName : string;
  description : string;
  args : list Arg.t;
  run : AuthData -> Async string
}.
End TemplateTag.

(** [(arg) => (arg ? "" : "Required")] *)
Definition required (arg : option string) : string :=
  if truthy arg then "" else "Required".

Section TemplateTags.
Variable jwtDecode : string -> option Claims.
Variable authenticateUser :
  option string -> option string -> option string -> option string -> Z ->
  Z * (AuthSession + exn).

(** [module.exports.templateTags] *)
Definition templateTags : list TemplateTag.t :=
  [ {| TemplateTag.name := "AwsCognitoToken";
       TemplateTag.displayName := "AWS Cognito Token";
       TemplateTag.description := "Plugin for Insomnia to provide Cognito JWT token from AWS";
       TemplateTag.args :=
         [ {| Arg.displayName := "Username";
              Arg.type := "string";
              Arg.validate := Some required;
              Arg.defaultValue := None;
              Arg.options := [] |};
           {| Arg.displayName := "Password";
              Arg.type := "string";
              Arg.validate := Some required;
              Arg.defaultValue := None;
              Arg.options := [] |};
           {| Arg.displayName := "Region";
              Arg.type := "string";
              Arg.validate := Some required;
              Arg.defaultValue := None;
              Arg.options := [] |};
           {| Arg.displayName := "ClientId";
              Arg.type := "string";
              Arg.validate := Some required;
              Arg.defaultValue := None;
              Arg.options := [] |};
           {| Arg.displayName := "UserPoolId";
              Arg.type := "string";
              Arg.validate := Some required;
              Arg.defaultValue := None;
              Arg.options := [] |};
           {| Arg.displayName := "TokenType";
              Arg.type := "enum";
              Arg.validate := None;
              Arg.defaultValue := Some "access";
              Arg.options :=
                [ {| EnumOption.displayName := "access"; EnumOption.value := "access" |};
                  {| EnumOption.displayName := "id"; EnumOption.value := "id" |};
                  {| EnumOption.displayName := "Raw Request";
                     EnumOption.value := "raw_request" |} ] |};
           {| Arg.displayName := "ClientSecret";
              Arg.type := "string";
              Arg.validate := None;
              Arg.defaultValue := None;
              Arg.options := [] |} ];
       TemplateTag.run := run jwtDecode authenticateUser |} ].
End TemplateTags.

(** ** Vocabulary of the further properties *)

(** What the validator of an argument says of a value; an argument
    without a validator has nothing to say. *)
Definition validation (arg : Arg.t) (v : option string) : string :=
  match Arg.validate arg with
  | Some f => f v
  | None => ""
  end.

(** What a handshake that ended in [outcome] makes [run] return, and
    what it makes [run] store (lines 138-153). *)
Definition answerOf (d : AuthData) (outcome : AuthSession + exn) : string :=
  match outcome with
  | inl authUser => sessionToken d authUser
  | inr err => message err
  end.

Definition entryOf (d : AuthData) (finished : Z) (outcome : AuthSession + exn) : string :=
  match outcome with
  | inl authUser => sessionToken d authUser
  | inr err => errorTokenAt finished (message err)
  end.

(** The handshakes and the writes among the calls of a log. *)
Definition handshakes (events : list Event) : list AuthData :=
  flat_map (fun e => match e with Authenticate d => [d] | _ => [] end) events.

Definition writes (events : list Event) : list (string * string) :=
  flat_map (fun e => match e with SetItem k v => [(k, v)] | _ => [] end) events.

(** The alphabet of base64url (RFC 4648, section 5), the padding left
    out. *)
Definition urlSafe (c : ascii) : bool :=
  existsb (Ascii.eqb c)
    (explode "ABCDEFGHIJKLMNOPQRSTUVWXYZabcdefghijklmnopqrstuvwxyz0123456789-_").

(** * Worked inputs *)

Module Examples.
Definition alice : AuthData :=
  {| Username := Some "alice";
     Password := Some "hunter2";
     Region := Some "eu-west-1";
     ClientId := Some "client";
     UserPoolId := Some "eu-west-1_pool";
     TokenType := None;
     ClientSecret := None |}.

(** alice again, her client secret the empty string. *)
Definition aliceEmptySecret : AuthData :=
  {| Username := Some "alice";
     Password := Some "hunter2";
     Region := Some "eu-west-1";
     ClientId := Some "client";
     UserPoolId := Some "eu-west-1_pool";
     TokenType := None;
     ClientSecret := Some "" |}.

(** Nobody: the password is missing. *)
Definition noPassword : AuthData :=
  {| Username := Some "alice";
     Password := None;
     Region := Some "eu-west-1";
     ClientId := Some "client";
     UserPoolId := Some "eu-west-1_pool";
     TokenType := None;
     ClientSecret := None |}.

Definition aliceKey : string :=
  "alice::hunter2::eu-west-1::client::eu-west-1_pool::access::".

(** A handshake that fails after a quarter of a second. *)
Definition rejecting (m : string)
  : option string -> option string -> option string -> option string -> Z ->
    Z * (AuthSession + exn) :=
  fun _ _ _ _ started => ((started + 250)%Z, inr (Error m)).

(** A handshake that succeeds after a quarter of a second. *)
Definition accepting
  : option string -> option string -> option string -> option string -> Z ->
    Z * (AuthSession + exn) :=
  fun _ _ _ _ started =>
    ((started + 250)%Z, inl {| idToken := "id.tok"; accessToken := "tok123" |}).

Definition morning : Z := 1700000000123.

Definition world (entries : list (string * string)) (now : Z) : World :=
  {| store := list_to_map entries; clock := now; trace := [] |}.

(** A token with the given payload, made the way [errorToken] makes
    its own. *)
Definition tokenOf (data : json) : string :=
  base64url (Utf8.parse (JSON.stringify
                           (JObject [("alg", JString "HS256"); ("typ", JString "JWT")])))
  +:+ "." +:+ base64url (Utf8.parse (JSON.stringify data)).

(** The token left in the cache by a failure with an empty message. *)
Definition emptyMessageToken : string := errorTokenAt morning "".

(** Two sets of arguments whose first two fields meet in [":::"]. *)
Definition colonLeft : AuthData :=
  {| Username := Some "a:"; Password := Some "b"; Region := Some "r";
     ClientId := Some "c"; UserPoolId := Some "p"; TokenType := Some "access";
     ClientSecret := None |}.

Definition colonRight : AuthData :=
  {| Username := Some "a"; Password := Some ":b"; Region := Some "r";
     ClientId := Some "c"; UserPoolId := Some "p"; TokenType := Some "access";
     ClientSecret := None |}.

(** alice in another region, with a client secret. *)
Definition aliceElsewhere : AuthData :=
  {| Username := Some "alice";
     Password := Some "hunter2";
     Region := Some "us-east-1";
     ClientId := Some "client";
     UserPoolId := Some "eu-west-1_pool";
     TokenType := None;
     ClientSecret := Some "s3cret" |}.

(** A token that is good from [morning] on, for an hour. *)
Definition hourToken : string :=
  tokenOf (JObject [("sub", JString "alice");
                    ("nbf", JNumber (seconds morning));
                    ("exp", JNumber (Number.add (seconds morning) 3600))]).

(** A handshake that gives [hourToken] as the access token. *)
Definition issuing
  : option string -> option string -> option string -> option string -> Z ->
    Z * (AuthSession + exn) :=
  fun _ _ _ _ started =>
    ((started + 250)%Z, inl {| idToken := "id.tok"; accessToken := hourToken |}).
End Examples.

(** * Properties *)

(** ** Bytes, strings and numbers *)

Lemma byteVal_range c : (0 <= byteVal c < 256)%Z.
Proof. unfold byteVal. pose proof (N_ascii_bounded c). lia. Qed.

Lemma byteChr_byteVal c : byteChr (byteVal c) = c.
Proof. unfold byteChr, byteVal. rewrite N2Z.id. apply ascii_N_embedding. Qed.

Lemma byteVal_byteChr z : (0 <= z < 256)%Z -> byteVal (byteChr z) = z.
Proof. intros H. unfold byteChr, byteVal. rewrite N_ascii_embedding by lia. lia. Qed.

Lemma explode_implode l : explode (implode l) = l.
Proof. apply list_ascii_of_string_of_list_ascii. Qed.

Lemma implode_explode s : implode (explode s) = s.
Proof. apply string_of_list_ascii_of_string. Qed.

Lemma app_String c s t : String c s +:+ t = String c (s +:+ t).
Proof. reflexivity. Qed.

Lemma explode_app s t : explode (s +:+ t) = explode s ++ explode t.
Proof.
  induction s as [|c s IH]; [reflexivity|].
  rewrite app_String. cbn [list_ascii_of_string app]. now rewrite IH.
Qed.

Lemma explode_inj s t : explode s = explode t -> s = t.
Proof. intros H. rewrite <- (implode_explode s), <- (implode_explode t). now rewrite H. Qed.

Lemma string_app_inv_head s a b : s +:+ a = s +:+ b -> a = b.
Proof.
  intros H. apply explode_inj. apply (f_equal explode) in H.
  rewrite !explode_app in H. now apply app_inv_head in H.
Qed.

Lemma string_app_inv_tail s a b : a +:+ s = b +:+ s -> a = b.
Proof.
  intros H. apply explode_inj. apply (f_equal explode) in H.
  rewrite !explode_app in H. now apply app_inv_tail in H.
Qed.

Lemma Qltb_lt a b : Qltb a b = true <-> (a < b)%Q.
Proof.
  unfold Qltb. rewrite negb_true_iff. split.
  - intros H. apply Qnot_le_lt. intros Hle. apply Qle_bool_iff in Hle. congruence.
  - intros H. destruct (Qle_bool b a) eqn:E; [|reflexivity].
    apply Qle_bool_iff in E. exfalso. now apply (Qlt_not_le a b).
Qed.

Lemma Qltb_ge a b : Qltb a b = false <-> (b <= a)%Q.
Proof.
  unfold Qltb. rewrite negb_false_iff. apply Qle_bool_iff.
Qed.

(** ** Splitting *)

Lemma splitOn_plain sep l :
  forallb (fun c => negb (Ascii.eqb c sep)) l = true -> splitOn sep l = [l].
Proof.
  induction l as [|c l IH]; intros H; [reflexivity|].
  cbn [forallb] in H. apply andb_true_iff in H as [Hc Hl].
  apply negb_true_iff in Hc. cbn [splitOn]. now rewrite Hc, (IH Hl).
Qed.

Lemma splitOn_app sep l r :
  forallb (fun c => negb (Ascii.eqb c sep)) l = true ->
  splitOn sep (l ++ sep :: r) = l :: splitOn sep r.
Proof.
  induction l as [|c l IH]; intros H.
  - cbn [app splitOn]. now rewrite Ascii.eqb_refl.
  - cbn [forallb] in H. apply andb_true_iff in H as [Hc Hl].
    apply negb_true_iff in Hc. cbn [app splitOn]. now rewrite Hc, (IH Hl).
Qed.

(** ** Joining *)

Lemma join_cons sep x y l :
  join sep (x :: y :: l) = elementText x +:+ sep +:+ join sep (y :: l).
Proof. reflexivity. Qed.

Lemma cut_join f r :
  includes "::" f = false -> endsWith ":" f = false ->
  cut (f +:+ "::" +:+ r) = Some (f, r).
Proof.
  induction f as [|c f IH]; intros Hi He.
  - destruct r; reflexivity.
  - rewrite app_String.
    assert (Hp : afterSep (String c (f +:+ "::" +:+ r)) = None).
    { destruct f as [|c' f].
      - cbn in He. cbv [String.app afterSep]. rewrite He. reflexivity.
      - cbn in Hi. rewrite app_String. cbv [afterSep].
        destruct (Ascii.eqb_spec c ":") as [->|Hc]; [|reflexivity].
        destruct (Ascii.eqb_spec c' ":") as [->|Hc']; [|reflexivity].
        simpl in Hi. discriminate. }
    cbn [cut]. rewrite Hp. rewrite IH; [reflexivity| |].
    + cbn in Hi. apply orb_false_iff in Hi. tauto.
    + destruct f; [reflexivity|]. exact He.
Qed.

(** Two lists of plain fields, each followed by one more field, are
    joined to the same text only when they print alike. *)
Lemma join_inj_plain l1 : forall l2 x1 x2,
  length l1 = length l2 ->
  forallb plainField l1 = true -> forallb plainField l2 = true ->
  join "::" (l1 ++ [x1]) = join "::" (l2 ++ [x2]) ->
  map elementText (l1 ++ [x1]) = map elementText (l2 ++ [x2]).
Proof.
  induction l1 as [|a l1 IH]; intros [|b l2] x1 x2 Hlen H1 H2 Hk; try discriminate.
  - cbn in *. congruence.
  - cbn [forallb] in H1, H2. apply andb_true_iff in H1 as [Ha H1], H2 as [Hb H2].
    apply andb_true_iff in Ha as [Ha1 Ha2], Hb as [Hb1 Hb2].
    apply negb_true_iff in Ha1, Ha2, Hb1, Hb2.
    assert (E1 : exists y t, l1 ++ [x1] = y :: t) by (destruct l1; cbn; eauto).
    assert (E2 : exists y t, l2 ++ [x2] = y :: t) by (destruct l2; cbn; eauto).
    destruct E1 as (y1 & t1 & E1), E2 as (y2 & t2 & E2).
    cbn [app map] in *. rewrite E1, E2 in Hk. rewrite !join_cons in Hk.
    apply (f_equal cut) in Hk. rewrite !cut_join in Hk by assumption.
    assert (Hab : elementText a = elementText b) by congruence.
    assert (Hrest : join "::" (y1 :: t1) = join "::" (y2 :: t2)) by congruence.
    rewrite <- E1, <- E2 in Hrest.
    f_equal; [exact Hab|]. apply IH; auto.
Qed.

(** ** Numbers *)

Module NumberFacts.
Import Number.
Local Open Scope Q_scope.

Lemma pow2_pos e : 0 < pow2 e.
Proof. apply Qpower_0_lt. reflexivity. Qed.

Lemma pow2_add a b : pow2 (a + b) == pow2 a * pow2 b.
Proof. apply Qpower_plus. discriminate. Qed.

Lemma pow2_le a b : (a <= b)%Z -> pow2 a <= pow2 b.
Proof. intros H. apply Qpower_le_compat_l; [exact H|discriminate]. Qed.

Lemma pow2_lt_inv a b : pow2 a < pow2 b -> (a < b)%Z.
Proof. intros H. apply (Qpower_lt_compat_l_inv 2); [exact H|reflexivity]. Qed.

Lemma pow2_Z e : (0 <= e)%Z -> pow2 e == inject_Z (2 ^ e).
Proof. intros H. unfold pow2. now rewrite Zpower_Qpower. Qed.

Lemma pow2_sub a b : pow2 (a - b) == pow2 a / pow2 b.
Proof.
  unfold Z.sub. rewrite pow2_add. unfold pow2 at 2. rewrite Qpower_opp. reflexivity.
Qed.

(** Scaling back and forth. *)
Lemma scale_unscale a e : a / pow2 e * pow2 e == a.
Proof. field. pose proof (pow2_pos e). lra. Qed.

Lemma div_pow2_le a b e : a <= b -> a / pow2 e <= b / pow2 e.
Proof.
  intros H. unfold Qdiv. apply Qmult_le_compat_r; [exact H|].
  apply Qlt_le_weak, Qinv_lt_0_compat, pow2_pos.
Qed.

(** *** Rounding to an integer *)

Lemma roundHalfEven_bounds x : (Qfloor x <= roundHalfEven x <= Qfloor x + 1)%Z.
Proof.
  unfold roundHalfEven.
  destruct (Qcompare (x - inject_Z (Qfloor x)) (1 # 2)); [destruct (Z.even (Qfloor x))| |]; lia.
Qed.

Lemma roundHalfEven_comp x y : x == y -> roundHalfEven x = roundHalfEven y.
Proof.
  intros H. unfold roundHalfEven. rewrite (Qfloor_comp _ _ H).
  assert (E : x - inject_Z (Qfloor y) == y - inject_Z (Qfloor y)) by now rewrite H.
  now rewrite (Qcompare_comp _ _ E _ _ (Qeq_refl (1 # 2))).
Qed.

Lemma roundHalfEven_Z n : roundHalfEven (inject_Z n) = n.
Proof.
  unfold roundHalfEven. rewrite Qfloor_Z.
  assert (E : inject_Z n - inject_Z n == 0) by ring.
  now rewrite (Qcompare_comp _ _ E _ _ (Qeq_refl (1 # 2))).
Qed.

Lemma roundHalfEven_int x n : x == inject_Z n -> roundHalfEven x = n.
Proof. intros H. rewrite (roundHalfEven_comp _ _ H). apply roundHalfEven_Z. Qed.

Lemma roundHalfEven_le x y : x <= y -> (roundHalfEven x <= roundHalfEven y)%Z.
Proof.
  intros H. pose proof (Qfloor_resp_le _ _ H) as Hf.
  pose proof (roundHalfEven_bounds x) as Bx. pose proof (roundHalfEven_bounds y) as By.
  destruct (Z.eq_dec (Qfloor x) (Qfloor y)) as [E|E]; [|lia].
  unfold roundHalfEven in *. rewrite E in *.
  destruct (Qcompare_spec (x - inject_Z (Qfloor y)) (1 # 2)) as [Hx|Hx|Hx];
    destruct (Qcompare_spec (y - inject_Z (Qfloor y)) (1 # 2)) as [Hy|Hy|Hy];
    try lia; try (exfalso; lra).
Qed.

Lemma Zlt_Qlt_pow2 n k : (0 <= k)%Z -> (n < 2 ^ k)%Z -> inject_Z n < pow2 k.
Proof. intros Hk H. rewrite pow2_Z by exact Hk. now rewrite <- Zlt_Qlt. Qed.

Lemma Zle_Qle_pow2 n k : (0 <= k)%Z -> (2 ^ k <= n)%Z -> pow2 k <= inject_Z n.
Proof. intros Hk H. rewrite pow2_Z by exact Hk. now rewrite <- Zle_Qle. Qed.

Lemma positive_num a : 0 < a -> (0 < Qnum a)%Z.
Proof. unfold Qlt. cbn. lia. Qed.

Lemma Q_as_fraction a : a * inject_Z (Z.pos (Qden a)) == inject_Z (Qnum a).
Proof. destruct a as [n d]. unfold Qeq, Qmult, inject_Z. cbn. lia. Qed.

(** [ilog2 a] is the exponent of the power of two at or below [a]. *)
Lemma ilog2_spec a : 0 < a -> pow2 (ilog2 a) <= a < pow2 (ilog2 a + 1).
Proof.
  intros Ha. pose proof (positive_num a Ha) as Hn.
  pose proof (Q_as_fraction a) as Hf.
  set (n := Qnum a) in *. set (d := Z.pos (Qden a)) in *.
  assert (Hd : (0 < d)%Z) by (subst d; lia).
  pose proof (Z.log2_spec n Hn) as [Hn1 Hn2]. pose proof (Z.log2_spec d Hd) as [Hd1 Hd2].
  pose proof (Z.log2_nonneg n) as Ln. pose proof (Z.log2_nonneg d) as Ld.
  assert (Qn1 : pow2 (Z.log2 n) <= inject_Z n) by now apply Zle_Qle_pow2.
  assert (Qn2 : inject_Z n < pow2 (Z.log2 n + 1)).
  { apply Zlt_Qlt_pow2; [lia|]. now rewrite <- Z.add_1_r in Hn2. }
  assert (Qd1 : pow2 (Z.log2 d) <= inject_Z d) by now apply Zle_Qle_pow2.
  assert (Qd2 : inject_Z d < pow2 (Z.log2 d + 1)).
  { apply Zlt_Qlt_pow2; [lia|]. now rewrite <- Z.add_1_r in Hd2. }
  set (l := (Z.log2 n - Z.log2 d)%Z).
  assert (Hlow : pow2 (l - 1) < a).
  { assert (E : pow2 (Z.log2 n) == pow2 (l - 1) * pow2 (Z.log2 d + 1)).
    { rewrite <- pow2_add. subst l. now replace (Z.log2 n - Z.log2 d - 1 + (Z.log2 d + 1))%Z
        with (Z.log2 n) by lia. }
    pose proof (pow2_pos (l - 1)). pose proof (pow2_pos (Z.log2 d + 1)).
    pose proof (pow2_pos (Z.log2 d)).
    apply Qnot_le_lt. intros Hc.
    assert (a * inject_Z d < pow2 (l - 1) * pow2 (Z.log2 d + 1)) by nra. lra. }
  assert (Hhigh : a < pow2 (l + 1)).
  { assert (E : pow2 (Z.log2 n + 1) == pow2 (l + 1) * pow2 (Z.log2 d)).
    { rewrite <- pow2_add. subst l. now replace (Z.log2 n - Z.log2 d + 1 + Z.log2 d)%Z
        with (Z.log2 n + 1)%Z by lia. }
    pose proof (pow2_pos (l + 1)). pose proof (pow2_pos (Z.log2 d)).
    apply Qnot_le_lt. intros Hc.
    assert (pow2 (l + 1) * pow2 (Z.log2 d) <= a * inject_Z d) by nra. lra. }
  unfold ilog2. fold n d l.
  destruct (Qle_bool (pow2 l) a) eqn:E.
  - apply Qle_bool_iff in E. split; [exact E|exact Hhigh].
  - assert (Hlt : a < pow2 l).
    { apply Qnot_le_lt. intros Hc. apply Qle_bool_iff in Hc. congruence. }
    replace (l - 1 + 1)%Z with l by lia. split; [now apply Qlt_le_weak|exact Hlt].
Qed.

Lemma ilog2_unique a L : pow2 L <= a < pow2 (L + 1) -> 0 < a -> ilog2 a = L.
Proof.
  intros [H1 H2] Ha. destruct (ilog2_spec a Ha) as [S1 S2].
  assert (A : (L < ilog2 a + 1)%Z) by (apply pow2_lt_inv; lra).
  assert (B : (ilog2 a < L + 1)%Z) by (apply pow2_lt_inv; lra).
  lia.
Qed.

Lemma ilog2_le a b : 0 < a -> a <= b -> (ilog2 a <= ilog2 b)%Z.
Proof.
  intros Ha Hab. assert (Hb : 0 < b) by lra.
  destruct (ilog2_spec a Ha) as [A1 A2]. destruct (ilog2_spec b Hb) as [B1 B2].
  assert (H : (ilog2 a < ilog2 b + 1)%Z) by (apply pow2_lt_inv; lra). lia.
Qed.

Lemma ilog2_comp a b : 0 < a -> a == b -> ilog2 a = ilog2 b.
Proof.
  intros Ha E. apply ilog2_unique; [|exact Ha].
  assert (Hb : 0 < b) by lra. destruct (ilog2_spec b Hb). lra.
Qed.

Lemma ilog2_upper a L : 0 < a -> a < pow2 L -> (ilog2 a < L)%Z.
Proof.
  intros Ha H. destruct (ilog2_spec a Ha) as [S1 _]. apply pow2_lt_inv. lra.
Qed.

(** *** Rounding to a multiple of a power of two *)

Lemma roundTo_le e a b : a <= b -> roundTo e a <= roundTo e b.
Proof.
  intros H. unfold roundTo. apply Qmult_le_compat_r; [|apply Qlt_le_weak, pow2_pos].
  rewrite <- Zle_Qle. apply roundHalfEven_le. now apply div_pow2_le.
Qed.

Lemma roundTo_comp e a b : a == b -> roundTo e a == roundTo e b.
Proof.
  intros H. unfold roundTo.
  assert (E : a / pow2 e == b / pow2 e) by now rewrite H.
  now rewrite (roundHalfEven_comp _ _ E).
Qed.

(** A multiple of a power of two at least as large stays. *)
Lemma roundTo_grid e e' k a :
  (e <= e')%Z -> a == inject_Z k * pow2 e' -> roundTo e a == a.
Proof.
  intros He Ha. unfold roundTo.
  assert (E : a / pow2 e == inject_Z (k * 2 ^ (e' - e))).
  { rewrite Ha, inject_Z_mult, <- pow2_Z by lia. rewrite pow2_sub. field.
    pose proof (pow2_pos e). lra. }
  rewrite (roundHalfEven_int _ _ E), <- E. apply scale_unscale.
Qed.

Lemma roundTo_pow2 e L : (e <= L)%Z -> roundTo e (pow2 L) == pow2 L.
Proof. intros H. apply (roundTo_grid e L 1 _ H). ring. Qed.

(** *** The nearest double *)

Lemma exponentOf_le a b : 0 < a -> a <= b -> (exponentOf a <= exponentOf b)%Z.
Proof. intros Ha H. unfold exponentOf. pose proof (ilog2_le a b Ha H). lia. Qed.

Lemma exponentOf_comp a b : 0 < a -> a == b -> exponentOf a = exponentOf b.
Proof. intros Ha H. unfold exponentOf. now rewrite (ilog2_comp a b Ha H). Qed.

(** Below the next power of two; at or above this one unless the
    exponent is the least. *)
Lemma exponentOf_upper a : 0 < a -> a < pow2 (exponentOf a + 53).
Proof.
  intros Ha. destruct (ilog2_spec a Ha) as [_ H].
  apply Qlt_le_trans with (1 := H). apply pow2_le. unfold exponentOf. lia.
Qed.

Lemma exponentOf_lower a :
  0 < a -> (emin < exponentOf a)%Z -> pow2 (exponentOf a + 52) <= a.
Proof.
  intros Ha He. destruct (ilog2_spec a Ha) as [H _].
  unfold exponentOf in *. replace (Z.max (ilog2 a - 52) emin + 52)%Z with (ilog2 a) by lia.
  exact H.
Qed.

Lemma roundPositive_nonneg a : 0 < a -> 0 <= roundPositive a.
Proof.
  intros Ha. unfold roundPositive, roundTo.
  apply Qmult_le_0_compat; [|apply Qlt_le_weak, pow2_pos].
  change 0 with (inject_Z 0). rewrite <- Zle_Qle.
  pose proof (roundHalfEven_bounds (a / pow2 (exponentOf a))) as [B _].
  assert (0 <= a / pow2 (exponentOf a)).
  { apply Qle_shift_div_l; [apply pow2_pos|]. lra. }
  pose proof (Qfloor_resp_le _ _ H) as F. change (Qfloor 0) with 0%Z in F. lia.
Qed.

Lemma roundPositive_le a b : 0 < a -> a <= b -> roundPositive a <= roundPositive b.
Proof.
  intros Ha H. assert (Hb : 0 < b) by lra. unfold roundPositive.
  pose proof (exponentOf_le a b Ha H) as He.
  destruct (Z.eq_dec (exponentOf a) (exponentOf b)) as [E|E].
  - rewrite E. now apply roundTo_le.
  - assert (Hlt : (exponentOf a < exponentOf b)%Z) by lia.
    assert (Hmin : (emin < exponentOf b)%Z) by (unfold exponentOf in *; lia).
    apply Qle_trans with (pow2 (exponentOf a + 53)).
    + rewrite <- (roundTo_pow2 (exponentOf a) (exponentOf a + 53)) by lia.
      apply roundTo_le, Qlt_le_weak, exponentOf_upper, Ha.
    + apply Qle_trans with (pow2 (exponentOf b + 52)); [apply pow2_le; lia|].
      rewrite <- (roundTo_pow2 (exponentOf b) (exponentOf b + 52)) by lia.
      apply roundTo_le, exponentOf_lower; assumption.
Qed.

Lemma roundPositive_comp a b : 0 < a -> a == b -> roundPositive a == roundPositive b.
Proof.
  intros Ha H. unfold roundPositive. rewrite (exponentOf_comp a b Ha H). now apply roundTo_comp.
Qed.

Lemma nearest_pos q : 0 < q -> nearest q = roundPositive q.
Proof. intros H. unfold nearest. destruct (Qcompare_spec q 0); [lra|lra|reflexivity]. Qed.

Lemma nearest_neg q : q < 0 -> nearest q = - roundPositive (- q).
Proof. intros H. unfold nearest. destruct (Qcompare_spec q 0); [lra|reflexivity|lra]. Qed.

Lemma nearest_zero q : q == 0 -> nearest q = 0.
Proof. intros H. unfold nearest. destruct (Qcompare_spec q 0); [reflexivity|lra|lra]. Qed.

Lemma nearest_nonneg q : 0 <= q -> 0 <= nearest q.
Proof.
  intros H. destruct (Qlt_le_dec 0 q) as [Hp|Hz].
  - rewrite nearest_pos by exact Hp. now apply roundPositive_nonneg.
  - rewrite nearest_zero by lra. lra.
Qed.

Lemma nearest_nonpos q : q <= 0 -> nearest q <= 0.
Proof.
  intros H. destruct (Qlt_le_dec q 0) as [Hn|Hz].
  - rewrite nearest_neg by exact Hn.
    assert (0 <= roundPositive (- q)) by (apply roundPositive_nonneg; lra). lra.
  - rewrite nearest_zero by lra. lra.
Qed.

Lemma nearest_comp a b : a == b -> nearest a == nearest b.
Proof.
  intros H. destruct (Q_dec a 0) as [[Hn|Hp]|Hz].
  - rewrite !nearest_neg by lra. apply Qopp_comp, roundPositive_comp; [lra|now rewrite H].
  - rewrite !nearest_pos by lra. now apply roundPositive_comp.
  - rewrite !nearest_zero by lra. reflexivity.
Qed.

Lemma nearest_opp q : nearest (- q) == - nearest q.
Proof.
  destruct (Q_dec q 0) as [[Hn|Hp]|Hz].
  - rewrite (nearest_neg q Hn), (nearest_pos (- q)) by lra. ring.
  - rewrite (nearest_pos q Hp), (nearest_neg (- q)) by lra.
    apply Qopp_comp, roundPositive_comp; [lra|ring].
  - rewrite (nearest_zero q Hz), (nearest_zero (- q)) by lra. reflexivity.
Qed.

(** Rounding keeps the order. *)
Theorem nearest_le a b : a <= b -> nearest a <= nearest b.
Proof.
  intros H. destruct (Qlt_le_dec 0 a) as [Ha|Ha].
  - rewrite !nearest_pos by lra. now apply roundPositive_le.
  - destruct (Qlt_le_dec b 0) as [Hb|Hb].
    + rewrite !nearest_neg by lra. apply Qopp_le_compat, roundPositive_le; lra.
    + apply Qle_trans with 0; [now apply nearest_nonpos|now apply nearest_nonneg].
Qed.

(** A multiple of a power of two with no more than 53 bits stays. *)
Lemma roundPositive_exact a k e :
  (0 < k < 2 ^ 53)%Z -> (emin <= e)%Z -> a == inject_Z k * pow2 e -> roundPositive a == a.
Proof.
  intros Hk He Ha. unfold roundPositive.
  assert (Hpos : 0 < a).
  { rewrite Ha. apply Qmult_lt_0_compat; [|apply pow2_pos].
    change 0 with (inject_Z 0). rewrite <- Zlt_Qlt. lia. }
  apply (roundTo_grid _ e k); [|exact Ha].
  assert (Hup : a < pow2 (e + 53)).
  { rewrite Ha, Z.add_comm, pow2_add. apply Qmult_lt_compat_r; [apply pow2_pos|].
    apply Zlt_Qlt_pow2; lia. }
  pose proof (ilog2_upper a (e + 53) Hpos Hup). unfold exponentOf. lia.
Qed.

Theorem nearest_exact q k e :
  (Z.abs k < 2 ^ 53)%Z -> (emin <= e)%Z -> q == inject_Z k * pow2 e -> nearest q == q.
Proof.
  intros Hk He Hq. pose proof (pow2_pos e) as Hp.
  destruct (Z_dec' k 0) as [[Hn|Hpos]|Hz].
  - assert (Hq0 : q < 0).
    { rewrite Hq. assert (inject_Z k < 0) by (change 0 with (inject_Z 0); rewrite <- Zlt_Qlt; lia).
      nra. }
    rewrite nearest_neg by exact Hq0.
    rewrite (roundPositive_exact (- q) (- k) e); [ring|lia|exact He|].
    rewrite Hq, inject_Z_opp. ring.
  - assert (Hq0 : 0 < q).
    { rewrite Hq. assert (0 < inject_Z k) by (change 0 with (inject_Z 0); rewrite <- Zlt_Qlt; lia).
      nra. }
    rewrite nearest_pos by exact Hq0. apply (roundPositive_exact q k e); [lia|exact He|exact Hq].
  - subst k. rewrite nearest_zero; rewrite Hq; ring.
Qed.

(** What rounding gives is a double: such a multiple. *)
Lemma roundPositive_double a :
  0 < a ->
  exists k e, (0 <= k < 2 ^ 53)%Z /\ (exponentOf a <= e)%Z /\ roundPositive a == inject_Z k * pow2 e.
Proof.
  intros Ha. unfold roundPositive, roundTo.
  set (e := exponentOf a). set (m := roundHalfEven (a / pow2 e)).
  assert (Hx : 0 <= a / pow2 e < inject_Z (2 ^ 53)).
  { split.
    - apply Qle_shift_div_l; [apply pow2_pos|]. lra.
    - apply Qlt_shift_div_r; [apply pow2_pos|]. rewrite <- pow2_Z, <- pow2_add by lia.
      rewrite Z.add_comm. now apply exponentOf_upper. }
  assert (Hm : (0 <= m <= 2 ^ 53)%Z).
  { subst m. split.
    - rewrite <- (roundHalfEven_Z 0). apply roundHalfEven_le, Hx.
    - rewrite <- (roundHalfEven_Z (2 ^ 53)). apply roundHalfEven_le, Qlt_le_weak, Hx. }
  destruct (Z.eq_dec m (2 ^ 53)%Z) as [E|E].
  - exists (2 ^ 52)%Z, (e + 1)%Z. split; [lia|]. split; [lia|].
    rewrite E, pow2_add. change (pow2 1) with 2.
    change (inject_Z (2 ^ 53)) with (inject_Z (2 ^ 52) * 2). ring.
  - exists m, e. split; [lia|]. split; [lia|reflexivity].
Qed.

Theorem nearest_idempotent q : nearest (nearest q) == nearest q.
Proof.
  destruct (Q_dec q 0) as [[Hn|Hp]|Hz].
  - rewrite (nearest_neg q Hn).
    destruct (roundPositive_double (- q)) as (k & e & Hk & He & E); [lra|].
    apply (nearest_exact _ (- k) e); [lia|unfold exponentOf in He; lia|].
    rewrite E, inject_Z_opp. ring.
  - rewrite (nearest_pos q Hp).
    destruct (roundPositive_double q Hp) as (k & e & Hk & He & E).
    apply (nearest_exact _ k e); [lia|unfold exponentOf in He; lia|exact E].
  - rewrite (nearest_zero q Hz). reflexivity.
Qed.

(** *** Numbers: doubles in lowest terms *)

Lemma fromQ_nearest q : fromQ q == nearest q.
Proof. apply Qred_correct. Qed.

Lemma fromQ_comp a b : a == b -> fromQ a = fromQ b.
Proof. intros H. apply Qred_complete. now apply nearest_comp. Qed.

(** Two Numbers that compare equal are the same. *)
Lemma fromQ_eq a b : fromQ a = a -> fromQ b = b -> a == b -> a = b.
Proof. intros Ha Hb H. rewrite <- Ha, <- Hb. now apply fromQ_comp. Qed.

(** Rounding keeps the order. *)
Theorem fromQ_le a b : a <= b -> fromQ a <= fromQ b.
Proof. intros H. rewrite !fromQ_nearest. now apply nearest_le. Qed.

(** A multiple of a power of two with no more than 53 bits is a
    double. *)
Theorem fromQ_exact q k e :
  (Z.abs k < 2 ^ 53)%Z -> (emin <= e)%Z -> q == inject_Z k * pow2 e -> fromQ q == q.
Proof. intros Hk He Hq. rewrite fromQ_nearest. exact (nearest_exact q k e Hk He Hq). Qed.

Theorem fromQ_idempotent q : fromQ (fromQ q) = fromQ q.
Proof.
  apply Qred_complete.
  rewrite (nearest_comp _ _ (fromQ_nearest q)). apply nearest_idempotent.
Qed.

Lemma fromQ_opp q : fromQ (- q) == - fromQ q.
Proof. rewrite !fromQ_nearest. apply nearest_opp. Qed.

(** A Number is a multiple of a power of two that is no less than the
    smallest double. *)
Lemma fromQ_form q : exists k e, (emin <= e)%Z /\ fromQ q == inject_Z k * pow2 e.
Proof.
  destruct (Q_dec q 0) as [[Hn|Hp]|Hz].
  - destruct (roundPositive_double (- q)) as (k & e & Hk & He & E); [lra|].
    exists (- k)%Z, e. split; [unfold exponentOf in He; lia|].
    rewrite fromQ_nearest, (nearest_neg q Hn), E, inject_Z_opp. ring.
  - destruct (roundPositive_double q Hp) as (k & e & Hk & He & E).
    exists k, e. split; [unfold exponentOf in He; lia|].
    now rewrite fromQ_nearest, (nearest_pos q Hp).
  - exists 0%Z, 0%Z. split; [unfold emin; lia|].
    rewrite fromQ_nearest, (nearest_zero q Hz). reflexivity.
Qed.

(** *** The error of rounding *)

Lemma roundHalfEven_near x :
  - (1 # 2) <= inject_Z (roundHalfEven x) - x <= 1 # 2.
Proof.
  unfold roundHalfEven.
  pose proof (Qfloor_le x) as Hl. pose proof (Qlt_floor x) as Hu.
  rewrite inject_Z_plus in Hu. change (inject_Z 1) with 1 in Hu.
  destruct (Qcompare_spec (x - inject_Z (Qfloor x)) (1 # 2)) as [E|L|G].
  - destruct (Z.even (Qfloor x)); [|rewrite inject_Z_plus; change (inject_Z 1) with 1]; lra.
  - lra.
  - rewrite inject_Z_plus. change (inject_Z 1) with 1. lra.
Qed.

Lemma roundTo_near e a :
  - (pow2 e / 2) <= roundTo e a - a <= pow2 e / 2.
Proof.
  unfold roundTo. pose proof (pow2_pos e) as Hp.
  pose proof (roundHalfEven_near (a / pow2 e)) as H.
  pose proof (scale_unscale a e) as Hs.
  set (r := inject_Z (roundHalfEven (a / pow2 e))) in *.
  set (x := a / pow2 e) in *. set (p := pow2 e) in *. clearbody r x p.
  destruct H as [H1 H2].
  assert (A1 : 0 <= (r - x + (1 # 2)) * p) by (apply Qmult_le_0_compat; lra).
  assert (A2 : 0 <= ((1 # 2) - (r - x)) * p) by (apply Qmult_le_0_compat; lra).
  assert (A3 : p / 2 == p * (1 # 2)) by reflexivity.
  split; lra.
Qed.

(** Below [2 ^ 43] the doubles are no more than [2 ^ (-10)] apart. *)
Lemma roundPositive_near a :
  0 < a -> a < pow2 43 -> - (1 # 2048) <= roundPositive a - a <= 1 # 2048.
Proof.
  intros Ha Hu. unfold roundPositive.
  pose proof (ilog2_upper a 43 Ha Hu) as Hl.
  assert (He : (exponentOf a <= -10)%Z) by (unfold exponentOf, emin; lia).
  pose proof (roundTo_near (exponentOf a) a) as H.
  pose proof (pow2_le _ _ He) as Hp. change (pow2 (-10)) with (1 # 1024) in Hp.
  pose proof (pow2_pos (exponentOf a)).
  assert (A : pow2 (exponentOf a) / 2 == pow2 (exponentOf a) * (1 # 2)) by reflexivity.
  lra.
Qed.

Theorem fromQ_near q :
  - pow2 43 < q -> q < pow2 43 -> - (1 # 2048) <= fromQ q - q <= 1 # 2048.
Proof.
  intros Hl Hu. rewrite fromQ_nearest. destruct (Q_dec q 0) as [[Hn|Hp]|Hz].
  - rewrite (nearest_neg q Hn).
    pose proof (roundPositive_near (- q)) as H. lra.
  - rewrite (nearest_pos q Hp). now apply roundPositive_near.
  - rewrite (nearest_zero q Hz). lra.
Qed.

(** *** Powers of ten *)

Lemma pow10_pos e : 0 < pow10 e.
Proof. apply Qpower_0_lt. reflexivity. Qed.

Lemma pow10_add a b : pow10 (a + b) == pow10 a * pow10 b.
Proof. apply Qpower_plus. discriminate. Qed.

Lemma pow10_Z e : (0 <= e)%Z -> pow10 e == inject_Z (10 ^ e).
Proof. intros H. unfold pow10. now rewrite (Zpower_Qpower 10 e H). Qed.

Lemma pow10_opp e : pow10 e * pow10 (- e) == 1.
Proof. rewrite <- pow10_add, Z.add_opp_diag_r. reflexivity. Qed.

Lemma pow10_sub a b : pow10 (a - b) == pow10 a / pow10 b.
Proof.
  unfold Z.sub. rewrite pow10_add. unfold pow10 at 2. rewrite Qpower_opp. reflexivity.
Qed.

Lemma pow2_pow10 e :
  (e <= 0)%Z -> pow2 e == inject_Z (5 ^ (- e)) * pow10 e.
Proof.
  intros He.
  assert (H5 : inject_Z (5 ^ (- e)) == (5 : Q) ^ (- e)) by (apply Zpower_Qpower; lia).
  assert (H10 : pow10 e == 2 ^ e * 5 ^ e).
  { unfold pow10. rewrite <- Qmult_power. apply Qpower_comp; reflexivity. }
  rewrite H5, H10. unfold pow2.
  assert (E : (5 : Q) ^ (- e) * 5 ^ e == 1).
  { rewrite <- Qpower_plus by discriminate. now rewrite Z.add_opp_diag_l. }
  rewrite <- (Qmult_1_r (2 ^ e)) at 1. rewrite <- E. ring.
Qed.

(** *** Decimals that can be written out *)

Lemma scaled_comp v v' : v == v' -> scaled v -> scaled v'.
Proof. intros E (S & H0 & H). exists S. split; [exact H0|]. now rewrite <- E. Qed.

Lemma scaled_units s z :
  (0 <= s)%Z -> (- Z.of_nat digitsLimit <= z)%Z -> scaled (inject_Z s * pow10 z).
Proof.
  intros Hs Hz. exists (s * 10 ^ (z + Z.of_nat digitsLimit))%Z. split.
  - apply Z.mul_nonneg_nonneg; [exact Hs|]. apply Z.pow_nonneg. lia.
  - rewrite inject_Z_mult, <- pow10_Z by lia.
    rewrite <- Qmult_assoc, <- pow10_add.
    now replace (z + Z.of_nat digitsLimit + - Z.of_nat digitsLimit)%Z with z by lia.
Qed.

Lemma scaled_num v : scaled v -> (0 <= Qnum v)%Z.
Proof.
  intros (S & H0 & H).
  assert (Hv : 0 <= v).
  { rewrite H. apply Qmult_le_0_compat; [|apply Qlt_le_weak, pow10_pos].
    change 0 with (inject_Z 0). now rewrite <- Zle_Qle. }
  unfold Qle in Hv. cbn in Hv. lia.
Qed.

Lemma scaled_finite v : scaled v -> finiteDecimal v.
Proof.
  intros Hs. pose proof (scaled_num v Hs) as Hn. destruct Hs as (S & H0 & H).
  unfold finiteDecimal. set (d := Z.pos (Qden v)). set (L := Z.of_nat digitsLimit) in *.
  rewrite Z.abs_eq by exact Hn.
  assert (E : (Qnum v * 10 ^ L = S * d)%Z).
  { assert (E' : v * pow10 L == inject_Z S).
    { rewrite H, <- Qmult_assoc, (Qmult_comm (pow10 (- L))), pow10_opp. ring. }
    rewrite pow10_Z in E' by (subst L; lia).
    unfold Qeq in E'. cbn [Qmult Qnum Qden inject_Z] in E'.
    rewrite Pos.mul_1_r in E'. fold d in E'. lia. }
  exists (S - Qnum v / d * 10 ^ L)%Z.
  pose proof (Z.div_mod (Qnum v) d ltac:(subst d; lia)). nia.
Qed.

(** A double can be written out. *)
Lemma scaled_double a : 0 < a -> fromQ a == a -> scaled a.
Proof.
  intros Ha Hd. destruct (fromQ_form a) as (k & e & He & E). rewrite Hd in E.
  pose proof (pow2_pos e) as Hp.
  assert (Hk : (0 <= k)%Z).
  { destruct (Z.lt_ge_cases k 0) as [Hk|Hk]; [|exact Hk]. exfalso.
    assert (inject_Z k < 0) by (change 0 with (inject_Z 0); rewrite <- Zlt_Qlt; lia).
    assert (0 < - inject_Z k * pow2 e) by (apply Qmult_lt_0_compat; lra). lra. }
  apply (scaled_comp (inject_Z k * pow2 e)); [now symmetry|].
  destruct (Z.le_gt_cases e 0) as [Hle|Hgt].
  - apply (scaled_comp (inject_Z (k * 5 ^ (- e)) * pow10 e)).
    { rewrite (pow2_pow10 e Hle), inject_Z_mult. ring. }
    apply scaled_units; [|unfold emin in He; unfold digitsLimit; lia].
    apply Z.mul_nonneg_nonneg; [exact Hk|]. apply Z.pow_nonneg. lia.
  - apply (scaled_comp (inject_Z (k * 2 ^ e) * pow10 0)).
    { rewrite pow2_Z, inject_Z_mult by lia. change (pow10 0) with 1. ring. }
    apply scaled_units; [|unfold digitsLimit; lia].
    apply Z.mul_nonneg_nonneg; [exact Hk|]. apply Z.pow_nonneg. lia.
Qed.

(** *** The shortest decimal *)

Lemma candidate_sound a n k v :
  candidate a n k = Some v ->
  (v = inject_Z (Qfloor (a / pow10 (n - k))) * pow10 (n - k)
   \/ v = inject_Z (Qfloor (a / pow10 (n - k)) + 1) * pow10 (n - k))
  /\ fromQ v == a.
Proof.
  unfold candidate. cbv zeta.
  set (unit := pow10 (n - k)). set (s := Qfloor (a / unit)).
  destruct (Qeq_bool (fromQ (inject_Z s * unit)) a) eqn:Elo;
    destruct (Qeq_bool (fromQ (inject_Z (s + 1) * unit)) a) eqn:Ehi;
    cbn [andb]; try discriminate;
    try apply Qeq_bool_iff in Elo; try apply Qeq_bool_iff in Ehi.
  - destruct (Qcompare _ _); [destruct (Z.even s)| |]; intros [= <-]; auto.
  - intros [= <-]; auto.
  - intros [= <-]; auto.
Qed.

Lemma shortestFrom_sound fuel a n : forall k v,
  shortestFrom fuel a n k = Some v -> 0 <= a ->
  exists s k', (0 <= s)%Z /\ (k <= k' < k + Z.of_nat fuel)%Z
               /\ v = inject_Z s * pow10 (n - k') /\ fromQ v == a.
Proof.
  induction fuel as [|fuel IH]; intros k v H Ha; [discriminate|].
  cbn [shortestFrom] in H. destruct (candidate a n k) as [c|] eqn:Ec.
  - injection H as <-. destruct (candidate_sound a n k c Ec) as [Hc Hr].
    assert (Hs : (0 <= Qfloor (a / pow10 (n - k)))%Z).
    { rewrite <- (Qfloor_Z 0). apply Qfloor_resp_le.
      apply Qle_shift_div_l; [apply pow10_pos|]. change (inject_Z 0) with 0. lra. }
    destruct Hc as [-> | ->]; eexists _, k; (split; [|split; [lia|split; [reflexivity|exact Hr]]]); lia.
  - destruct (IH _ _ H Ha) as (s & k' & Hs & Hk & Hv & Hr).
    exists s, k'. split; [exact Hs|]. split; [lia|]. split; [exact Hv|exact Hr].
Qed.

Lemma leadingZeros_lower fuel : forall a n, (n - Z.of_nat fuel <= leadingZeros fuel a n)%Z.
Proof.
  induction fuel as [|fuel IH]; intros a n; [cbn; lia|].
  cbn [leadingZeros]. destruct (Qle_bool 1 a); [lia|].
  specialize (IH (a * 10) (n - 1)%Z). lia.
Qed.

Lemma decimalExponent_lower a : (-400 <= decimalExponent a)%Z.
Proof.
  unfold decimalExponent. destruct (Qle_bool 1 a); [lia|].
  pose proof (leadingZeros_lower 400 (a * 10) 0). lia.
Qed.

(** What the search finds reads back as the number and can be written
    out, as it is and as the digits before an exponent. *)
Theorem shortest_sound a v n :
  shortest a = Some (v, n) -> 0 <= a ->
  fromQ v == a /\ scaled v /\ scaled (v / pow10 (n - 1)).
Proof.
  unfold shortest. cbv zeta. intros H Ha.
  destruct (shortestFrom searchLimit a (decimalExponent a) 1) as [v'|] eqn:E; [|discriminate].
  injection H as -> Hn.
  destruct (shortestFrom_sound _ _ _ _ _ E Ha) as (s & k & Hs & Hk & Hv & Hr).
  pose proof (decimalExponent_lower a) as Hl. unfold searchLimit in Hk.
  split; [exact Hr|]. subst v. split.
  - apply scaled_units; [exact Hs|]. unfold digitsLimit. lia.
  - apply (scaled_comp (inject_Z s * pow10 (decimalExponent a - k - (n - 1)))).
    + rewrite pow10_sub. unfold Qdiv. ring.
    + apply scaled_units; [exact Hs|]. unfold digitsLimit.
      destruct (Qle_bool _ _); lia.
Qed.
End NumberFacts.

(** ** Base64 *)

Module Base64Facts.
Import Base64.
Local Open Scope Z_scope.

Lemma goodIndex_all k : 0 <= k < 64 -> goodIndex k = true.
Proof.
  intros H.
  assert (Hall : forallb goodIndex (map Z.of_nat (seq 0 64)) = true) by (vm_compute; reflexivity).
  rewrite forallb_forall in Hall. apply Hall.
  apply in_map_iff. exists (Z.to_nat k). split; [lia|]. apply in_seq. lia.
Qed.

Lemma sextetOf_range t j : 0 <= sextetOf t j < 64.
Proof.
  unfold sextetOf. change 63 with (Z.ones 6). rewrite Z.land_ones by lia.
  apply Z.mod_pos_bound. lia.
Qed.

Lemma base64Char_spec t j :
  exists c, base64Char t j = [c] /\ indexOf c = Some (sextetOf t j) /\ plainChar c = true.
Proof.
  pose proof (goodIndex_all _ (sextetOf_range t j)) as H.
  unfold goodIndex in H. unfold base64Char. fold (sextetOf t j).
  destruct (charAt _map (sextetOf t j)) as [|c [|]]; try discriminate.
  exists c. split; [reflexivity|].
  destruct (indexOf c) as [k'|]; [|discriminate].
  apply andb_true_iff in H as [H1 H2]. apply Z.eqb_eq in H1. subst. auto.
Qed.

Lemma lor_shiftl_add a b n : 0 <= n -> 0 <= b < 2 ^ n -> Z.lor (Z.shiftl a n) b = a * 2 ^ n + b.
Proof.
  intros Hn Hb. rewrite <- Z.shiftl_mul_pow2 by lia.
  symmetry. apply Z.add_nocarry_lor. apply Z.bits_inj'. intros i Hi.
  rewrite Z.land_spec, Z.bits_0.
  destruct (Z.lt_ge_cases i n).
  - rewrite Z.shiftl_spec_low by lia. reflexivity.
  - destruct (Z.eq_dec b 0) as [->|Hb0]; [rewrite Z.bits_0; apply andb_false_r|].
    rewrite (Z.bits_above_log2 b i); [apply andb_false_r|lia|].
    apply Z.log2_lt_pow2; [lia|]. apply Z.lt_le_trans with (2 ^ n); [lia|].
    apply Z.pow_le_mono_r; lia.
Qed.

Lemma triplet_arith b1 b2 b3 :
  0 <= b1 < 256 -> 0 <= b2 < 256 -> 0 <= b3 < 256 ->
  triplet b1 b2 b3 = b1 * 65536 + b2 * 256 + b3.
Proof.
  intros H1 H2 H3. unfold triplet.
  assert (E : Z.lor (Z.shiftl b1 16) (Z.shiftl b2 8) = Z.shiftl (b1 * 256 + b2) 8).
  { rewrite !Z.shiftl_mul_pow2 by lia.
    rewrite <- (Z.shiftl_mul_pow2 b1 16) by lia.
    rewrite lor_shiftl_add by (change (2 ^ 16) with 65536; change (2 ^ 8) with 256; lia).
    change (2 ^ 16) with 65536; change (2 ^ 8) with 256; lia. }
  rewrite E, lor_shiftl_add by (change (2 ^ 8) with 256; lia).
  change (2 ^ 8) with 256; lia.
Qed.

Lemma sextetOf_arith t j : 0 <= j <= 3 -> sextetOf t j = (t / 2 ^ (6 * (3 - j))) mod 64.
Proof.
  intros. unfold sextetOf. change 63 with (Z.ones 6). rewrite Z.land_ones by lia.
  rewrite Z.shiftr_div_pow2 by lia. reflexivity.
Qed.

Lemma group3 b1 b2 b3 :
  0 <= b1 < 256 -> 0 <= b2 < 256 -> 0 <= b3 < 256 ->
  let t := triplet b1 b2 b3 in
  let u := group (sextetOf t 0) (sextetOf t 1) (sextetOf t 2) (sextetOf t 3) in
  u / 65536 = b1 /\ (u / 256) mod 256 = b2 /\ u mod 256 = b3.
Proof.
  intros H1 H2 H3 t u. subst u. unfold group.
  rewrite !sextetOf_arith by lia. subst t. rewrite triplet_arith by lia.
  change (2 ^ (6 * (3 - 0))) with 262144. change (2 ^ (6 * (3 - 1))) with 4096.
  change (2 ^ (6 * (3 - 2))) with 64. change (2 ^ (6 * (3 - 3))) with 1.
  Z.div_mod_to_equations. lia.
Qed.

Lemma group2 b1 b2 :
  0 <= b1 < 256 -> 0 <= b2 < 256 ->
  let t := triplet b1 b2 0 in
  let u := group (sextetOf t 0) (sextetOf t 1) (sextetOf t 2) 0 in
  u / 65536 = b1 /\ (u / 256) mod 256 = b2.
Proof.
  intros H1 H2 t u. subst u. unfold group.
  rewrite !sextetOf_arith by lia. subst t. rewrite triplet_arith by lia.
  change (2 ^ (6 * (3 - 0))) with 262144. change (2 ^ (6 * (3 - 1))) with 4096.
  change (2 ^ (6 * (3 - 2))) with 64.
  Z.div_mod_to_equations. lia.
Qed.

Lemma group1 b1 :
  0 <= b1 < 256 ->
  let t := triplet b1 0 0 in
  group (sextetOf t 0) (sextetOf t 1) 0 0 / 65536 = b1.
Proof.
  intros H1 t. unfold group.
  rewrite !sextetOf_arith by lia. subst t. rewrite triplet_arith by lia.
  change (2 ^ (6 * (3 - 0))) with 262144. change (2 ^ (6 * (3 - 1))) with 4096.
  Z.div_mod_to_equations. lia.
Qed.

Lemma list_ind3 {A} (P : list A -> Prop) :
  P [] -> (forall a, P [a]) -> (forall a b, P [a; b]) ->
  (forall a b c l, P l -> P (a :: b :: c :: l)) ->
  forall l, P l.
Proof.
  intros H0 H1 H2 H3.
  fix IH 1. intros [|a [|b [|c l]]].
  - exact H0.
  - apply H1.
  - apply H2.
  - apply H3, IH.
Qed.

(** The characters [stringify] emits are plain, never one more than a
    multiple of four, and decode to the bytes they came from. *)
Lemma base64Chars_spec bytes :
  exists sx,
    sextets (base64Chars bytes) = Some sx /\ bytesOf sx = bytes /\
    forallb plainChar (base64Chars bytes) = true /\
    (length (base64Chars bytes) mod 4 <> 1)%nat.
Proof.
  induction bytes as [|b1|b1 b2|b1 b2 b3 rest IH] using list_ind3.
  - exists []. repeat split; cbn; lia.
  - cbn [base64Chars].
    destruct (base64Char_spec (triplet (byteVal b1) 0 0) 0) as (c0 & -> & I0 & P0).
    destruct (base64Char_spec (triplet (byteVal b1) 0 0) 1) as (c1 & -> & I1 & P1).
    eexists. cbn [app sextets]. rewrite I0, I1. split; [reflexivity|].
    cbn [bytesOf forallb length]. rewrite P0, P1.
    pose proof (group1 _ (byteVal_range b1)) as G. cbn zeta in G. rewrite G, byteChr_byteVal.
    repeat split. cbn. lia.
  - cbn [base64Chars].
    destruct (base64Char_spec (triplet (byteVal b1) (byteVal b2) 0) 0) as (c0 & -> & I0 & P0).
    destruct (base64Char_spec (triplet (byteVal b1) (byteVal b2) 0) 1) as (c1 & -> & I1 & P1).
    destruct (base64Char_spec (triplet (byteVal b1) (byteVal b2) 0) 2) as (c2 & -> & I2 & P2).
    eexists. cbn [app sextets]. rewrite I0, I1, I2. split; [reflexivity|].
    cbn [bytesOf forallb length]. rewrite P0, P1, P2.
    pose proof (group2 _ _ (byteVal_range b1) (byteVal_range b2)) as [G1 G2].
    rewrite G1, G2, !byteChr_byteVal.
    repeat split. cbn. lia.
  - destruct IH as (sx & Hs & Hb & Hp & Hl).
    cbn [base64Chars].
    destruct (base64Char_spec (triplet (byteVal b1) (byteVal b2) (byteVal b3)) 0) as (c0 & -> & I0 & P0).
    destruct (base64Char_spec (triplet (byteVal b1) (byteVal b2) (byteVal b3)) 1) as (c1 & -> & I1 & P1).
    destruct (base64Char_spec (triplet (byteVal b1) (byteVal b2) (byteVal b3)) 2) as (c2 & -> & I2 & P2).
    destruct (base64Char_spec (triplet (byteVal b1) (byteVal b2) (byteVal b3)) 3) as (c3 & -> & I3 & P3).
    eexists. cbn [app sextets]. rewrite I0, I1, I2, I3, Hs. split; [reflexivity|].
    cbn [bytesOf forallb length]. rewrite P0, P1, P2, P3, Hp, Hb.
    pose proof (group3 _ _ _ (byteVal_range b1) (byteVal_range b2) (byteVal_range b3)) as (G1 & G2 & G3).
    rewrite G1, G2, G3, !byteChr_byteVal.
    repeat split.
    change (S (S (S (S (length (base64Chars rest)))))) with (4 + length (base64Chars rest))%nat.
    rewrite Nat.Div0.add_mod, Nat.Div0.mod_same, Nat.add_0_l, Nat.Div0.mod_mod.
    exact Hl.
Qed.

Lemma plainChar_not_eq c : plainChar c = true -> Ascii.eqb c "=" = false.
Proof.
  unfold plainChar. intros H. repeat (apply andb_true_iff in H as [H _]).
  now apply negb_true_iff in H.
Qed.

Lemma plainChar_not_ws c : plainChar c = true -> negb (isWhitespace c) = true.
Proof. unfold plainChar. intros H. now apply andb_true_iff in H as [_ H]. Qed.

Lemma dropTrailing_repeat n : dropTrailing "=" (repeat "="%char n) = [].
Proof. induction n as [|n IH]; [reflexivity|]. cbn [repeat dropTrailing]. now rewrite IH. Qed.

Lemma dropTrailing_plain l n :
  forallb plainChar l = true -> dropTrailing "=" (l ++ repeat "="%char n) = l.
Proof.
  induction l as [|a l IH]; intros H.
  - apply dropTrailing_repeat.
  - cbn [forallb] in H. apply andb_true_iff in H as [Ha Hl].
    cbn [app dropTrailing]. rewrite (IH Hl), (plainChar_not_eq _ Ha).
    now destruct l.
Qed.

Lemma unreplace_replace l :
  forallb plainChar l = true ->
  replaceAll "_" "/" (replaceAll "-" "+" (replaceAll "/" "_" (replaceAll "+" "-" l))) = l.
Proof.
  intros H. unfold replaceAll. rewrite !map_map.
  rewrite <- (map_id l) at 2. apply map_ext_in. intros c Hc.
  rewrite forallb_forall in H. specialize (H c Hc). revert H. clear.
  destruct c as [[] [] [] [] [] [] [] []]; vm_compute; congruence.
Qed.

Lemma filter_plain l :
  forallb plainChar l = true -> forall n,
  List.filter (fun c => negb (isWhitespace c)) (l ++ repeat "="%char n) = l ++ repeat "="%char n.
Proof.
  intros H n. apply forallb_filter_id. rewrite forallb_app. apply andb_true_iff. split.
  - rewrite forallb_forall in *. intros c Hc. apply plainChar_not_ws; auto.
  - rewrite forallb_forall. intros c Hc. apply repeat_spec in Hc. now subst.
Qed.

Lemma dropPadding_plain l n :
  forallb plainChar l = true -> (n <= 2)%nat -> (n = 1%nat -> l <> []) ->
  dropPadding (l ++ repeat "="%char n) = l.
Proof.
  intros H Hn Hne. unfold dropPadding.
  assert (Hlast : forall a r, rev l = a :: r -> Ascii.eqb a "=" = false).
  { intros a r E. apply plainChar_not_eq. rewrite forallb_forall in H. apply H.
    apply in_rev. rewrite E. now left. }
  destruct n as [|[|[|n]]]; [| | |lia]; cbn [repeat].
  - rewrite app_nil_r. destruct (rev l) as [|a [|b r]] eqn:E; auto.
    now rewrite (Hlast _ _ eq_refl).
  - rewrite rev_app_distr. cbn [rev app].
    destruct (rev l) as [|b r] eqn:E.
    + destruct l; [now elim Hne|]. apply (f_equal (@length _)) in E.
      rewrite length_rev in E. discriminate.
    + rewrite (Hlast _ _ eq_refl). change (rev (b :: r) = l).
      rewrite <- E. apply rev_involutive.
  - rewrite rev_app_distr. cbn [repeat rev app]. change (rev (rev l) = l).
    apply rev_involutive.
Qed.

Lemma atob_padded l n sx :
  forallb plainChar l = true -> sextets l = Some sx ->
  (length l mod 4 <> 1)%nat -> n = ((4 - length l mod 4) mod 4)%nat ->
  atob (implode (l ++ repeat "="%char n)) = Some (bytesOf sx).
Proof.
  intros Hp Hs Hl Hn. unfold atob.
  rewrite explode_implode, filter_plain by assumption.
  pose proof (Nat.mod_upper_bound (length l) 4 ltac:(lia)) as Hm.
  assert (Hlen : (length (l ++ repeat "="%char n) mod 4 = 0)%nat).
  { rewrite length_app, repeat_length, Hn, <- Nat.Div0.add_mod_idemp_l.
    destruct (length l mod 4)%nat as [|[|[|[|k]]]]; try lia; reflexivity. }
  rewrite Hlen. cbn [Nat.eqb].
  rewrite dropPadding_plain; auto.
  - destruct (length l mod 4 =? 1)%nat eqn:E; [apply Nat.eqb_eq in E; lia|].
    rewrite Hs. reflexivity.
  - subst n. destruct (length l mod 4)%nat as [|[|[|[|k]]]]; cbn; lia.
  - intros -> ->. cbn in Hn. discriminate.
Qed.

(** With its padding restored, what [base64url] wrote is read by
    [atob] as the bytes it was written from. *)
Lemma atob_base64url bytes :
  exists output,
    JwtDecode.padded (replaceAll "_" "/" (replaceAll "-" "+" (explode (base64url bytes))))
    = Some output
    /\ atob (implode output) = Some bytes.
Proof.
  destruct (base64Chars_spec bytes) as (sx & Hs & Hb & Hp & Hl).
  unfold base64url, stringify, JwtDecode.padded.
  rewrite !explode_implode, dropTrailing_plain, unreplace_replace by assumption.
  pose proof (Nat.mod_upper_bound (length (base64Chars bytes)) 4 ltac:(lia)) as Hm.
  destruct (length (base64Chars bytes) mod 4)%nat as [|[|[|[|k]]]] eqn:E; try lia.
  - eexists. split; [reflexivity|].
    rewrite <- (app_nil_r (base64Chars bytes)) at 1.
    change [] with (repeat "="%char 0).
    rewrite (atob_padded _ 0 sx); auto; try (now rewrite Hb); now rewrite E.
  - eexists. split; [reflexivity|].
    change (explode "==") with (repeat "="%char 2).
    rewrite (atob_padded _ 2 sx); auto; try (now rewrite Hb); now rewrite E.
  - eexists. split; [reflexivity|].
    change (explode "=") with (repeat "="%char 1).
    rewrite (atob_padded _ 1 sx); auto; try (now rewrite Hb); now rewrite E.
Qed.

(** jwt-decode undoes the plugin's [base64url]: it gives the text the
    bytes are the UTF-8 form of, and for bytes that are not such a
    form, one character for each byte. *)
Theorem base64_url_decode_base64url bytes :
  JwtDecode.base64_url_decode (base64url bytes)
  = Some (if Utf8.wellFormed bytes then implode bytes else JwtDecode.binaryString bytes).
Proof.
  destruct (atob_base64url bytes) as (output & Hpad & Hatob).
  unfold JwtDecode.base64_url_decode. cbv zeta. rewrite Hpad.
  unfold JwtDecode.b64DecodeUnicode. rewrite Hatob.
  now destruct (Utf8.wellFormed bytes).
Qed.

(** No dot in the output of [base64url]. *)
Lemma base64url_chars bytes : forallb notDot (explode (base64url bytes)) = true.
Proof.
  destruct (base64Chars_spec bytes) as (sx & Hs & Hb & Hp & Hl).
  unfold base64url, stringify.
  rewrite !explode_implode, dropTrailing_plain by assumption.
  unfold replaceAll. rewrite map_map. rewrite forallb_forall in *.
  intros c Hc. apply in_map_iff in Hc as (c0 & <- & Hc0).
  specialize (Hp _ Hc0). revert Hp. clear.
  destruct c0 as [[] [] [] [] [] [] [] []]; vm_compute; congruence.
Qed.
End Base64Facts.

(** ** JSON *)

Module JSONFacts.
Import Number JSON NumberFacts.
Local Open Scope Z_scope.

(** *** String literals *)

Lemma quoteChar_raw c : 128 <= byteVal c -> quoteChar c = [c].
Proof.
  destruct c as [[] [] [] [] [] [] [] []]; intros H; try reflexivity;
    exfalso; vm_compute in H; now apply H.
Qed.

Lemma quoteChar_ascii c : byteVal c < 128 -> forallb asciiByte (quoteChar c) = true.
Proof.
  destruct c as [[] [] [] [] [] [] [] []]; intros H; try reflexivity;
    exfalso; vm_compute in H; discriminate.
Qed.

Lemma hexChar_ascii k : asciiByte (hexChar k) = true.
Proof.
  unfold hexChar.
  destruct (Z.to_nat k) as [|[|[|[|[|[|[|[|[|[|[|[|[|[|[|[|[|n]]]]]]]]]]]]]]]]];
    try reflexivity; now destruct n.
Qed.

Lemma escapeUnit_ascii cu : forallb asciiByte (escapeUnit cu) = true.
Proof. unfold escapeUnit. cbn [forallb]. now rewrite !hexChar_ascii. Qed.

Lemma hexVal_hexChar k : 0 <= k < 16 -> hexVal (hexChar k) = Some k.
Proof.
  intros H.
  assert (E : k = 0 \/ k = 1 \/ k = 2 \/ k = 3 \/ k = 4 \/ k = 5 \/ k = 6 \/ k = 7 \/ k = 8
              \/ k = 9 \/ k = 10 \/ k = 11 \/ k = 12 \/ k = 13 \/ k = 14 \/ k = 15) by lia.
  repeat (destruct E as [->|E]; [reflexivity|]). now subst.
Qed.

Lemma hex4_escapeUnit cu :
  0 <= cu < 65536 ->
  hex4 (hexChar (cu / 4096)) (hexChar ((cu / 256) mod 16)) (hexChar ((cu / 16) mod 16))
    (hexChar (cu mod 16)) = Some cu.
Proof.
  intros H. unfold hex4.
  rewrite !hexVal_hexChar;
    try (apply Z.mod_pos_bound; lia);
    try (split; [apply Z.div_pos; lia|apply Z.div_lt_upper_bound; lia]).
  f_equal.
  replace (cu / 4096) with (cu / 256 / 16) by (rewrite Z.div_div by lia; reflexivity).
  replace (cu / 256) with (cu / 16 / 16) by (rewrite Z.div_div by lia; reflexivity).
  pose proof (Z.div_mod cu 16 ltac:(lia)).
  pose proof (Z.div_mod (cu / 16) 16 ltac:(lia)).
  pose proof (Z.div_mod (cu / 16 / 16) 16 ltac:(lia)).
  lia.
Qed.

(** What one character of the string gives is read as that character. *)
Lemma parseChars_quoteChar c tail pending :
  parseChars (quoteChar c ++ tail) pending =
  match parseChars tail None with
  | Some (s, rest) => Some (lone pending ++ c :: s, rest)
  | None => None
  end.
Proof.
  destruct c as [[] [] [] [] [] [] [] []]; reflexivity.
Qed.

Lemma parseChars_raw c : forall tail pending,
  Forall (fun b => 128 <= byteVal b) c ->
  parseChars (c ++ tail) pending =
  match c with
  | [] => parseChars tail pending
  | _ :: _ =>
      match parseChars tail None with
      | Some (s, rest) => Some (lone pending ++ c ++ s, rest)
      | None => None
      end
  end.
Proof.
  induction c as [|b c IH]; intros tail pending Hc; [reflexivity|].
  inversion Hc as [|? ? Hb Hc']; subst.
  change (parseChars ((b :: c) ++ tail) pending)
    with (parseChars ([b] ++ c ++ tail) pending).
  rewrite <- (quoteChar_raw b Hb) at 1.
  rewrite parseChars_quoteChar, (IH tail None Hc').
  destruct c as [|b' c]; [reflexivity|].
  destruct (parseChars tail None) as [[s rest]|]; reflexivity.
Qed.

(** The escape of a surrogate is read as that code unit. *)
Lemma parseChars_escapeUnit cu tail pending :
  55296 <= cu <= 57343 ->
  parseChars (escapeUnit cu ++ tail) pending =
  if cu <=? 56319 then
    match parseChars tail (Some cu) with
    | Some (s, rest) => Some (lone pending ++ s, rest)
    | None => None
    end
  else
    match parseChars tail None with
    | Some (s, rest) =>
        match pending with
        | Some hi => Some (Utf8.encode (65536 + (hi - 55296) * 1024 + (cu - 56320)) ++ s, rest)
        | None => Some (Utf8.encode cu ++ s, rest)
        end
    | None => None
    end.
Proof.
  intros H. unfold escapeUnit. cbn [app parseChars].
  change (Ascii.eqb backslash backslash) with true.
  change (Ascii.eqb "u" "u") with true. cbv iota.
  rewrite hex4_escapeUnit by lia.
  assert (E1 : (55296 <=? cu) = true) by (apply Z.leb_le; lia).
  assert (E2 : (cu <=? 57343) = true) by (apply Z.leb_le; lia).
  rewrite E1. cbn [andb]. destruct (cu <=? 56319) eqn:E3; [reflexivity|].
  apply Z.leb_gt in E3.
  assert (E4 : (56320 <=? cu) = true) by (apply Z.leb_le; lia).
  rewrite E4, E2. reflexivity.
Qed.

(** *** The form of a string *)

Lemma continuation_range b : Utf8.continuation b = true -> 128 <= byteVal b <= 191.
Proof. unfold Utf8.continuation. intros H. apply andb_true_iff in H as [H1 H2]. lia. Qed.

Lemma quoteChars_cons b0 r0 :
  byteVal b0 <> 237 -> quoteChars (b0 :: r0) = quoteChar b0 ++ quoteChars r0.
Proof.
  intros H. destruct r0 as [|b1 [|b2 r2]]; try reflexivity.
  cbn [quoteChars]. unfold Utf8.surrogate.
  destruct (Z.eqb_spec (byteVal b0) 237) as [E|_]; [contradiction|reflexivity].
Qed.

Lemma quoteChars_low b0 b1 r1 :
  byteVal b1 < 160 -> quoteChars (b0 :: b1 :: r1) = quoteChar b0 ++ quoteChars (b1 :: r1).
Proof.
  intros H. destruct r1 as [|b2 r2]; try reflexivity.
  cbn [quoteChars]. unfold Utf8.surrogate.
  destruct (Z.leb_spec 160 (byteVal b1)) as [E|_]; [lia|].
  now rewrite andb_false_r.
Qed.

Lemma surrogate_spec b0 b1 b2 cu :
  Utf8.surrogate b0 b1 b2 = Some cu ->
  55296 <= cu <= 57343 /\ Utf8.encode cu = [b0; b1; b2]
  /\ (cu <= 56319 <-> byteVal b1 <= 175).
Proof.
  unfold Utf8.surrogate. intros H.
  destruct (Z.eqb_spec (byteVal b0) 237) as [E0|]; [|discriminate].
  destruct (Z.leb_spec 160 (byteVal b1)) as [L1|]; [|discriminate].
  destruct (Z.leb_spec (byteVal b1) 191) as [U1|]; [|discriminate].
  destruct (Utf8.continuation b2) eqn:C2; [|discriminate].
  apply continuation_range in C2. cbn [andb] in H. injection H as <-.
  split; [lia|]. split; [|lia].
  unfold Utf8.encode.
  destruct (Z.ltb_spec (55296 + (byteVal b1 - 160) * 64 + (byteVal b2 - 128)) 128); [lia|].
  destruct (Z.ltb_spec (55296 + (byteVal b1 - 160) * 64 + (byteVal b2 - 128)) 2048); [lia|].
  destruct (Z.ltb_spec (55296 + (byteVal b1 - 160) * 64 + (byteVal b2 - 128)) 65536); [|lia].
  set (cu := 55296 + (byteVal b1 - 160) * 64 + (byteVal b2 - 128)).
  assert (A : cu / 4096 = 13) by (subst cu; Z.div_mod_to_equations; lia).
  assert (B : cu / 64 = 864 + (byteVal b1 - 160)) by (subst cu; Z.div_mod_to_equations; lia).
  assert (C : cu mod 64 = byteVal b2 - 128) by (subst cu; Z.div_mod_to_equations; lia).
  assert (D : (864 + (byteVal b1 - 160)) mod 64 = byteVal b1 - 128)
    by (Z.div_mod_to_equations; lia).
  rewrite A, B, C, D.
  replace (224 + 13) with (byteVal b0) by lia.
  replace (128 + (byteVal b1 - 128)) with (byteVal b1) by lia.
  replace (128 + (byteVal b2 - 128)) with (byteVal b2) by lia.
  now rewrite !byteChr_byteVal.
Qed.

Lemma quoteChars_surrogate b0 b1 b2 r2 cu :
  Utf8.surrogate b0 b1 b2 = Some cu ->
  quoteChars (b0 :: b1 :: b2 :: r2) = escapeUnit cu ++ quoteChars r2.
Proof. intros H. cbn [quoteChars]. now rewrite H. Qed.

Lemma wellFormed_ascii_app x t :
  forallb asciiByte x = true -> Utf8.wellFormed (x ++ t) = Utf8.wellFormed t.
Proof.
  induction x as [|c x IH]; intros H; [reflexivity|].
  cbn [forallb] in H. apply andb_true_iff in H as [Hc Hx].
  cbn [app Utf8.wellFormed]. unfold asciiByte in Hc. now rewrite Hc, IH.
Qed.

Lemma rawChar2 b0 b1 :
  (194 <=? byteVal b0) && (byteVal b0 <=? 223) = true -> Utf8.continuation b1 = true ->
  rawChar [b0; b1].
Proof.
  intros H0 H1. pose proof (continuation_range b1 H1) as R1.
  apply andb_true_iff in H0 as [L0 U0]. apply Z.leb_le in L0, U0.
  split; [discriminate|]. split; [repeat constructor; lia|]. split; intros t.
  - cbn [app]. rewrite (quoteChars_cons b0), (quoteChars_cons b1) by lia.
    now rewrite !quoteChar_raw by lia.
  - cbn [app Utf8.wellFormed].
    destruct (Z.ltb_spec (byteVal b0) 128); [lia|].
    destruct (Z.leb_spec 194 (byteVal b0)); [|lia].
    destruct (Z.leb_spec (byteVal b0) 223); [|lia]. cbn [andb]. now rewrite H1.
Qed.

Lemma rawChar3 b0 b1 b2 :
  (224 <=? byteVal b0) && (byteVal b0 <=? 239) = true ->
  (if byteVal b0 =? 224 then 160 <=? byteVal b1 else 128 <=? byteVal b1) = true ->
  (if byteVal b0 =? 237 then byteVal b1 <=? 159 else byteVal b1 <=? 191) = true ->
  Utf8.continuation b2 = true ->
  rawChar [b0; b1; b2].
Proof.
  intros H0 L1 U1 H2. pose proof (continuation_range b2 H2) as R2.
  apply andb_true_iff in H0 as [L0 U0]. apply Z.leb_le in L0, U0.
  assert (R1 : 128 <= byteVal b1 <= 191).
  { destruct (byteVal b0 =? 224), (byteVal b0 =? 237);
      apply Z.leb_le in L1, U1; lia. }
  split; [discriminate|]. split; [repeat constructor; lia|]. split; intros t.
  - cbn [app].
    assert (E : quoteChars (b0 :: b1 :: b2 :: t) = quoteChar b0 ++ quoteChars (b1 :: b2 :: t)).
    { destruct (Z.eqb_spec (byteVal b0) 237) as [E|E].
      - apply Z.leb_le in U1. apply quoteChars_low. lia.
      - now apply quoteChars_cons. }
    rewrite E, (quoteChars_cons b1), (quoteChars_cons b2) by lia.
    now rewrite !quoteChar_raw by lia.
  - cbn [app Utf8.wellFormed].
    destruct (Z.ltb_spec (byteVal b0) 128); [lia|].
    destruct (Z.leb_spec 194 (byteVal b0)); [|lia].
    destruct (Z.leb_spec (byteVal b0) 223); [lia|].
    destruct (Z.leb_spec 224 (byteVal b0)); [|lia].
    destruct (Z.leb_spec (byteVal b0) 239); [|lia]. cbn [andb].
    now rewrite L1, U1, H2.
Qed.

Lemma rawChar4 b0 b1 b2 b3 :
  (224 <=? byteVal b0) && (byteVal b0 <=? 239) = false ->
  (194 <=? byteVal b0) && (byteVal b0 <=? 223) = false ->
  (240 <=? byteVal b0) && (byteVal b0 <=? 244) = true ->
  (if byteVal b0 =? 240 then 144 <=? byteVal b1 else 128 <=? byteVal b1) = true ->
  (if byteVal b0 =? 244 then byteVal b1 <=? 143 else byteVal b1 <=? 191) = true ->
  Utf8.continuation b2 = true -> Utf8.continuation b3 = true ->
  rawChar [b0; b1; b2; b3].
Proof.
  intros N3 N2 H0 L1 U1 H2 H3.
  pose proof (continuation_range b2 H2) as R2. pose proof (continuation_range b3 H3) as R3.
  apply andb_true_iff in H0 as [L0 U0]. apply Z.leb_le in L0, U0.
  assert (R1 : 128 <= byteVal b1 <= 191).
  { destruct (byteVal b0 =? 240), (byteVal b0 =? 244);
      apply Z.leb_le in L1, U1; lia. }
  split; [discriminate|]. split; [repeat constructor; lia|]. split; intros t.
  - cbn [app].
    rewrite (quoteChars_cons b0), (quoteChars_cons b1), (quoteChars_cons b2),
      (quoteChars_cons b3) by lia.
    now rewrite !quoteChar_raw by lia.
  - cbn [app Utf8.wellFormed]. rewrite N2, N3.
    destruct (Z.ltb_spec (byteVal b0) 128); [lia|].
    destruct (Z.leb_spec 240 (byteVal b0)); [|lia].
    destruct (Z.leb_spec (byteVal b0) 244); [|lia]. cbn [andb].
    now rewrite L1, U1, H2, H3.
Qed.

(** The first character of a string, by its form. *)
Lemma ofCodeUnitsFrom_cases h l :
  Utf8.ofCodeUnitsFrom h l = true ->
  l = []
  \/ (exists b r, l = b :: r /\ byteVal b < 128 /\ Utf8.ofCodeUnitsFrom false r = true)
  \/ (exists c r, l = c ++ r /\ rawChar c /\ Utf8.ofCodeUnitsFrom false r = true)
  \/ (exists b0 b1 b2 r cu,
        l = b0 :: b1 :: b2 :: r /\ Utf8.surrogate b0 b1 b2 = Some cu
        /\ ((cu <= 56319 /\ Utf8.ofCodeUnitsFrom true r = true)
            \/ (56319 < cu /\ h = false /\ Utf8.ofCodeUnitsFrom false r = true))).
Proof.
  intros H. destruct l as [|b0 r0]; [now left|]. right.
  cbn [Utf8.ofCodeUnitsFrom] in H.
  destruct (Z.ltb_spec (byteVal b0) 128) as [A|A].
  { left. exists b0, r0. auto. }
  right. destruct r0 as [|b1 r1]; [discriminate|]. cbv beta iota zeta in H.
  destruct ((194 <=? byteVal b0) && (byteVal b0 <=? 223)) eqn:E2.
  { left. apply andb_true_iff in H as [H1 H]. exists [b0; b1], r1.
    split; [reflexivity|]. split; [now apply rawChar2|exact H]. }
  destruct r1 as [|b2 r2]; [discriminate|]. cbv beta iota zeta in H.
  destruct ((224 <=? byteVal b0) && (byteVal b0 <=? 239)) eqn:E3.
  - apply andb_true_iff in H as [H Hr]. apply andb_true_iff in H as [H Hh].
    apply andb_true_iff in H as [H H2]. apply andb_true_iff in H as [L1 U1].
    destruct ((byteVal b0 =? 237) && (160 <=? byteVal b1)) eqn:Es.
    + right. apply andb_true_iff in Es as [E0 E1].
      assert (Hs : Utf8.surrogate b0 b1 b2
                   = Some (55296 + (byteVal b1 - 160) * 64 + (byteVal b2 - 128))).
      { unfold Utf8.surrogate. now rewrite E0, E1, U1, H2. }
      exists b0, b1, b2, r2, (55296 + (byteVal b1 - 160) * 64 + (byteVal b2 - 128)).
      split; [reflexivity|]. split; [exact Hs|].
      destruct (surrogate_spec _ _ _ _ Hs) as (_ & _ & Hc).
      rewrite E0 in Hh. cbn [andb] in Hr. rewrite andb_true_r in Hh.
      destruct (Z.leb_spec (byteVal b1) 175) as [B|B].
      * left. split; [now apply Hc|exact Hr].
      * right. split; [lia|].
        destruct (Z.leb_spec 176 (byteVal b1)); [|lia].
        rewrite andb_true_r in Hh. apply negb_true_iff in Hh. auto.
    + left. exists [b0; b1; b2], r2. split; [reflexivity|]. split.
      * apply rawChar3; auto.
        destruct (byteVal b0 =? 237); [|exact U1]. cbn [andb] in Es.
        apply Z.leb_gt in Es. apply Z.leb_le. lia.
      * exact Hr.
  - left. destruct r2 as [|b3 r3]; [discriminate|]. cbv beta iota zeta in H.
    apply andb_true_iff in H as [H Hr]. apply andb_true_iff in H as [H H3].
    apply andb_true_iff in H as [H H2]. apply andb_true_iff in H as [H U1].
    apply andb_true_iff in H as [H0 L1].
    exists [b0; b1; b2; b3], r3. split; [reflexivity|]. split; [|exact Hr].
    now apply rawChar4.
Qed.

Lemma rawChar_length c r : rawChar c -> (length r < length (c ++ r))%nat.
Proof.
  intros (Hne & _). rewrite length_app. destruct c; [contradiction|cbn; lia].
Qed.

(** A quoted string reads back as the string. *)
Lemma parseChars_quoteChars_bounded n : forall l pending rest,
  (length l <= n)%nat ->
  Utf8.ofCodeUnitsFrom (hasPending pending) l = true ->
  parseChars (quoteChars l ++ dquote :: rest) pending = Some (lone pending ++ l, rest).
Proof.
  induction n as [|n IH]; intros l pending rest Hn Hl.
  { destruct l; [|cbn in Hn; lia]. cbn [quoteChars app parseChars].
    change (Ascii.eqb dquote backslash) with false.
    change (Ascii.eqb dquote dquote) with true. cbv iota. now rewrite app_nil_r. }
  destruct (ofCodeUnitsFrom_cases _ _ Hl)
    as [->|[(b & r & -> & Hb & Hr)|[(c & r & -> & Hc & Hr)
        |(b0 & b1 & b2 & r & cu & -> & Hs & Hcase)]]].
  - cbn [quoteChars app parseChars].
    change (Ascii.eqb dquote backslash) with false.
    change (Ascii.eqb dquote dquote) with true. cbv iota. now rewrite app_nil_r.
  - rewrite quoteChars_cons by lia. rewrite <- app_assoc, parseChars_quoteChar.
    rewrite (IH r None rest); [reflexivity|cbn in Hn; lia|exact Hr].
  - pose proof (rawChar_length c r Hc) as Hlen.
    destruct Hc as (Hne & Hraw & Hq & _).
    rewrite Hq, <- app_assoc, (parseChars_raw c _ pending Hraw).
    destruct c as [|b c]; [contradiction|].
    rewrite (IH r None rest); [|lia|exact Hr].
    reflexivity.
  - destruct (surrogate_spec _ _ _ _ Hs) as (Hrange & Henc & _).
    rewrite (quoteChars_surrogate _ _ _ _ _ Hs), <- app_assoc.
    rewrite (parseChars_escapeUnit cu _ pending Hrange).
    destruct Hcase as [(Hhi & Hr)|(Hlo & Hh & Hr)].
    + destruct (Z.leb_spec cu 56319); [|lia].
      rewrite (IH r (Some cu) rest); [|cbn in Hn; lia|exact Hr].
      cbn [lone]. now rewrite Henc.
    + destruct (Z.leb_spec cu 56319); [lia|].
      rewrite (IH r None rest); [|cbn in Hn; lia|exact Hr].
      destruct pending; [discriminate|]. cbn [lone app]. now rewrite Henc.
Qed.

Lemma parseChars_quote s rest :
  Utf8.ofCodeUnits s = true ->
  parseChars (quoteChars s ++ dquote :: rest) None = Some (s, rest).
Proof. intros H. now apply (parseChars_quoteChars_bounded (length s)). Qed.

(** A quoted string is UTF-8: no surrogate is left in it. *)
Lemma wellFormed_quoteChars_bounded n : forall l h t,
  (length l <= n)%nat ->
  Utf8.ofCodeUnitsFrom h l = true ->
  Utf8.wellFormed (quoteChars l ++ t) = Utf8.wellFormed t.
Proof.
  induction n as [|n IH]; intros l h t Hn Hl.
  { destruct l; [reflexivity|cbn in Hn; lia]. }
  destruct (ofCodeUnitsFrom_cases _ _ Hl)
    as [->|[(b & r & -> & Hb & Hr)|[(c & r & -> & Hc & Hr)
        |(b0 & b1 & b2 & r & cu & -> & Hs & Hcase)]]].
  - reflexivity.
  - rewrite quoteChars_cons by lia.
    rewrite <- app_assoc, wellFormed_ascii_app by now apply quoteChar_ascii.
    apply (IH r false); [cbn in Hn; lia|exact Hr].
  - pose proof (rawChar_length c r Hc) as Hlen.
    destruct Hc as (Hne & Hraw & Hq & Hw).
    rewrite Hq, <- app_assoc, Hw. apply (IH r false); [lia|exact Hr].
  - rewrite (quoteChars_surrogate _ _ _ _ _ Hs), <- app_assoc.
    rewrite wellFormed_ascii_app by apply escapeUnit_ascii.
    destruct Hcase as [(_ & Hr)|(_ & _ & Hr)];
      [apply (IH r true)|apply (IH r false)]; try exact Hr; cbn in Hn; lia.
Qed.

Lemma wellFormed_quote s t :
  Utf8.ofCodeUnits s = true ->
  Utf8.wellFormed (quote s ++ t) = Utf8.wellFormed t.
Proof.
  intros H. unfold quote. cbn [app Utf8.wellFormed].
  change (byteVal dquote <? 128) with true. cbv iota.
  rewrite <- app_assoc, (wellFormed_quoteChars_bounded (length s) s false) by auto.
  reflexivity.
Qed.

(** *** Decimal digits *)

Lemma digitChar_val d : 0 <= d <= 9 -> byteVal (digitChar d) = 48 + d.
Proof. intros H. unfold digitChar. apply byteVal_byteChr. lia. Qed.

Lemma digitChar_isDigit d : 0 <= d <= 9 -> isDigit (digitChar d) = true.
Proof.
  intros H. unfold isDigit. rewrite digitChar_val by lia.
  apply andb_true_iff. split; apply Z.leb_le; lia.
Qed.

Lemma digitsFrom_cons a c ds : digitsFrom a (c :: ds) = digitsFrom (a * 10 + (byteVal c - 48)) ds.
Proof. reflexivity. Qed.

Lemma digitsFrom_shift ds : forall a,
  digitsFrom a ds = a * 10 ^ Z.of_nat (length ds) + digitsFrom 0 ds.
Proof.
  induction ds as [|c ds IH]; intros a.
  - cbn. lia.
  - rewrite !digitsFrom_cons, (IH (a * 10 + _)), (IH (0 * 10 + _)).
    cbn [length]. rewrite Nat2Z.inj_succ, Z.pow_succ_r by lia. ring.
Qed.

Lemma digitsVal_app l1 l2 :
  digitsVal (l1 ++ l2) = digitsVal l1 * 10 ^ Z.of_nat (length l2) + digitsVal l2.
Proof.
  unfold digitsVal. rewrite fold_left_app.
  apply (digitsFrom_shift l2 (digitsFrom 0 l1)).
Qed.

Lemma showDigits_val fuel : forall n acc,
  0 <= n < 2 ^ Z.of_nat fuel ->
  digitsFrom 0 (showDigits fuel n acc) = digitsFrom n acc.
Proof.
  induction fuel as [|fuel IH]; intros n acc Hn.
  - cbn in Hn. assert (n = 0) by lia. subst. reflexivity.
  - rewrite Nat2Z.inj_succ, Z.pow_succ_r in Hn by lia.
    cbn [showDigits].
    assert (Hd : 0 <= n mod 10 <= 9) by (pose proof (Z.mod_pos_bound n 10); lia).
    destruct (n / 10 =? 0) eqn:E.
    + apply Z.eqb_eq in E. rewrite digitsFrom_cons, digitChar_val by lia.
      f_equal. pose proof (Z.div_mod n 10). lia.
    + apply Z.eqb_neq in E. rewrite IH.
      * rewrite digitsFrom_cons, digitChar_val by lia.
        f_equal. pose proof (Z.div_mod n 10). lia.
      * split; [apply Z.div_pos; lia|].
        apply Z.div_lt_upper_bound; lia.
Qed.

Lemma showDigits_digits fuel : forall n acc,
  forallb isDigit acc = true -> forallb isDigit (showDigits fuel n acc) = true.
Proof.
  induction fuel as [|fuel IH]; intros n acc Hacc; [exact Hacc|].
  cbn [showDigits].
  assert (Hd : 0 <= n mod 10 <= 9) by (pose proof (Z.mod_pos_bound n 10); lia).
  assert (Hacc' : forallb isDigit (digitChar (n mod 10) :: acc) = true).
  { cbn [forallb]. now rewrite digitChar_isDigit, Hacc by lia. }
  destruct (n / 10 =? 0); auto.
Qed.

Lemma showDigits_head fuel : forall n acc,
  0 < n < 2 ^ Z.of_nat fuel ->
  exists d tl, showDigits fuel n acc = digitChar d :: tl /\ 1 <= d <= 9.
Proof.
  induction fuel as [|fuel IH]; intros n acc Hn.
  - cbn in Hn. lia.
  - rewrite Nat2Z.inj_succ, Z.pow_succ_r in Hn by lia.
    cbn [showDigits]. destruct (n / 10 =? 0) eqn:E.
    + apply Z.eqb_eq in E. exists (n mod 10), acc. split; [reflexivity|].
      pose proof (Z.div_mod n 10). pose proof (Z.mod_pos_bound n 10). lia.
    + apply Z.eqb_neq in E. apply IH.
      assert (0 <= n / 10) by (apply Z.div_pos; lia).
      split; [lia|]. apply Z.div_lt_upper_bound; lia.
Qed.

Lemma showNat_fuel n : 0 <= n -> n < 2 ^ Z.of_nat (S (Z.to_nat (Z.log2 n))).
Proof.
  intros H. rewrite Nat2Z.inj_succ, Z2Nat.id by apply Z.log2_nonneg.
  destruct (Z.eq_dec n 0) as [->|Hn]; [reflexivity|].
  apply Z.log2_spec. lia.
Qed.

Lemma showNat_val n : 0 <= n -> digitsVal (showNat n) = n.
Proof.
  intros H. unfold showNat.
  change (digitsFrom 0 (showDigits (S (Z.to_nat (Z.log2 n))) n []) = n).
  rewrite showDigits_val; [reflexivity|]. split; [lia|]. now apply showNat_fuel.
Qed.

Lemma showNat_digits n : forallb isDigit (showNat n) = true.
Proof. apply showDigits_digits. reflexivity. Qed.

Lemma showNat_head n :
  0 <= n ->
  exists d0 tl, showNat n = d0 :: tl /\ (Ascii.eqb d0 "0" = true -> tl = []).
Proof.
  intros H. destruct (Z.eq_dec n 0) as [->|Hn].
  - exists "0"%char, []. split; reflexivity.
  - destruct (showDigits_head (S (Z.to_nat (Z.log2 n))) n []) as (d & tl & E & Hd).
    { split; [lia|]. now apply showNat_fuel. }
    exists (digitChar d), tl. split; [exact E|]. intros H0.
    apply Ascii.eqb_eq in H0. apply (f_equal byteVal) in H0.
    rewrite digitChar_val in H0 by lia. change (byteVal "0") with 48 in H0. lia.
Qed.

Lemma spanDigits_app ds rest :
  forallb isDigit ds = true ->
  match rest with c :: _ => isDigit c = false | [] => True end ->
  spanDigits (ds ++ rest) = (ds, rest).
Proof.
  intros Hds Hrest. induction ds as [|c ds IH].
  - destruct rest as [|c r]; [reflexivity|]. cbn. now rewrite Hrest.
  - cbn [forallb] in Hds. apply andb_true_iff in Hds as [Hc Hds].
    cbn [app spanDigits]. now rewrite Hc, IH.
Qed.

(** *** Fraction digits *)

Lemma fracDigits_digits d fuel : forall r,
  0 <= r < d -> forallb isDigit (fracDigits fuel r d) = true.
Proof.
  induction fuel as [|fuel IH]; intros r Hr; [reflexivity|].
  cbn [fracDigits]. destruct (r =? 0); [reflexivity|].
  assert (Hq : 0 <= 10 * r / d <= 9).
  { split; [apply Z.div_pos; lia|].
    assert (10 * r / d < 10) by (apply Z.div_lt_upper_bound; lia). lia. }
  cbn [forallb]. rewrite digitChar_isDigit by lia.
  apply IH, Z.mod_pos_bound. lia.
Qed.

Lemma fracDigits_spec d fuel : forall r,
  0 <= r < d -> (d | r * 10 ^ Z.of_nat fuel) ->
  digitsVal (fracDigits fuel r d) * d = r * 10 ^ Z.of_nat (length (fracDigits fuel r d)).
Proof.
  induction fuel as [|fuel IH]; intros r Hr Hdiv.
  - cbn. cbn in Hdiv. rewrite Z.mul_1_r in Hdiv.
    destruct (Z.eq_dec r 0) as [->|Hr0]; [reflexivity|].
    apply Z.divide_pos_le in Hdiv; lia.
  - cbn [fracDigits]. destruct (r =? 0) eqn:E.
    + apply Z.eqb_eq in E. subst. reflexivity.
    + apply Z.eqb_neq in E.
      assert (Hq : 0 <= 10 * r / d <= 9).
      { split; [apply Z.div_pos; lia|].
        assert (10 * r / d < 10) by (apply Z.div_lt_upper_bound; lia). lia. }
      assert (Hr' : 0 <= 10 * r mod d < d) by (apply Z.mod_pos_bound; lia).
      assert (Hdiv' : (d | 10 * r mod d * 10 ^ Z.of_nat fuel)).
      { rewrite Nat2Z.inj_succ, Z.pow_succ_r in Hdiv by lia.
        destruct Hdiv as [k Hk].
        exists (k - (10 * r / d) * 10 ^ Z.of_nat fuel).
        pose proof (Z.div_mod (10 * r) d ltac:(lia)). nia. }
      pose proof (IH (10 * r mod d) Hr' Hdiv') as Hval.
      change (digitChar (10 * r / d) :: fracDigits fuel (10 * r mod d) d)
        with ([digitChar (10 * r / d)] ++ fracDigits fuel (10 * r mod d) d).
      rewrite digitsVal_app, length_app. cbn [length].
      change (digitsVal [digitChar (10 * r / d)])
        with (0 * 10 + (byteVal (digitChar (10 * r / d)) - 48)).
      rewrite digitChar_val by lia.
      rewrite Nat2Z.inj_add, Z.pow_add_r by lia. change (10 ^ Z.of_nat 1) with 10.
      pose proof (Z.div_mod (10 * r) d ltac:(lia)). nia.
Qed.

(** *** Numbers as they are written *)

Lemma fractionEnd_cons c r :
  fractionEnd (c :: r) = true -> isDigit c = false /\ Ascii.eqb c "." = false.
Proof.
  cbn [fractionEnd]. intros H. apply andb_true_iff in H as [Hd Hp].
  apply negb_true_iff in Hd, Hp. auto.
Qed.

Lemma numberEnd_cons c r :
  numberEnd (c :: r) = true ->
  isDigit c = false /\ Ascii.eqb c "." = false /\ Ascii.eqb c "e" = false
  /\ Ascii.eqb c "E" = false.
Proof.
  cbn [numberEnd]. intros H. apply andb_true_iff in H as [H HE].
  apply andb_true_iff in H as [H He]. apply andb_true_iff in H as [Hd Hp].
  apply negb_true_iff in HE, He, Hd, Hp. auto.
Qed.

Lemma numberEnd_fractionEnd rest : numberEnd rest = true -> fractionEnd rest = true.
Proof.
  destruct rest as [|c r]; [reflexivity|]. intros H.
  apply numberEnd_cons in H as (Hd & Hp & _). cbn [fractionEnd]. now rewrite Hd, Hp.
Qed.

Lemma isDigit_not_sign c : isDigit c = true -> Ascii.eqb c "-" = false.
Proof. destruct c as [[] [] [] [] [] [] [] []]; vm_compute; congruence. Qed.

Lemma isDigit_ascii c : isDigit c = true -> asciiByte c = true.
Proof. destruct c as [[] [] [] [] [] [] [] []]; vm_compute; congruence. Qed.

Lemma digits_ascii ds : forallb isDigit ds = true -> forallb asciiByte ds = true.
Proof.
  induction ds as [|c ds IH]; [reflexivity|]. cbn [forallb]. intros H.
  apply andb_true_iff in H as [Hc Hds]. now rewrite (isDigit_ascii c Hc), IH.
Qed.

Lemma fractionEnd_span ds rest :
  forallb isDigit ds = true -> fractionEnd rest = true ->
  spanDigits (ds ++ rest) = (ds, rest).
Proof.
  intros Hds Hrest. apply spanDigits_app; [exact Hds|].
  destruct rest as [|c r]; [exact I|]. now apply fractionEnd_cons in Hrest.
Qed.

Lemma parseFraction_text frac rest :
  forallb isDigit frac = true -> fractionEnd rest = true ->
  parseFraction (fractionText frac ++ rest) = Some (frac, rest).
Proof.
  intros Hf Hr. destruct frac as [|c frac].
  - cbn [fractionText app]. destruct rest as [|c r]; [reflexivity|].
    apply fractionEnd_cons in Hr as (_ & Hp). cbn [parseFraction]. now rewrite Hp.
  - cbn [fractionText app parseFraction]. change (Ascii.eqb "." ".") with true. cbv iota.
    change (c :: frac ++ rest) with ((c :: frac) ++ rest).
    now rewrite fractionEnd_span.
Qed.

Lemma parseExponent_end rest :
  numberEnd rest = true -> parseExponent rest = Some (0, rest).
Proof.
  destruct rest as [|c r]; [reflexivity|]. intros H.
  apply numberEnd_cons in H as (_ & _ & He & HE). cbn [parseExponent].
  now rewrite HE, He.
Qed.

Lemma fractionText_end frac rest :
  fractionEnd rest = true ->
  match fractionText frac ++ rest with c :: _ => isDigit c = false | [] => True end.
Proof.
  intros H. destruct frac; [|reflexivity]. destruct rest as [|c r]; [exact I|].
  now apply fractionEnd_cons in H.
Qed.

(** The exponent of a number, as [Number::toString] writes it. *)
Lemma parseExponent_text (pos : bool) x rest :
  0 <= x -> numberEnd rest = true ->
  parseExponent ("e"%char :: (if pos then "+"%char else "-"%char) :: showNat x ++ rest)
  = Some (if pos then x else - x, rest).
Proof.
  intros Hx Hrest.
  destruct (showNat_head x Hx) as (d0 & tl & E & _).
  pose proof (showNat_digits x) as Hd. pose proof (showNat_val x Hx) as Hv.
  assert (Hspan : spanDigits (showNat x ++ rest) = (showNat x, rest)).
  { apply fractionEnd_span; [exact Hd|now apply numberEnd_fractionEnd]. }
  cbn [parseExponent]. change (Ascii.eqb "e" "e") with true. cbn [orb].
  destruct pos.
  - change (Ascii.eqb "+" "-") with false. change (Ascii.eqb "+" "+") with true.
    cbv iota. rewrite Hspan, E. rewrite <- E, Hv. reflexivity.
  - change (Ascii.eqb "-" "-") with true. cbv iota.
    rewrite Hspan, E. rewrite <- E, Hv. reflexivity.
Qed.

(** A decimal that was written out, with a sign before it and an
    exponent after it, reads back as what it stands for. *)
Theorem parseNumber_text (neg : bool) v tail e rest :
  0 <= Qnum v -> finiteDecimal v -> fractionEnd tail = true ->
  parseExponent tail = Some (e, rest) ->
  exists q',
    parseNumber ((if neg then ["-"%char] else []) ++ showDecimal v ++ tail) = Some (q', rest)
    /\ (q' == (if neg then - v else v) * pow10 e)%Q.
Proof.
  intros Hnum Hdiv Htail Hexp. unfold showDecimal. unfold finiteDecimal in Hdiv.
  set (n := Qnum v) in *. set (d := Z.pos (Qden v)) in *.
  set (a := Z.abs n) in *. set (r := a mod d) in *.
  assert (Hd : 0 < d) by (subst d; lia).
  assert (Hr : 0 <= r < d) by (apply Z.mod_pos_bound; lia).
  assert (Hip : 0 <= a / d) by (apply Z.div_pos; lia).
  pose proof (fracDigits_digits d digitsLimit r Hr) as Hfd.
  pose proof (fracDigits_spec d digitsLimit r Hr Hdiv) as Hfv.
  set (frac := fracDigits digitsLimit r d) in *.
  change (match frac with [] => [] | _ :: _ => "."%char :: frac end)
    with (fractionText frac).
  destruct (showNat_head (a / d) Hip) as (d0 & tl & Eip & Hz).
  pose proof (showNat_digits (a / d)) as Hdig.
  pose proof (showNat_val (a / d) Hip) as Hval.
  assert (Hsign : parseSign ((if neg then ["-"%char] else [])
                             ++ (showNat (a / d) ++ fractionText frac) ++ tail)
                  = (neg, showNat (a / d) ++ fractionText frac ++ tail)).
  { rewrite <- app_assoc. destruct neg; [reflexivity|]. cbn [app]. rewrite Eip in *.
    cbn [app parseSign].
    cbn [forallb] in Hdig. apply andb_true_iff in Hdig as [Hd0 _].
    now rewrite (isDigit_not_sign _ Hd0). }
  set (q0 := ((if neg then - (digitsVal (showNat (a / d) ++ frac))
               else digitsVal (showNat (a / d) ++ frac))
              # Z.to_pos (10 ^ Z.of_nat (length frac)))).
  assert (Hq0 : (q0 == if neg then - v else v)%Q).
  { subst q0. unfold Qeq. destruct neg; cbn [Qnum Qden Qopp]; fold n d;
      rewrite Z2Pos.id by (apply Z.pow_pos_nonneg; lia);
      rewrite digitsVal_app, Hval;
      pose proof (Z.div_mod a d ltac:(lia)) as Ha; fold r in Ha;
      assert (a = n) by (subst a; lia); nia. }
  exists (if e =? 0 then q0 else (q0 * Qpower (inject_Z 10) e)%Q). split.
  - subst q0. unfold parseNumber. rewrite Hsign.
    rewrite spanDigits_app;
      [| exact Hdig | apply fractionText_end; exact Htail].
    rewrite Eip. cbv beta iota zeta.
    destruct (Ascii.eqb d0 "0") eqn:E0.
    + rewrite (Hz eq_refl). cbn [app].
      now rewrite parseFraction_text, Hexp by assumption.
    + now rewrite parseFraction_text, Hexp by assumption.
  - destruct (Z.eqb_spec e 0) as [->|_].
    + rewrite Hq0. change (pow10 0) with 1%Q. ring.
    + rewrite Hq0. reflexivity.
Qed.

(** *** Number::toString *)

Lemma showNat_cons n : 0 <= n -> exists c r, showNat n = c :: r /\ isDigit c = true.
Proof.
  intros H. destruct (showNat_head n H) as (d0 & tl & E & _).
  pose proof (showNat_digits n) as Hd. rewrite E in Hd. cbn [forallb] in Hd.
  apply andb_true_iff in Hd as [Hd _]. eauto.
Qed.

Lemma showDecimal_start v : exists c r, showDecimal v = c :: r /\ isDigit c = true.
Proof.
  unfold showDecimal.
  assert (Hip : 0 <= Z.abs (Qnum v) / Z.pos (Qden v)) by (apply Z.div_pos; lia).
  destruct (showNat_cons _ Hip) as (c & r & E & Hc). rewrite E. cbn [app]. eauto.
Qed.

Lemma showDecimal_ascii v : forallb asciiByte (showDecimal v) = true.
Proof.
  unfold showDecimal. rewrite forallb_app, (digits_ascii _ (showNat_digits _)).
  assert (Hr : 0 <= Z.abs (Qnum v) mod Z.pos (Qden v) < Z.pos (Qden v))
    by (apply Z.mod_pos_bound; lia).
  pose proof (digits_ascii _ (fracDigits_digits _ digitsLimit _ Hr)) as H.
  destruct (fracDigits _ _ _); [reflexivity|]. cbn [forallb andb] in *. exact H.
Qed.

Lemma exponential_start v n : exists c r, exponential v n = c :: r /\ isDigit c = true.
Proof.
  unfold exponential. destruct (showDecimal_start (v / pow10 (n - 1))) as (c & r & E & Hc).
  rewrite E. cbn [app]. eauto.
Qed.

Lemma exponential_ascii v n : forallb asciiByte (exponential v n) = true.
Proof.
  unfold exponential. rewrite forallb_app, showDecimal_ascii. cbn [forallb andb].
  rewrite (digits_ascii _ (showNat_digits _)). now destruct (0 <=? n - 1).
Qed.

Lemma positiveString_start a : exists c r, positiveString a = c :: r /\ isDigit c = true.
Proof.
  unfold positiveString. destruct (shortest a) as [[v n]|]; [|apply showDecimal_start].
  destruct (_ || _); [apply exponential_start|apply showDecimal_start].
Qed.

Lemma positiveString_ascii a : forallb asciiByte (positiveString a) = true.
Proof.
  unfold positiveString. destruct (shortest a) as [[v n]|]; [|apply showDecimal_ascii].
  destruct (_ || _); [apply exponential_ascii|apply showDecimal_ascii].
Qed.

Lemma toString_start q :
  exists c r, toString q = c :: r /\ Ascii.eqb c "-" || isDigit c = true.
Proof.
  unfold toString. destruct (Qcompare q 0).
  - eexists _, _. split; reflexivity.
  - eexists _, _. split; reflexivity.
  - destruct (positiveString_start q) as (c & r & E & Hc). rewrite E.
    eexists _, _. split; [reflexivity|]. rewrite Hc. apply orb_true_r.
Qed.

Lemma toString_ascii q : forallb asciiByte (toString q) = true.
Proof.
  unfold toString. destruct (Qcompare q 0); [reflexivity| |apply positiveString_ascii].
  cbn [forallb]. now rewrite positiveString_ascii.
Qed.

Lemma scaled_text v : scaled v -> 0 <= Qnum v /\ finiteDecimal v.
Proof. intros H. split; [now apply scaled_num|now apply scaled_finite]. Qed.

(** What [Number::toString] writes for a positive double, with or
    without a sign before it, reads back as a decimal that the double
    is the nearest one to. *)
Lemma parseNumber_positiveString (neg : bool) a rest :
  (0 < a)%Q -> (fromQ a == a)%Q -> numberEnd rest = true ->
  exists q' v,
    parseNumber ((if neg then ["-"%char] else []) ++ positiveString a ++ rest)
    = Some (q', rest)
    /\ (fromQ v == a)%Q /\ (q' == if neg then - v else v)%Q.
Proof.
  intros Ha Hd Hrest. unfold positiveString.
  pose proof (numberEnd_fractionEnd rest Hrest) as Hfrac.
  destruct (shortest a) as [[v n]|] eqn:E.
  - destruct (shortest_sound a v n E ltac:(lra)) as (Hr & Hv & Hm).
    destruct (Qle_bool (pow10 21) v || negb (Qle_bool (pow10 (-6)) v)).
    + unfold exponential. rewrite <- app_assoc. cbn [app].
      destruct (scaled_text _ Hm) as [Hn Hf].
      destruct (parseNumber_text neg (v / pow10 (n - 1))
                  ("e"%char :: (if 0 <=? n - 1 then "+"%char else "-"%char)
                     :: showNat (Z.abs (n - 1)) ++ rest) (n - 1) rest Hn Hf eq_refl)
        as (q' & Hp & Hq).
      { rewrite parseExponent_text by (auto; lia). f_equal. f_equal.
        destruct (Z.leb_spec 0 (n - 1)); lia. }
      exists q', v. split; [exact Hp|]. split; [exact Hr|]. rewrite Hq.
      pose proof (pow10_pos (n - 1)) as Hp10.
      destruct neg; field; lra.
    + destruct (scaled_text _ Hv) as [Hn Hf].
      destruct (parseNumber_text neg v rest 0 rest Hn Hf Hfrac (parseExponent_end _ Hrest))
        as (q' & Hp & Hq).
      exists q', v. split; [exact Hp|]. split; [exact Hr|]. rewrite Hq.
      change (pow10 0) with 1%Q. destruct neg; ring.
  - destruct (scaled_text _ (scaled_double a Ha Hd)) as [Hn Hf].
    destruct (parseNumber_text neg a rest 0 rest Hn Hf Hfrac (parseExponent_end _ Hrest))
      as (q' & Hp & Hq).
    exists q', a. split; [exact Hp|]. split; [exact Hd|]. rewrite Hq.
    change (pow10 0) with 1%Q. destruct neg; ring.
Qed.

(** What [Number::toString] writes for a Number reads back as that
    Number. *)
Theorem parseNumber_toString q rest :
  fromQ q = q -> numberEnd rest = true ->
  exists q', parseNumber (toString q ++ rest) = Some (q', rest) /\ fromQ q' = q.
Proof.
  intros Hd Hrest. unfold toString. destruct (Qcompare_spec q 0) as [Hz|Hn|Hp].
  - assert (Hf : finiteDecimal 0) by (exists 0; reflexivity).
    destruct (parseNumber_text false 0 rest 0 rest ltac:(reflexivity) Hf
                (numberEnd_fractionEnd _ Hrest) (parseExponent_end _ Hrest))
      as (q' & Hp & Hq).
    exists q'. split; [exact Hp|]. rewrite <- Hd. apply fromQ_comp.
    rewrite Hq, Hz. reflexivity.
  - assert (Ha : (0 < - q)%Q) by lra.
    assert (Hd' : (fromQ (- q) == - q)%Q) by (rewrite fromQ_opp, Hd; reflexivity).
    destruct (parseNumber_positiveString true (- q) rest Ha Hd' Hrest)
      as (q' & v & Hp & Hr & Hq).
    exists q'. split; [exact Hp|].
    apply fromQ_eq; [apply fromQ_idempotent|exact Hd|].
    rewrite (fromQ_comp _ _ Hq), fromQ_opp, Hr. ring.
  - assert (Hd' : (fromQ q == q)%Q) by (rewrite Hd; reflexivity).
    destruct (parseNumber_positiveString false q rest Hp Hd' Hrest)
      as (q' & v & Hp' & Hr & Hq).
    exists q'. split; [exact Hp'|].
    apply fromQ_eq; [apply fromQ_idempotent|exact Hd|].
    now rewrite (fromQ_comp _ _ Hq).
Qed.

(** *** Values and members *)

Lemma parseValue_string fuel s rest :
  Utf8.ofCodeUnits s = true ->
  parseValue (S fuel) (quote s ++ rest) = Some (JString (implode s), skipWs rest).
Proof.
  intros Hs. unfold quote. cbn [app parseValue skipWs].
  change (isWs dquote) with false. cbv iota.
  change (Ascii.eqb dquote "{") with false. change (Ascii.eqb dquote "[") with false.
  change (Ascii.eqb dquote dquote) with true. cbv iota.
  rewrite <- app_assoc. cbn [app]. now rewrite parseChars_quote.
Qed.

Lemma number_start c :
  Ascii.eqb c "-" || isDigit c = true ->
  isWs c = false /\ Ascii.eqb c "{" = false /\ Ascii.eqb c "[" = false
  /\ Ascii.eqb c dquote = false.
Proof. destruct c as [[] [] [] [] [] [] [] []]; vm_compute; intuition congruence. Qed.

Lemma parseValue_number fuel q rest :
  fromQ q = q ->
  numberEnd rest = true ->
  parseValue (S fuel) (toString q ++ rest) = Some (JNumber q, skipWs rest).
Proof.
  intros Hd Hrest.
  destruct (parseNumber_toString q rest Hd Hrest) as (q' & Hp & Hq).
  destruct (toString_start q) as (c & r & E & Hc).
  rewrite E in *. destruct (number_start c Hc) as (H1 & H2 & H3 & H4).
  cbn [app parseValue skipWs] in *. rewrite H1, H2, H3, H4, Hc, Hp, Hq. reflexivity.
Qed.

Section Members.
Variable pv : list ascii -> option (json * list ascii).

Lemma parseMembers_last n k vtext v rest :
  Utf8.ofCodeUnits k = true ->
  pv (vtext ++ "}"%char :: rest) = Some (v, "}"%char :: rest) ->
  parseMembers pv (S n) (quote k ++ ":"%char :: vtext ++ "}"%char :: rest)
  = Some ([(implode k, v)], rest).
Proof.
  intros Hk Hv. unfold quote. cbn [app parseMembers].
  change (Ascii.eqb dquote dquote) with true. cbv iota.
  rewrite <- app_assoc. cbn [app]. rewrite parseChars_quote by exact Hk.
  cbn [skipWs]. change (isWs ":") with false. cbv iota.
  change (Ascii.eqb ":" ":") with true. cbv iota.
  rewrite Hv. reflexivity.
Qed.

Lemma parseMembers_more n k vtext v more ms rest :
  Utf8.ofCodeUnits k = true ->
  pv (vtext ++ ","%char :: more) = Some (v, ","%char :: more) ->
  skipWs more = more ->
  parseMembers pv n more = Some (ms, rest) ->
  parseMembers pv (S n) (quote k ++ ":"%char :: vtext ++ ","%char :: more)
  = Some ((implode k, v) :: ms, rest).
Proof.
  intros Hk Hv Hws Hms. unfold quote. cbn [app parseMembers].
  change (Ascii.eqb dquote dquote) with true. cbv iota.
  rewrite <- app_assoc. cbn [app]. rewrite parseChars_quote by exact Hk.
  cbn [skipWs]. change (isWs ":") with false. cbv iota.
  change (Ascii.eqb ":" ":") with true. cbv iota.
  rewrite Hv. change (Ascii.eqb "," ",") with true. cbv iota.
  rewrite Hws, Hms. reflexivity.
Qed.
End Members.

Lemma parseValue_object fuel l ms rest :
  parseMembers (parseValue fuel) fuel (dquote :: l) = Some (ms, rest) ->
  parseValue (S fuel) ("{"%char :: dquote :: l) = Some (JObject ms, skipWs rest).
Proof.
  intros H.
  change (parseValue (S fuel) ("{"%char :: dquote :: l))
    with (match parseMembers (parseValue fuel) fuel (dquote :: l) with
          | Some (ms, r1) => Some (JObject ms, skipWs r1)
          | None => None
          end).
  now rewrite H.
Qed.

Lemma parseValue_object_quote fuel k l ms rest :
  parseMembers (parseValue fuel) fuel (quote k ++ l) = Some (ms, rest) ->
  parseValue (S fuel) ("{"%char :: quote k ++ l) = Some (JObject ms, skipWs rest).
Proof. unfold quote. cbn [app]. apply parseValue_object. Qed.

(** The text of an object of one string and one number. *)
Lemma serialize_pair k1 s k2 q :
  serialize (JObject [(k1, JString s); (k2, JNumber q)])
  = "{"%char :: quote (explode k1) ++ ":"%char :: quote (explode s) ++ ","%char
      :: quote (explode k2) ++ ":"%char :: toString q ++ ["}"%char].
Proof.
  cbn [serialize map fst snd commaSep].
  rewrite <- !app_assoc. cbn [app]. rewrite <- !app_assoc. reflexivity.
Qed.

(** An object of one string and one number reads back as written. *)
Theorem parse_stringify_pair k1 s k2 q :
  isString k1 = true -> isString s = true -> isString k2 = true -> fromQ q = q ->
  parse (stringify (JObject [(k1, JString s); (k2, JNumber q)]))
  = Some (JObject [(k1, JString s); (k2, JNumber q)]).
Proof.
  intros Hk1 Hs Hk2 Hq. unfold parse, stringify. rewrite explode_implode, serialize_pair.
  set (more := quote (explode k2) ++ ":"%char :: toString q ++ ["}"%char]).
  set (members := quote (explode k1) ++ ":"%char :: quote (explode s) ++ ","%char :: more).
  assert (Hfuel : exists f, length members = S f).
  { subst members. unfold quote at 1. cbn [length app]. eauto. }
  destruct Hfuel as (f & Hf). cbn [length]. rewrite Hf.
  pose proof (parseValue_number (S f) q ["}"%char] Hq eq_refl) as Hnum.
  assert (Hmore : parseMembers (parseValue (S (S f))) (S f) more
                  = Some ([(k2, JNumber q)], [])).
  { subst more. rewrite <- (implode_explode k2) at 2.
    apply parseMembers_last; [exact Hk2|exact Hnum]. }
  assert (Hmembers : parseMembers (parseValue (S (S f))) (S (S f)) members
                     = Some ([(k1, JString s); (k2, JNumber q)], [])).
  { subst members. rewrite <- (implode_explode k1) at 2.
    rewrite <- (implode_explode s) at 2.
    apply parseMembers_more;
      [exact Hk1|now apply parseValue_string|reflexivity|exact Hmore]. }
  subst members.
  rewrite (parseValue_object_quote _ _ _ _ _ Hmembers). reflexivity.
Qed.

(** And its text is UTF-8. *)
Theorem wellFormed_stringify_pair k1 s k2 q :
  isString k1 = true -> isString s = true -> isString k2 = true ->
  Utf8.wellFormed (explode (stringify (JObject [(k1, JString s); (k2, JNumber q)]))) = true.
Proof.
  intros Hk1 Hs Hk2. unfold stringify. rewrite explode_implode, serialize_pair.
  change ("{"%char :: quote (explode k1) ++ ":"%char :: quote (explode s) ++ ","%char
            :: quote (explode k2) ++ ":"%char :: toString q ++ ["}"%char])
    with (["{"%char] ++ quote (explode k1) ++ [":"%char] ++ quote (explode s) ++ [","%char]
            ++ quote (explode k2) ++ [":"%char] ++ toString q ++ ["}"%char]).
  rewrite wellFormed_ascii_app by reflexivity.
  rewrite wellFormed_quote by exact Hk1. rewrite wellFormed_ascii_app by reflexivity.
  rewrite wellFormed_quote by exact Hs. rewrite wellFormed_ascii_app by reflexivity.
  rewrite wellFormed_quote by exact Hk2. rewrite wellFormed_ascii_app by reflexivity.
  rewrite wellFormed_ascii_app by apply toString_ascii. reflexivity.
Qed.
End JSONFacts.

(** ** The error token and its decoding *)

Lemma errorToken_eq error w :
  errorToken error w = (Return (errorTokenAt (clock w) error), w).
Proof. reflexivity. Qed.

(** The two segments of an error token. *)
Lemma errorTokenAt_segments now error :
  errorTokenAt now error
  = base64url (Utf8.parse (JSON.stringify
                             (JObject [("alg", JString "HS256"); ("typ", JString "JWT")])))
    +:+ "." +:+
    base64url (Utf8.parse (JSON.stringify
                             (JObject [("error", JString error);
                                       ("exp", JNumber (Number.add (seconds now) 60))]))).
Proof. reflexivity. Qed.

Lemma split_two_segments h p :
  split "." (base64url h +:+ "." +:+ base64url p) = [base64url h; base64url p].
Proof.
  unfold split. rewrite explode_app.
  change (explode ("." +:+ base64url p)) with ("."%char :: explode (base64url p)).
  rewrite splitOn_app by apply Base64Facts.base64url_chars.
  rewrite splitOn_plain by apply Base64Facts.base64url_chars.
  cbn [map]. now rewrite !implode_explode.
Qed.

(** Decoding an error token gives back the message and the expiry. *)
Theorem jwtDecode_errorToken now message :
  isString message = true ->
  JwtDecode.jwtDecode (errorTokenAt now message)
  = Some {| exp := Some (Number.add (seconds now) 60); nbf := None; error := Some message |}.
Proof.
  intros Hm.
  unfold JwtDecode.jwtDecode. rewrite errorTokenAt_segments, split_two_segments.
  rewrite Base64Facts.base64_url_decode_base64url. unfold Utf8.parse.
  rewrite JSONFacts.wellFormed_stringify_pair by (reflexivity || exact Hm).
  rewrite implode_explode.
  rewrite JSONFacts.parse_stringify_pair;
    [reflexivity|reflexivity|exact Hm|reflexivity|apply NumberFacts.fromQ_idempotent].
Qed.

(** ** The clock, in seconds *)

Local Open Scope Q_scope.

Lemma seconds_le t t' : (t <= t')%Z -> seconds t <= seconds t'.
Proof.
  intros H. unfold seconds, Number.div. apply NumberFacts.fromQ_le.
  apply Qmult_le_compat_r; [now rewrite <- Zle_Qle|discriminate].
Qed.

(** Below [2 ^ 43] seconds, rounding moves a time by no more than
    [2 ^ (-11)]. *)
Lemma seconds_near ms :
  (-8796093022208000 < ms < 8796093022208000)%Z ->
  - (1 # 2048) <= seconds ms - inject_Z ms / 1000 <= 1 # 2048.
Proof.
  intros [Hl Hu]. unfold seconds, Number.div.
  assert (A : inject_Z (-8796093022208000) < inject_Z ms) by now rewrite <- Zlt_Qlt.
  assert (B : inject_Z ms < inject_Z 8796093022208000) by now rewrite <- Zlt_Qlt.
  assert (C : inject_Z ms / 1000 == inject_Z ms * (1 # 1000)) by reflexivity.
  change (inject_Z (-8796093022208000)) with (- (8796093022208000 # 1)) in A.
  change (inject_Z 8796093022208000) with (8796093022208000 # 1) in B.
  apply NumberFacts.fromQ_near; rewrite C;
    change (Number.pow2 43) with (8796093022208 # 1); lra.
Qed.

(** The expiry of an error token built at a time value is within
    [2 ^ (-10)] of sixty seconds after it. *)
Lemma expiry_near now :
  Number.timeValue now ->
  - (1 # 1024) <= Number.add (seconds now) 60 - (inject_Z now / 1000 + 60) <= 1 # 1024.
Proof.
  intros Hn.
  pose proof (seconds_near now ltac:(unfold Number.timeValue in Hn; lia)) as Hs.
  destruct Hn as [Hl Hu].
  assert (A : inject_Z (-8640000000000000) <= inject_Z now) by now rewrite <- Zle_Qle.
  assert (B : inject_Z now <= inject_Z 8640000000000000) by now rewrite <- Zle_Qle.
  assert (C : inject_Z now / 1000 == inject_Z now * (1 # 1000)) by reflexivity.
  change (inject_Z (-8640000000000000)) with (- (8640000000000000 # 1)) in A.
  change (inject_Z 8640000000000000) with (8640000000000000 # 1) in B.
  assert (H : - (1 # 2048) <= Number.add (seconds now) 60 - (seconds now + 60) <= 1 # 2048).
  { unfold Number.add. apply NumberFacts.fromQ_near;
      change (Number.pow2 43) with (8796093022208 # 1); lra. }
  lra.
Qed.

Lemma seconds_after now d :
  inject_Z (now + d) / 1000 == inject_Z now / 1000 + inject_Z d / 1000.
Proof. rewrite inject_Z_plus. unfold Qdiv. ring. Qed.

(** An expiry sixty seconds after a time value has not passed two
    milliseconds before the minute is over, and has passed two
    milliseconds after. *)
Lemma expiry_window now t :
  Number.timeValue now ->
  ((t <= now + 59998)%Z -> Qltb (Number.add (seconds now) 60) (seconds t) = false)
  /\ ((now + 60002 <= t)%Z -> Qltb (Number.add (seconds now) 60) (seconds t) = true).
Proof.
  intros Hn. pose proof (expiry_near now Hn) as He.
  split; intros Ht.
  - apply Qltb_ge. apply Qle_trans with (seconds (now + 59998)); [now apply seconds_le|].
    pose proof (seconds_near (now + 59998) ltac:(unfold Number.timeValue in Hn; lia)) as Hs.
    rewrite seconds_after in Hs. change (inject_Z 59998 / 1000) with (59998 # 1000) in Hs.
    lra.
  - apply Qltb_lt. apply Qlt_le_trans with (seconds (now + 60002)); [|now apply seconds_le].
    pose proof (seconds_near (now + 60002) ltac:(unfold Number.timeValue in Hn; lia)) as Hs.
    rewrite seconds_after in Hs. change (inject_Z 60002 / 1000) with (60002 # 1000) in Hs.
    lra.
Qed.

Local Close Scope Q_scope.

(** ** The steps of a run *)

Lemma validated_fields a :
  validated a = true ->
  truthy (Username a) = true /\ truthy (Password a) = true /\ truthy (Region a) = true
  /\ truthy (ClientId a) = true /\ truthy (UserPoolId a) = true.
Proof.
  unfold validated, requiredFields. cbn [forallb snd]. rewrite !andb_true_iff. tauto.
Qed.

Lemma truthy_nonempty t : truthy (Some t) = true <-> t <> "".
Proof.
  cbn [truthy]. rewrite negb_true_iff. apply String.eqb_neq.
Qed.

Lemma logged_logged w e1 e2 : logged (logged w e1) e2 = logged w (e1 ++ e2).
Proof. unfold logged. cbn [store clock trace]. now rewrite <- app_assoc. Qed.

Lemma getItem_eq key w :
  getItem key w = (Return (store w !! key), logged w [GetItem key]).
Proof. reflexivity. Qed.

Lemma setItem_eq key value w :
  setItem key value w
  = (Return tt, {| store := <[key := value]> (store w); clock := clock w;
                   trace := trace w ++ [SetItem key value] |}).
Proof. reflexivity. Qed.

(** The checks of lines 99-113 pass: what is left of [run] is the part
    from line 114 on. *)
Ltac pass_validation Hv :=
  let H1 := fresh in
  let H2 := fresh in
  let H3 := fresh in
  let H4 := fresh in
  let H5 := fresh in
  apply validated_fields in Hv as (H1 & H2 & H3 & H4 & H5);
  unfold run; rewrite H1, H2, H3, H4, H5; cbn [negb].

Section PluginFacts.
Variable jwtDecode : string -> option Claims.
Variable authenticateUser :
  option string -> option string -> option string -> option string -> Z ->
  Z * (AuthSession + exn).

(** The validity check as a function of the decoded claims. *)
Lemma validAt_spec now token :
  validAt jwtDecode now token =
  match jwtDecode token with
  | None => false
  | Some data =>
      if match exp data with Some e => Qltb e (seconds now) | None => false end
      then false
      else if match nbf data with Some n => Qltb (seconds now) n | None => false end
      then false
      else true
  end.
Proof.
  unfold validAt, validToken, bind, tryCatch, logEvent, dateNow, decode.
  cbn [clock fst]. destruct (jwtDecode token) as [data|]; [|reflexivity].
  unfold ret.
  destruct (match exp data with Some e => Qltb e (seconds now) | None => false end);
    [reflexivity|].
  destruct (match nbf data with Some n => Qltb (seconds now) n | None => false end);
    reflexivity.
Qed.

(** [validToken] always returns: it reads the clock, logs the call and
    changes nothing else. *)
Lemma validToken_eq token w :
  validToken jwtDecode token w
  = (Return (validAt jwtDecode (clock w) token), logged w [ValidToken token]).
Proof.
  rewrite validAt_spec.
  unfold validToken, bind, tryCatch, logEvent, dateNow, decode, logged.
  cbn [clock]. destruct (jwtDecode token) as [data|]; [|reflexivity].
  unfold ret.
  destruct (match exp data with Some e => Qltb e (seconds (clock w)) | None => false end);
    [reflexivity|].
  destruct (match nbf data with Some n => Qltb (seconds (clock w)) n | None => false end);
    reflexivity.
Qed.

Lemma validAt_decodes now token :
  validAt jwtDecode now token = true -> exists data, jwtDecode token = Some data.
Proof.
  rewrite validAt_spec. destruct (jwtDecode token); [eauto|discriminate].
Qed.

Lemma computeNew_success d key w finished session :
  authenticateUser (UserPoolId d) (ClientId d) (Username d) (Password d) (clock w)
  = (finished, inl session) ->
  computeNew authenticateUser d key w
  = (Return (sessionToken d session),
     {| store := <[key := sessionToken d session]> (store w);
        clock := finished;
        trace := trace w ++ [Authenticate d; SetItem key (sessionToken d session)] |}).
Proof.
  intros H. unfold computeNew, tryCatch, bind, cognitoAuth, sessionToken. rewrite H.
  destruct (strictEq (TokenType d) "id"); rewrite setItem_eq; cbn [store clock trace ret];
    unfold ret; now rewrite <- app_assoc.
Qed.

Lemma computeNew_failure d key w finished m :
  authenticateUser (UserPoolId d) (ClientId d) (Username d) (Password d) (clock w)
  = (finished, inr (Error m)) ->
  computeNew authenticateUser d key w
  = (Return m,
     {| store := <[key := errorTokenAt finished m]> (store w);
        clock := finished;
        trace := trace w ++ [Authenticate d; SetItem key (errorTokenAt finished m)] |}).
Proof.
  intros H. unfold computeNew, tryCatch, bind, cognitoAuth. rewrite H.
  cbn [message]. rewrite errorToken_eq, setItem_eq. cbn [store clock trace].
  unfold ret. now rewrite <- app_assoc.
Qed.

(** A run with its arguments in place looks the key up and, without a
    usable entry, goes on to ask for a new token. *)
Lemma run_miss a w :
  validated a = true ->
  cacheHit jwtDecode (clock w) (store w !! cacheKey (credentialSet a)) = false ->
  run jwtDecode authenticateUser a w
  = computeNew authenticateUser (credentialSet a) (cacheKey (credentialSet a))
      (logged w ([GetItem (cacheKey (credentialSet a))]
                   ++ checkEvents (store w !! cacheKey (credentialSet a)))).
Proof.
  intros Hv Hmiss. pass_validation Hv.
  unfold bind at 1. rewrite getItem_eq.
  destruct (store w !! cacheKey (credentialSet a)) as [t|] eqn:E;
    [|reflexivity].
  unfold cacheHit, checkEvents in *.
  destruct (truthy (Some t)); [|reflexivity].
  cbn [andb] in Hmiss. unfold bind. rewrite validToken_eq. cbn [clock logged].
  rewrite Hmiss. now rewrite logged_logged.
Qed.

(** With a usable entry the run answers from it. *)
Lemma run_hit a w token data :
  validated a = true ->
  store w !! cacheKey (credentialSet a) = Some token ->
  token <> "" ->
  validAt jwtDecode (clock w) token = true ->
  jwtDecode token = Some data ->
  run jwtDecode authenticateUser a w
  = (Return (if truthy (error data) then elementText (error data) else token),
     logged w [GetItem (cacheKey (credentialSet a)); ValidToken token]).
Proof.
  intros Hv Hget Hne Hvalid Hdec. pass_validation Hv.
  unfold bind at 1. rewrite getItem_eq, Hget.
  apply truthy_nonempty in Hne. rewrite Hne.
  unfold bind at 1. rewrite validToken_eq. cbn [clock logged]. rewrite Hvalid.
  unfold bind, decode. rewrite Hdec. unfold ret.
  fold (logged w [GetItem (cacheKey (credentialSet a))]).
  fold (logged (logged w [GetItem (cacheKey (credentialSet a))]) [ValidToken token]).
  rewrite logged_logged. cbn [app].
  destruct (error data) as [m|]; [|reflexivity].
  destruct (truthy (Some m)); reflexivity.
Qed.
End PluginFacts.

(** * The properties of the cache *)

Section Claims.
Variable jwtDecode : string -> option Claims.
Variable authenticateUser :
  option string -> option string -> option string -> option string -> Z ->
  Z * (AuthSession + exn).

(** C1. With all mandatory arguments there, no usable token in the
    cache and a handshake that fails with the message [m], the run
    does not throw: it returns [m] itself, and it has stored under
    the key the error token built from [m] at the time of the
    failure. *)
Theorem run_authentication_failure a w finished m :
  validated a = true ->
  cacheHit jwtDecode (clock w) (store w !! cacheKey (credentialSet a)) = false ->
  authenticateUser (UserPoolId a) (ClientId a) (Username a) (Password a) (clock w)
  = (finished, inr (Error m)) ->
  run jwtDecode authenticateUser a w
  = (Return m,
     {| store := <[cacheKey (credentialSet a) := errorTokenAt finished m]> (store w);
        clock := finished;
        trace := trace w
                   ++ [GetItem (cacheKey (credentialSet a))]
                   ++ checkEvents (store w !! cacheKey (credentialSet a))
                   ++ [Authenticate (credentialSet a);
                       SetItem (cacheKey (credentialSet a)) (errorTokenAt finished m)] |}).
Proof.
  intros Hv Hmiss Hauth. rewrite run_miss by assumption.
  rewrite (computeNew_failure authenticateUser _ _ _ finished m) by exact Hauth.
  cbn [logged store clock trace]. now rewrite <- !app_assoc.
Qed.

(** C2. With all mandatory arguments there and a non-empty token in
    the cache that the validity check accepts, the run makes no
    handshake and writes nothing: all it does is look the key up and
    check the token. It returns the [error] claim of the token when
    that claim is there and not empty, and the token itself when there
    is no such claim. When the claim is there and empty, what it
    returns is the token too, not the claim: line 129 asks whether
    [data.error] is truthy, not whether it is there. *)
Theorem run_cache_hit a w token :
  validated a = true ->
  store w !! cacheKey (credentialSet a) = Some token ->
  token <> "" ->
  validAt jwtDecode (clock w) token = true ->
  exists data,
    jwtDecode token = Some data
    /\ snd (run jwtDecode authenticateUser a w)
       = logged w [GetItem (cacheKey (credentialSet a)); ValidToken token]
    /\ (forall m,
          error data = Some m -> m <> "" ->
          fst (run jwtDecode authenticateUser a w) = Return m)
    /\ (error data = None -> fst (run jwtDecode authenticateUser a w) = Return token)
    /\ (error data = Some "" -> fst (run jwtDecode authenticateUser a w) = Return token).
Proof.
  intros Hv Hget Hne Hvalid.
  destruct (validAt_decodes jwtDecode _ _ Hvalid) as (data & Hdec).
  exists data. split; [exact Hdec|].
  rewrite (run_hit jwtDecode authenticateUser a w token data) by assumption.
  cbn [fst snd]. split; [reflexivity|]. split; [|split].
  - intros m Hm Hm0. rewrite Hm. apply truthy_nonempty in Hm0. now rewrite Hm0.
  - intros Hnone. now rewrite Hnone.
  - intros Hempty. now rewrite Hempty.
Qed.

(** C3. With all mandatory arguments there and no usable token in the
    cache - no entry, an empty one, or one the validity check
    rejects - the run hands the whole credential set to the
    handshake and, when that succeeds, stores its token under the
    key and returns it. What the unusable entry was makes no
    difference: the run returns the same value and leaves the same
    store and clock as with the entry removed beforehand. *)
Theorem run_miss_or_invalid a w :
  validated a = true ->
  cacheHit jwtDecode (clock w) (store w !! cacheKey (credentialSet a)) = false ->
  (forall finished session,
      authenticateUser (UserPoolId a) (ClientId a) (Username a) (Password a) (clock w)
      = (finished, inl session) ->
      run jwtDecode authenticateUser a w
      = (Return (sessionToken (credentialSet a) session),
         {| store := <[cacheKey (credentialSet a) := sessionToken (credentialSet a) session]>
                       (store w);
            clock := finished;
            trace := trace w
                       ++ [GetItem (cacheKey (credentialSet a))]
                       ++ checkEvents (store w !! cacheKey (credentialSet a))
                       ++ [Authenticate (credentialSet a);
                           SetItem (cacheKey (credentialSet a))
                             (sessionToken (credentialSet a) session)] |}))
  /\ (let r := run jwtDecode authenticateUser a w in
      let r0 := run jwtDecode authenticateUser a
                  (withoutEntry (cacheKey (credentialSet a)) w) in
      fst r = fst r0 /\ store (snd r) = store (snd r0) /\ clock (snd r) = clock (snd r0)).
Proof.
  intros Hv Hmiss. split.
  - intros finished session Hauth. rewrite run_miss by assumption.
    rewrite (computeNew_success authenticateUser _ _ _ finished session) by exact Hauth.
    cbn [logged store clock trace]. now rewrite <- !app_assoc.
  - cbv zeta. rewrite run_miss by assumption.
    rewrite run_miss;
      [|assumption|cbn [withoutEntry store clock]; now rewrite lookup_delete_eq].
    destruct (authenticateUser (UserPoolId a) (ClientId a) (Username a) (Password a) (clock w))
      as [finished [session|[m]]] eqn:Hauth.
    + rewrite !(computeNew_success authenticateUser _ _ _ finished session) by exact Hauth.
      cbn [fst snd store clock logged withoutEntry]. now rewrite insert_delete_eq.
    + rewrite !(computeNew_failure authenticateUser _ _ _ finished m) by exact Hauth.
      cbn [fst snd store clock logged withoutEntry]. now rewrite insert_delete_eq.
Qed.

(** C4. [validToken] never throws. It returns false exactly when the
    token does not decode, or its payload has an [exp] before now, or
    an [nbf] after now; a payload with neither claim is valid. *)
Theorem validToken_decides token w :
  validToken jwtDecode token w
  = (Return (validAt jwtDecode (clock w) token), logged w [ValidToken token])
  /\ (validAt jwtDecode (clock w) token = false <->
      jwtDecode token = None
      \/ (exists data e,
            jwtDecode token = Some data /\ exp data = Some e /\ (e < seconds (clock w))%Q)
      \/ (exists data n,
            jwtDecode token = Some data /\ nbf data = Some n /\ (seconds (clock w) < n)%Q))
  /\ (forall data,
        jwtDecode token = Some data -> exp data = None -> nbf data = None ->
        validAt jwtDecode (clock w) token = true).
Proof.
  split; [apply validToken_eq|]. rewrite validAt_spec. split.
  - destruct (jwtDecode token) as [data|]; [|tauto]. split.
    + intros H. right.
      destruct (exp data) as [e|] eqn:He.
      * destruct (Qltb e (seconds (clock w))) eqn:Hlt.
        -- left. exists data, e. apply Qltb_lt in Hlt. auto.
        -- destruct (nbf data) as [n|] eqn:Hn; [|discriminate].
           destruct (Qltb (seconds (clock w)) n) eqn:Hlt'; [|discriminate].
           right. exists data, n. apply Qltb_lt in Hlt'. auto.
      * destruct (nbf data) as [n|] eqn:Hn; [|discriminate].
        destruct (Qltb (seconds (clock w)) n) eqn:Hlt'; [|discriminate].
        right. exists data, n. apply Qltb_lt in Hlt'. auto.
    + intros [H|[(d & e & Hd & He & Hlt)|(d & n & Hd & Hn & Hlt)]]; [discriminate| |].
      * injection Hd as <-. apply Qltb_lt in Hlt. now rewrite He, Hlt.
      * injection Hd as <-. apply Qltb_lt in Hlt. rewrite Hn, Hlt.
        now destruct (match exp data with Some e => _ | None => _ end).
  - intros data Hd He Hn. now rewrite Hd, He, Hn.
Qed.

(** C9. The comparisons are strict: an [exp] equal to now does not
    expire the token, and an [nbf] equal to now does not hold it
    back. *)
Theorem validToken_boundary now token data :
  jwtDecode token = Some data ->
  (forall e,
      exp data = Some e -> (e == seconds now)%Q ->
      match nbf data with Some n => (n <= seconds now)%Q | None => True end ->
      validAt jwtDecode now token = true)
  /\ (forall n,
        nbf data = Some n -> (n == seconds now)%Q ->
        match exp data with Some e => (seconds now <= e)%Q | None => True end ->
        validAt jwtDecode now token = true).
Proof.
  intros Hd. rewrite validAt_spec, Hd. split.
  - intros e He Heq Hn. rewrite He.
    assert (Hge : Qltb e (seconds now) = false).
    { apply Qltb_ge. rewrite Heq. apply Qle_refl. }
    rewrite Hge. destruct (nbf data) as [n|]; [|reflexivity].
    apply Qltb_ge in Hn. now rewrite Hn.
  - intros n Hn Heq He. rewrite Hn.
    assert (Hge : Qltb (seconds now) n = false).
    { apply Qltb_ge. rewrite Heq. apply Qle_refl. }
    rewrite Hge. destruct (exp data) as [e|]; [|reflexivity].
    apply Qltb_ge in He. now rewrite He.
Qed.

(** C7. When one of the five mandatory arguments is missing, the run
    throws an error that names the first one missing and touches
    neither the store nor the network: the world is as it was. When
    all five are there and the token type is not set, the run is the
    run for the token type ["access"]. *)
Theorem run_validation a w :
  (validated a = false ->
   exists before name v after,
     requiredFields a = before ++ (name, v) :: after /\
     forallb (fun f => truthy (snd f)) before = true /\
     truthy v = false /\
     run jwtDecode authenticateUser a w
     = (Throw (Error (name +:+ " attribute is required")), w))
  /\ (validated a = true -> truthy (TokenType a) = false ->
      TokenType (credentialSet a) = Some "access" /\
      run jwtDecode authenticateUser a w
      = run jwtDecode authenticateUser (withTokenType (Some "access") a) w).
Proof.
  split.
  - unfold validated, requiredFields, run. cbn [forallb snd]. intros H.
    destruct (truthy (Username a)) eqn:H1.
    2:{ exists [], "Username", (Username a), (tl (requiredFields a)). now repeat split. }
    destruct (truthy (Password a)) eqn:H2.
    2:{ exists [("Username", Username a)], "Password", (Password a),
          (tl (tl (requiredFields a))).
        repeat split; cbn [forallb snd]; now rewrite ?H1. }
    destruct (truthy (Region a)) eqn:H3.
    2:{ exists [("Username", Username a); ("Password", Password a)], "Region", (Region a),
          (tl (tl (tl (requiredFields a)))).
        repeat split; cbn [forallb snd]; now rewrite ?H1, ?H2. }
    destruct (truthy (ClientId a)) eqn:H4.
    2:{ exists [("Username", Username a); ("Password", Password a); ("Region", Region a)],
          "ClientId", (ClientId a), (tl (tl (tl (tl (requiredFields a))))).
        repeat split; cbn [forallb snd]; now rewrite ?H1, ?H2, ?H3. }
    destruct (truthy (UserPoolId a)) eqn:H5; [discriminate|].
    exists [("Username", Username a); ("Password", Password a); ("Region", Region a);
            ("ClientId", ClientId a)], "UserPoolId", (UserPoolId a), [].
    repeat split; cbn [forallb snd]; now rewrite ?H1, ?H2, ?H3, ?H4.
  - intros Hv Ht. split.
    + unfold credentialSet. cbn [TokenType]. now rewrite Ht.
    + assert (E : credentialSet (withTokenType (Some "access") a) = credentialSet a).
      { unfold credentialSet, withTokenType. cbn. now rewrite Ht. }
      unfold run. rewrite E. reflexivity.
Qed.

(** C8. An empty string in the cache is a missing entry: the run is
    the run with the entry removed, the validity check is not called
    on it, and the handshake is made. *)
Theorem run_empty_entry a w :
  validated a = true ->
  store w !! cacheKey (credentialSet a) = Some "" ->
  (exists result stored,
      run jwtDecode authenticateUser a w
      = (Return result,
         {| store := <[cacheKey (credentialSet a) := stored]> (store w);
            clock := fst (authenticateUser (UserPoolId a) (ClientId a) (Username a)
                            (Password a) (clock w));
            trace := trace w ++ [GetItem (cacheKey (credentialSet a));
                                 Authenticate (credentialSet a);
                                 SetItem (cacheKey (credentialSet a)) stored] |}))
  /\ (let r := run jwtDecode authenticateUser a w in
      let r0 := run jwtDecode authenticateUser a
                  (withoutEntry (cacheKey (credentialSet a)) w) in
      fst r = fst r0 /\ store (snd r) = store (snd r0) /\ clock (snd r) = clock (snd r0)
      /\ trace (snd r) = trace (snd r0)).
Proof.
  intros Hv Hget.
  assert (Hmiss : cacheHit jwtDecode (clock w) (store w !! cacheKey (credentialSet a)) = false)
    by now rewrite Hget.
  assert (Hmiss0 : cacheHit jwtDecode (clock (withoutEntry (cacheKey (credentialSet a)) w))
                     (store (withoutEntry (cacheKey (credentialSet a)) w)
                        !! cacheKey (credentialSet a)) = false).
  { cbn [withoutEntry store clock]. now rewrite lookup_delete_eq. }
  cbv zeta. rewrite (run_miss _ _ _ _ Hv Hmiss), (run_miss _ _ _ _ Hv Hmiss0).
  cbn [withoutEntry store]. rewrite Hget, lookup_delete_eq.
  destruct (authenticateUser (UserPoolId a) (ClientId a) (Username a) (Password a) (clock w))
    as [finished [session|[m]]] eqn:Hauth.
  - rewrite !(computeNew_success authenticateUser _ _ _ finished session) by exact Hauth.
    cbn [fst snd store clock trace logged withoutEntry app checkEvents truthy String.eqb negb].
    split; [|now rewrite insert_delete_eq].
    eexists _, _. rewrite <- app_assoc. reflexivity.
  - rewrite !(computeNew_failure authenticateUser _ _ _ finished m) by exact Hauth.
    cbn [fst snd store clock trace logged withoutEntry app checkEvents truthy String.eqb negb].
    split; [|now rewrite insert_delete_eq].
    eexists _, _. rewrite <- app_assoc. reflexivity.
Qed.
End Claims.

(** C5. For every message and call time, [errorToken] returns a token
    of two segments that jwt-decode reads back as a payload with that
    message as [error], the call time plus sixty seconds as [exp] and
    no [nbf]; [validToken] accepts the token 59 seconds after the call
    and rejects it 61 seconds after. The message is any string, and the
    call time any time value. The sum is the one the code makes, of
    Numbers: [Date.now() / 1000 + 60], which is within a millisecond
    of the sum of the reals. *)
Theorem errorToken_expires message w :
  isString message = true ->
  Number.timeValue (clock w) ->
  let token := errorTokenAt (clock w) message in
  let expiry := Number.add (seconds (clock w)) 60 in
  errorToken message w = (Return token, w)
  /\ (exists header payload, split "." token = [header; payload])
  /\ JwtDecode.jwtDecode token
     = Some {| exp := Some expiry; nbf := None; error := Some message |}
  /\ (- (1 # 1024) <= expiry - (inject_Z (clock w) / 1000 + 60) <= 1 # 1024)%Q
  /\ validAt JwtDecode.jwtDecode (clock w + 59000) token = true
  /\ validAt JwtDecode.jwtDecode (clock w + 61000) token = false.
Proof.
  intros Hm Hnow. cbv zeta. split; [apply errorToken_eq|]. split.
  { rewrite errorTokenAt_segments, split_two_segments. eauto. }
  pose proof (jwtDecode_errorToken (clock w) message Hm) as Hdec.
  split; [exact Hdec|]. split; [now apply expiry_near|].
  rewrite !validAt_spec, Hdec. cbn [exp nbf].
  destruct (expiry_window (clock w) (clock w + 59000) Hnow) as [H59 _].
  destruct (expiry_window (clock w) (clock w + 61000) Hnow) as [_ H61].
  rewrite H59, H61 by lia. split; reflexivity.
Qed.

(** The text of a cache key. *)
Lemma cacheKey_text d :
  cacheKey d
  = elementText (Username d) +:+ "::" +:+ elementText (Password d) +:+ "::"
    +:+ elementText (Region d) +:+ "::" +:+ elementText (ClientId d) +:+ "::"
    +:+ elementText (UserPoolId d) +:+ "::" +:+ elementText (TokenType d) +:+ "::"
    +:+ elementText (ClientSecret d).
Proof. reflexivity. Qed.

Lemma truthy_elementText v1 v2 :
  truthy v1 = true -> truthy v2 = true -> elementText v1 = elementText v2 -> v1 = v2.
Proof.
  destruct v1 as [s1|], v2 as [s2|]; try discriminate.
  intros _ _ H. change (s1 = s2) in H. now subst.
Qed.

(** After lines 114-116 there is a token type. *)
Lemma credentialSet_tokenType a : truthy (TokenType (credentialSet a)) = true.
Proof.
  unfold credentialSet. cbn [TokenType].
  destruct (truthy (TokenType a)) eqn:E; [exact E|reflexivity].
Qed.

(** C6. The cache key is a function of the seven fields: equal fields
    give equal keys. And the keys two runs use differ when their
    credential sets - the arguments, the token type defaulted - differ
    in the token type alone. *)
Theorem cacheKey_separates_token_types :
  (forall d1 d2,
      Username d1 = Username d2 -> Password d1 = Password d2 -> Region d1 = Region d2 ->
      ClientId d1 = ClientId d2 -> UserPoolId d1 = UserPoolId d2 ->
      TokenType d1 = TokenType d2 -> ClientSecret d1 = ClientSecret d2 ->
      cacheKey d1 = cacheKey d2)
  /\ (forall a1 a2,
        Username a1 = Username a2 -> Password a1 = Password a2 -> Region a1 = Region a2 ->
        ClientId a1 = ClientId a2 -> UserPoolId a1 = UserPoolId a2 ->
        ClientSecret a1 = ClientSecret a2 ->
        TokenType (credentialSet a1) <> TokenType (credentialSet a2) ->
        cacheKey (credentialSet a1) <> cacheKey (credentialSet a2)).
Proof.
  split.
  - intros d1 d2 H1 H2 H3 H4 H5 H6 H7. unfold cacheKey, keyFields. congruence.
  - intros a1 a2 H1 H2 H3 H4 H5 H7 Hne Hk. apply Hne.
    rewrite !cacheKey_text in Hk. cbn [credentialSet Username Password Region ClientId
                                        UserPoolId ClientSecret] in Hk.
    rewrite H1, H2, H3, H4, H5, H7 in Hk.
    repeat (apply string_app_inv_head in Hk).
    apply (string_app_inv_tail ("::" +:+ elementText (ClientSecret a2))) in Hk.
    apply truthy_elementText; auto using credentialSet_tokenType.
Qed.

Lemma truthy_elementTexts l1 : forall l2,
  forallb truthy l1 = true -> forallb truthy l2 = true ->
  map elementText l1 = map elementText l2 -> l1 = l2.
Proof.
  induction l1 as [|v1 l1 IH]; intros [|v2 l2] H1 H2 Hmap; try discriminate; [reflexivity|].
  cbn [forallb] in H1, H2. apply andb_true_iff in H1 as [Hv1 H1], H2 as [Hv2 H2].
  cbn [map] in Hmap. injection Hmap as Hv Hl.
  f_equal; [now apply truthy_elementText|now apply IH].
Qed.

(** C10, amended. Among credential sets whose first six fields hold no
    ["::"] and do not end in [":"], the cache key is injective: equal
    keys come only from fields that print alike, an absent field
    printing as the empty string; and the first six fields, when they
    are all set as they are at line 118, are then the same. *)
Theorem cacheKey_injective d1 d2 :
  forallb plainField (separatedFields d1) = true ->
  forallb plainField (separatedFields d2) = true ->
  cacheKey d1 = cacheKey d2 ->
  map elementText (keyFields d1) = map elementText (keyFields d2)
  /\ (forallb truthy (separatedFields d1) = true ->
      forallb truthy (separatedFields d2) = true ->
      separatedFields d1 = separatedFields d2).
Proof.
  intros H1 H2 Hk.
  assert (Hprint : map elementText (keyFields d1) = map elementText (keyFields d2)).
  { apply (join_inj_plain (separatedFields d1) (separatedFields d2)
             (ClientSecret d1) (ClientSecret d2)); auto. }
  split; [exact Hprint|]. intros Ht1 Ht2. apply truthy_elementTexts; try assumption.
  change (keyFields d1) with (separatedFields d1 ++ [ClientSecret d1]) in Hprint.
  change (keyFields d2) with (separatedFields d2 ++ [ClientSecret d2]) in Hprint.
  rewrite !map_app in Hprint. apply app_inj_tail in Hprint. tauto.
Qed.

(** * Further properties of the plugin *)

(** ** The three ways a run goes *)

(** The default of lines 114-116 never makes an id token of another. *)
Lemma strictEq_credentialSet a :
  strictEq (TokenType (credentialSet a)) "id" = strictEq (TokenType a) "id".
Proof.
  unfold credentialSet. cbn [TokenType].
  destruct (TokenType a) as [t|]; [|reflexivity].
  cbn [truthy]. now destruct (String.eqb_spec t "") as [->|].
Qed.

Section RunCases.
Variable jwtDecode : string -> option Claims.
Variable authenticateUser :
  option string -> option string -> option string -> option string -> Z ->
  Z * (AuthSession + exn).

(** Lines 136-155 never throw: whatever the handshake ends in, there is
    a value to return and a value to store. *)
Lemma computeNew_eq d key w :
  computeNew authenticateUser d key w
  = let auth := authenticateUser (UserPoolId d) (ClientId d) (Username d) (Password d)
                  (clock w) in
    (Return (answerOf d (snd auth)),
     {| store := <[key := entryOf d (fst auth) (snd auth)]> (store w);
        clock := fst auth;
        trace := trace w ++ [Authenticate d; SetItem key (entryOf d (fst auth) (snd auth))] |}).
Proof.
  cbv zeta.
  destruct (authenticateUser (UserPoolId d) (ClientId d) (Username d) (Password d) (clock w))
    as [finished [session|[m]]] eqn:Hauth.
  - now rewrite (computeNew_success authenticateUser _ _ _ finished session Hauth).
  - now rewrite (computeNew_failure authenticateUser _ _ _ finished m Hauth).
Qed.

Lemma run_miss_eq a w :
  validated a = true ->
  cacheHit jwtDecode (clock w) (store w !! cacheKey (credentialSet a)) = false ->
  run jwtDecode authenticateUser a w
  = let d := credentialSet a in
    let auth := authenticateUser (UserPoolId a) (ClientId a) (Username a) (Password a)
                  (clock w) in
    (Return (answerOf d (snd auth)),
     {| store := <[cacheKey d := entryOf d (fst auth) (snd auth)]> (store w);
        clock := fst auth;
        trace := trace w ++ [GetItem (cacheKey d)] ++ checkEvents (store w !! cacheKey d)
                   ++ [Authenticate d; SetItem (cacheKey d) (entryOf d (fst auth) (snd auth))] |}).
Proof.
  intros Hv Hmiss. rewrite run_miss by assumption. rewrite computeNew_eq.
  cbv zeta. cbn [logged store clock trace]. now rewrite <- !app_assoc.
Qed.

Lemma run_hit_eq a w :
  validated a = true ->
  cacheHit jwtDecode (clock w) (store w !! cacheKey (credentialSet a)) = true ->
  exists token data,
    store w !! cacheKey (credentialSet a) = Some token
    /\ token <> ""
    /\ validAt jwtDecode (clock w) token = true
    /\ jwtDecode token = Some data
    /\ run jwtDecode authenticateUser a w
       = (Return (if truthy (error data) then elementText (error data) else token),
          logged w [GetItem (cacheKey (credentialSet a)); ValidToken token]).
Proof.
  intros Hv Hhit. unfold cacheHit in Hhit.
  destruct (store w !! cacheKey (credentialSet a)) as [token|] eqn:Hget; [|discriminate].
  apply andb_true_iff in Hhit as [Ht Hvalid]. apply truthy_nonempty in Ht.
  destruct (validAt_decodes jwtDecode _ _ Hvalid) as (data & Hdec).
  exists token, data. split; [reflexivity|]. split; [exact Ht|]. split; [exact Hvalid|].
  split; [exact Hdec|]. now apply run_hit.
Qed.

Lemma run_invalid_eq a w :
  validated a = false ->
  exists name,
    In name (map fst (requiredFields a))
    /\ run jwtDecode authenticateUser a w
       = (Throw (Error (name +:+ " attribute is required")), w).
Proof.
  unfold validated, requiredFields, run. cbn [forallb snd map fst]. intros H.
  destruct (truthy (Username a)); [|exists "Username"; split; [cbn; auto 10|reflexivity]].
  destruct (truthy (Password a)); [|exists "Password"; split; [cbn; auto 10|reflexivity]].
  destruct (truthy (Region a)); [|exists "Region"; split; [cbn; auto 10|reflexivity]].
  destruct (truthy (ClientId a)); [|exists "ClientId"; split; [cbn; auto 10|reflexivity]].
  destruct (truthy (UserPoolId a)); [discriminate|].
  exists "UserPoolId". split; [cbn; auto 10|reflexivity].
Qed.

(** The calls a miss makes. *)
Lemma handshakes_miss key cached d entry :
  handshakes ([GetItem key] ++ checkEvents cached ++ [Authenticate d; SetItem key entry])
  = [d].
Proof.
  unfold checkEvents. destruct cached as [t|]; [|reflexivity].
  now destruct (truthy (Some t)).
Qed.

Lemma writes_miss key cached d entry :
  writes ([GetItem key] ++ checkEvents cached ++ [Authenticate d; SetItem key entry])
  = [(key, entry)].
Proof.
  unfold checkEvents. destruct cached as [t|]; [|reflexivity].
  now destruct (truthy (Some t)).
Qed.
End RunCases.

(** ** What a run does and does not do *)

Section RunProperties.
Variable jwtDecode : string -> option Claims.
Variable authenticateUser :
  option string -> option string -> option string -> option string -> Z ->
  Z * (AuthSession + exn).

(** X1. The only thing [run] ever throws is a missing mandatory
    argument: with the five of them there it returns a value, whatever
    the cache holds and whatever the handshake ends in; with one of
    them missing it throws. *)
Theorem run_throws_iff_invalid a w :
  (exists e, fst (run jwtDecode authenticateUser a w) = Throw e) <-> validated a = false.
Proof.
  destruct (validated a) eqn:Hv; split; try discriminate; try reflexivity.
  - intros [e He]. exfalso.
    destruct (cacheHit jwtDecode (clock w) (store w !! cacheKey (credentialSet a))) eqn:Hc.
    + destruct (run_hit_eq jwtDecode authenticateUser a w Hv Hc)
        as (token & data & _ & _ & _ & _ & Hrun).
      rewrite Hrun in He. discriminate.
    + rewrite (run_miss_eq jwtDecode authenticateUser a w Hv Hc) in He. discriminate.
  - intros _. destruct (run_invalid_eq jwtDecode authenticateUser a w Hv) as (name & _ & Hrun).
    rewrite Hrun. eauto.
Qed.

(** X2. [run] leaves every entry of the store other than the one under
    its own key as it was. *)
Theorem run_keeps_other_entries a w k :
  k <> cacheKey (credentialSet a) ->
  store (snd (run jwtDecode authenticateUser a w)) !! k = store w !! k.
Proof.
  intros Hk. destruct (validated a) eqn:Hv.
  - destruct (cacheHit jwtDecode (clock w) (store w !! cacheKey (credentialSet a))) eqn:Hc.
    + destruct (run_hit_eq jwtDecode authenticateUser a w Hv Hc)
        as (token & data & _ & _ & _ & _ & Hrun).
      now rewrite Hrun.
    + rewrite (run_miss_eq jwtDecode authenticateUser a w Hv Hc).
      cbn [snd store]. apply lookup_insert_ne. congruence.
  - destruct (run_invalid_eq jwtDecode authenticateUser a w Hv) as (name & _ & Hrun).
    now rewrite Hrun.
Qed.

(** X3. Of the store, [run] reads the entry under its own key and
    nothing else: started at the same time in two stores that agree
    there, it returns the same value, leaves the same entry under the
    key and ends at the same time. *)
Theorem run_reads_own_entry a w1 w2 :
  store w1 !! cacheKey (credentialSet a) = store w2 !! cacheKey (credentialSet a) ->
  clock w1 = clock w2 ->
  fst (run jwtDecode authenticateUser a w1) = fst (run jwtDecode authenticateUser a w2)
  /\ store (snd (run jwtDecode authenticateUser a w1)) !! cacheKey (credentialSet a)
     = store (snd (run jwtDecode authenticateUser a w2)) !! cacheKey (credentialSet a)
  /\ clock (snd (run jwtDecode authenticateUser a w1))
     = clock (snd (run jwtDecode authenticateUser a w2)).
Proof.
  intros Hs Hc. destruct (validated a) eqn:Hv.
  - destruct (cacheHit jwtDecode (clock w1) (store w1 !! cacheKey (credentialSet a))) eqn:H1.
    + assert (H2 : cacheHit jwtDecode (clock w2) (store w2 !! cacheKey (credentialSet a)) = true)
        by now rewrite <- Hs, <- Hc.
      destruct (run_hit_eq jwtDecode authenticateUser a w1 Hv H1)
        as (t1 & d1 & Hg1 & _ & _ & Hd1 & Hrun1).
      destruct (run_hit_eq jwtDecode authenticateUser a w2 Hv H2)
        as (t2 & d2 & Hg2 & _ & _ & Hd2 & Hrun2).
      assert (t1 = t2) by congruence. subst t2.
      assert (d1 = d2) by congruence. subst d2.
      rewrite Hrun1, Hrun2. cbn [fst snd logged store clock]. auto.
    + assert (H2 : cacheHit jwtDecode (clock w2) (store w2 !! cacheKey (credentialSet a)) = false)
        by now rewrite <- Hs, <- Hc.
      rewrite (run_miss_eq jwtDecode authenticateUser a w1 Hv H1),
        (run_miss_eq jwtDecode authenticateUser a w2 Hv H2).
      cbv zeta. cbn [fst snd store clock]. rewrite !lookup_insert_eq, Hc. auto.
  - unfold validated, requiredFields in Hv. cbn [forallb snd] in Hv. unfold run.
    destruct (truthy (Username a)); [|cbn [negb]; cbn; auto].
    destruct (truthy (Password a)); [|cbn [negb]; cbn; auto].
    destruct (truthy (Region a)); [|cbn [negb]; cbn; auto].
    destruct (truthy (ClientId a)); [|cbn [negb]; cbn; auto].
    destruct (truthy (UserPoolId a)); [discriminate|cbn [negb]; cbn; auto].
Qed.

(** X4. A run makes at most one handshake, and it writes to the store
    exactly when it has made one: once, under its own key, the value
    the store then holds there. Without a handshake the store is as it
    was. *)
Theorem run_writes_after_handshake a w :
  exists events,
    trace (snd (run jwtDecode authenticateUser a w)) = trace w ++ events
    /\ (length (handshakes events) <= 1)%nat
    /\ length (writes events) = length (handshakes events)
    /\ (forall k v,
          In (k, v) (writes events) ->
          k = cacheKey (credentialSet a)
          /\ store (snd (run jwtDecode authenticateUser a w)) !! k = Some v)
    /\ (handshakes events = [] -> store (snd (run jwtDecode authenticateUser a w)) = store w).
Proof.
  destruct (validated a) eqn:Hv.
  - destruct (cacheHit jwtDecode (clock w) (store w !! cacheKey (credentialSet a))) eqn:Hc.
    + destruct (run_hit_eq jwtDecode authenticateUser a w Hv Hc)
        as (token & data & _ & _ & _ & _ & Hrun).
      rewrite Hrun. eexists. cbn [snd logged trace store]. split; [reflexivity|].
      cbn. repeat split; auto; contradiction.
    + rewrite (run_miss_eq jwtDecode authenticateUser a w Hv Hc).
      cbv zeta. eexists. cbn [snd trace store]. split; [reflexivity|].
      rewrite handshakes_miss, writes_miss. cbn [length]. split; [lia|]. split; [reflexivity|].
      split; [|discriminate].
      intros k v [E|[]]. injection E as <- <-. split; [reflexivity|apply lookup_insert_eq].
  - destruct (run_invalid_eq jwtDecode authenticateUser a w Hv) as (name & _ & Hrun).
    rewrite Hrun. exists []. cbn [snd]. rewrite app_nil_r. cbn.
    repeat split; auto; contradiction.
Qed.

(** X5. What a successful run has stored is what the next run returns:
    when the handshake gave a token that is not empty, that the
    validity check accepts at the time of a later run and that carries
    no [error] claim, and the entry is still there, the later run
    returns that token and makes no handshake. *)
Theorem run_reuses_stored_token a w finished session w' :
  validated a = true ->
  cacheHit jwtDecode (clock w) (store w !! cacheKey (credentialSet a)) = false ->
  authenticateUser (UserPoolId a) (ClientId a) (Username a) (Password a) (clock w)
  = (finished, inl session) ->
  store w' !! cacheKey (credentialSet a)
  = store (snd (run jwtDecode authenticateUser a w)) !! cacheKey (credentialSet a) ->
  sessionToken (credentialSet a) session <> "" ->
  validAt jwtDecode (clock w') (sessionToken (credentialSet a) session) = true ->
  (forall data, jwtDecode (sessionToken (credentialSet a) session) = Some data ->
                error data = None) ->
  fst (run jwtDecode authenticateUser a w) = Return (sessionToken (credentialSet a) session)
  /\ run jwtDecode authenticateUser a w'
     = (Return (sessionToken (credentialSet a) session),
        logged w' [GetItem (cacheKey (credentialSet a));
                   ValidToken (sessionToken (credentialSet a) session)]).
Proof.
  intros Hv Hmiss Hauth Hs Hne Hvalid Herr.
  rewrite (run_miss_eq jwtDecode authenticateUser a w Hv Hmiss) in Hs |- *.
  cbv zeta in Hs |- *. rewrite Hauth in Hs |- *.
  cbn [fst snd store answerOf entryOf] in Hs |- *.
  rewrite lookup_insert_eq in Hs. split; [reflexivity|].
  destruct (validAt_decodes jwtDecode _ _ Hvalid) as (data & Hdec).
  rewrite (run_hit jwtDecode authenticateUser a w' _ data Hv Hs Hne Hvalid Hdec).
  now rewrite (Herr data Hdec).
Qed.

(** X6. On a miss, what [run] returns depends on the user name, the
    password, the client id, the user pool id, on whether the token
    type is ["id"], and on the time; the region and the client secret
    go into the key and into nothing else. *)
Theorem run_ignores_region_and_secret a1 a2 w1 w2 :
  validated a1 = true -> validated a2 = true ->
  Username a1 = Username a2 -> Password a1 = Password a2 ->
  ClientId a1 = ClientId a2 -> UserPoolId a1 = UserPoolId a2 ->
  strictEq (TokenType a1) "id" = strictEq (TokenType a2) "id" ->
  cacheHit jwtDecode (clock w1) (store w1 !! cacheKey (credentialSet a1)) = false ->
  cacheHit jwtDecode (clock w2) (store w2 !! cacheKey (credentialSet a2)) = false ->
  clock w1 = clock w2 ->
  fst (run jwtDecode authenticateUser a1 w1) = fst (run jwtDecode authenticateUser a2 w2)
  /\ clock (snd (run jwtDecode authenticateUser a1 w1))
     = clock (snd (run jwtDecode authenticateUser a2 w2)).
Proof.
  intros Hv1 Hv2 Hu Hp Hc Hpool Ht Hm1 Hm2 Hclock.
  rewrite (run_miss_eq jwtDecode authenticateUser a1 w1 Hv1 Hm1),
    (run_miss_eq jwtDecode authenticateUser a2 w2 Hv2 Hm2).
  cbv zeta. cbn [fst snd clock]. rewrite Hu, Hp, Hc, Hpool, Hclock.
  split; [|reflexivity]. f_equal.
  destruct (snd (authenticateUser (UserPoolId a2) (ClientId a2) (Username a2) (Password a2)
                   (clock w2))) as [session|err]; [|reflexivity].
  unfold answerOf, sessionToken. now rewrite !strictEq_credentialSet, Ht.
Qed.

(** X7. The cache tells two credential sets apart by their keys alone:
    when the keys of two runs are the same and the entry under it is
    usable, both runs return the same value, the token or the error
    claim of the one entry, and neither makes a handshake. *)
Theorem run_hit_by_key a1 a2 w :
  validated a1 = true -> validated a2 = true ->
  cacheKey (credentialSet a1) = cacheKey (credentialSet a2) ->
  cacheHit jwtDecode (clock w) (store w !! cacheKey (credentialSet a1)) = true ->
  run jwtDecode authenticateUser a1 w = run jwtDecode authenticateUser a2 w
  /\ handshakes (trace (snd (run jwtDecode authenticateUser a2 w))) = handshakes (trace w).
Proof.
  intros Hv1 Hv2 Hk Hhit.
  destruct (run_hit_eq jwtDecode authenticateUser a1 w Hv1 Hhit)
    as (t1 & d1 & Hg1 & _ & _ & Hd1 & Hrun1).
  rewrite Hk in Hhit.
  destruct (run_hit_eq jwtDecode authenticateUser a2 w Hv2 Hhit)
    as (t2 & d2 & Hg2 & _ & _ & Hd2 & Hrun2).
  rewrite Hk in Hg1. assert (t1 = t2) by congruence. subst t2.
  assert (d1 = d2) by congruence. subst d2.
  rewrite Hrun1, Hrun2, Hk. split; [reflexivity|].
  cbn [snd logged trace]. unfold handshakes. rewrite flat_map_app. cbn. apply app_nil_r.
Qed.

(** X8. The times at which [validToken] accepts a token have no gap:
    a token accepted at two times is accepted at every time between
    them. *)
Theorem validToken_interval token t1 t2 t3 :
  validAt jwtDecode t1 token = true ->
  validAt jwtDecode t3 token = true ->
  (t1 <= t2 <= t3)%Z ->
  validAt jwtDecode t2 token = true.
Proof.
  rewrite !validAt_spec. destruct (jwtDecode token) as [data|]; [|discriminate].
  intros H1 H3 [H12 H23].
  apply seconds_le in H12, H23.
  assert (He : match exp data with Some e => Qltb e (seconds t2) | None => false end = false).
  { destruct (exp data) as [e|]; [|reflexivity].
    destruct (Qltb e (seconds t3)) eqn:E3; [discriminate|].
    apply Qltb_ge in E3. apply Qltb_ge. now apply Qle_trans with (seconds t3). }
  rewrite He.
  assert (Hn : match nbf data with Some n => Qltb (seconds t2) n | None => false end = false).
  { destruct (nbf data) as [n|]; [|reflexivity].
    destruct (match exp data with Some e => Qltb e (seconds t1) | None => false end);
      [discriminate|].
    destruct (Qltb (seconds t1) n) eqn:E1; [discriminate|].
    apply Qltb_ge in E1. apply Qltb_ge. now apply Qle_trans with (seconds t1). }
  now rewrite Hn.
Qed.
End RunProperties.

(** ** The encoding of tokens *)

Lemma length_explode s : length (explode s) = String.length s.
Proof. induction s as [|c s IH]; [reflexivity|]. cbn. now rewrite IH. Qed.

(** What [base64url] comes to: the characters of [stringify], the two
    of them that a URL cannot carry replaced, and no padding. *)
Lemma base64url_eq bytes :
  base64url bytes
  = implode (replaceAll "/" "_" (replaceAll "+" "-" (Base64.base64Chars bytes))).
Proof.
  destruct (Base64Facts.base64Chars_spec bytes) as (sx & Hs & Hb & Hp & Hl).
  unfold base64url, Base64.stringify.
  now rewrite !explode_implode, Base64Facts.dropTrailing_plain by assumption.
Qed.

Lemma base64Char_length t j : length (Base64.base64Char t j) = 1%nat.
Proof. now destruct (Base64Facts.base64Char_spec t j) as (c & -> & _). Qed.

Lemma base64Chars_length bytes :
  length (Base64.base64Chars bytes) = ((4 * length bytes + 2) / 3)%nat.
Proof.
  induction bytes as [|b1|b1 b2|b1 b2 b3 rest IH] using Base64Facts.list_ind3.
  - reflexivity.
  - cbn [Base64.base64Chars]. now rewrite !length_app, !base64Char_length.
  - cbn [Base64.base64Chars]. now rewrite !length_app, !base64Char_length.
  - cbn [Base64.base64Chars]. rewrite !length_app, !base64Char_length, IH.
    cbn [length].
    replace (4 * S (S (S (length rest))) + 2)%nat with (4 * length rest + 2 + 4 * 3)%nat by lia.
    rewrite Nat.div_add by lia. lia.
Qed.

Lemma sextets_indexOf l : forall sx c,
  Base64.sextets l = Some sx -> In c l -> exists k, Base64.indexOf c = Some k.
Proof.
  induction l as [|a l IH]; intros sx c Hs Hc; [contradiction|].
  cbn [Base64.sextets] in Hs.
  destruct (Base64.indexOf a) as [k|] eqn:Ha; [|discriminate].
  destruct (Base64.sextets l) as [ks|]; [|discriminate].
  destruct Hc as [<-|Hc]; [eauto|]. now apply (IH ks).
Qed.

Lemma urlSafe_replaced c k :
  Base64.indexOf c = Some k ->
  urlSafe (if Ascii.eqb (if Ascii.eqb c "+" then "-"%char else c) "/" then "_"%char
           else if Ascii.eqb c "+" then "-"%char else c) = true.
Proof.
  destruct c as [[] [] [] [] [] [] [] []]; vm_compute; congruence.
Qed.


(** [includes]: a text is found at the front, after a prefix, and in
    itself. *)
Lemma includes_eq sub s :
  includes sub s
  = startsWith sub s || match s with EmptyString => false | String _ s' => includes sub s' end.
Proof. now destruct s. Qed.

Lemma startsWith_app p y : startsWith p (p +:+ y) = true.
Proof.
  induction p as [|c p IH]; [reflexivity|].
  rewrite app_String. cbn [startsWith]. now rewrite Ascii.eqb_refl, IH.
Qed.

Lemma includes_front p y : includes p (p +:+ y) = true.
Proof. now rewrite includes_eq, startsWith_app. Qed.

Lemma includes_after p x s : includes p s = true -> includes p (x +:+ s) = true.
Proof.
  intros H. induction x as [|c x IH]; [exact H|].
  rewrite app_String, includes_eq, IH. apply orb_true_r.
Qed.

Lemma includes_self p : includes p p = true.
Proof.
  rewrite <- (includes_front p "") at 1. f_equal.
  induction p as [|c p IH]; [reflexivity|]. now rewrite app_String, <- IH.
Qed.

(** X9. [base64url] writes in the URL alphabet only: letters, digits,
    [-] and [_]; no [+], no [/], no padding, no dot. *)
Theorem base64url_alphabet bytes : forallb urlSafe (explode (base64url bytes)) = true.
Proof.
  destruct (Base64Facts.base64Chars_spec bytes) as (sx & Hs & _).
  rewrite base64url_eq, explode_implode. unfold replaceAll. rewrite map_map.
  apply forallb_forall. intros c Hc. apply in_map_iff in Hc as (c0 & <- & Hc0).
  destruct (sextets_indexOf _ _ _ Hs Hc0) as (k & Hk). exact (urlSafe_replaced c0 k Hk).
Qed.

(** X10. [base64url] gives four characters for three bytes and two or
    three for a last one or two: ceil(4n/3) characters for n bytes. *)
Theorem base64url_length bytes :
  String.length (base64url bytes) = ((4 * length bytes + 2) / 3)%nat.
Proof.
  rewrite <- length_explode, base64url_eq, explode_implode.
  unfold replaceAll. now rewrite !length_map, base64Chars_length.
Qed.

(** X11. [base64url] loses nothing. The decoder of jwt-decode gives
    back the text that the bytes are the UTF-8 form of; for bytes that
    are no such form it falls back on [atob] alone, and gives one
    character for each byte; and two sequences of bytes with one
    encoding are the same. *)
Theorem base64url_lossless :
  (forall bytes,
      Utf8.wellFormed bytes = true ->
      JwtDecode.base64_url_decode (base64url bytes) = Some (implode bytes))
  /\ (forall bytes,
        Utf8.wellFormed bytes = false ->
        JwtDecode.base64_url_decode (base64url bytes) = Some (JwtDecode.binaryString bytes))
  /\ (forall bytes1 bytes2, base64url bytes1 = base64url bytes2 -> bytes1 = bytes2).
Proof.
  split; [|split].
  - intros bytes H. now rewrite Base64Facts.base64_url_decode_base64url, H.
  - intros bytes H. now rewrite Base64Facts.base64_url_decode_base64url, H.
  - intros b1 b2 H.
    destruct (Base64Facts.atob_base64url b1) as (o1 & Hp1 & Ha1).
    destruct (Base64Facts.atob_base64url b2) as (o2 & Hp2 & Ha2).
    rewrite H, Hp2 in Hp1. injection Hp1 as <-. congruence.
Qed.

(** X12. The validity check accepts an error token for one minute. At
    the time [t] it accepts exactly when [t / 1000] is no more than the
    expiry [now / 1000 + 60], both of them Numbers. For a token built
    at a time value that is so at every time up to 59.998 seconds
    after it was built, and at no time from 60.002 seconds after it
    on; in between, the rounding of the Numbers decides. *)
Theorem errorToken_window now message t :
  isString message = true ->
  (validAt JwtDecode.jwtDecode t (errorTokenAt now message) = true
   <-> (seconds t <= Number.add (seconds now) 60)%Q)
  /\ (Number.timeValue now ->
      ((t <= now + 59998)%Z ->
       validAt JwtDecode.jwtDecode t (errorTokenAt now message) = true)
      /\ ((now + 60002 <= t)%Z ->
          validAt JwtDecode.jwtDecode t (errorTokenAt now message) = false)).
Proof.
  intros Hm. rewrite validAt_spec, (jwtDecode_errorToken now message Hm). cbn [exp nbf].
  split.
  - rewrite <- Qltb_ge. now destruct (Qltb _ _).
  - intros Hnow. destruct (expiry_window now t Hnow) as [Hin Hout].
    split; intros Ht; [now rewrite Hin|now rewrite Hout].
Qed.

(** X13. An error token tells its message and its expiry, and nothing
    more: two of them are the same exactly when their messages are
    the same and their expiries are. The time a token was built at is
    not told: two readings of the clock with one expiry give one
    token. *)
Theorem errorToken_injective now1 message1 now2 message2 :
  isString message1 = true -> isString message2 = true ->
  errorTokenAt now1 message1 = errorTokenAt now2 message2
  <-> message1 = message2
      /\ Number.add (seconds now1) 60 = Number.add (seconds now2) 60.
Proof.
  intros H1 H2. split.
  - intros H.
    pose proof (jwtDecode_errorToken now1 message1 H1) as Hd1.
    pose proof (jwtDecode_errorToken now2 message2 H2) as Hd2.
    rewrite H, Hd2 in Hd1. injection Hd1 as He Hm. auto.
  - intros [-> He]. rewrite !errorTokenAt_segments. now rewrite He.
Qed.

Section CachedAnswers.
Variable authenticateUser :
  option string -> option string -> option string -> option string -> Z ->
  Z * (AuthSession + exn).

(** The message of a failure is a JavaScript string. *)
Hypothesis failure_message :
  forall pool client name password started finished m,
    authenticateUser pool client name password started = (finished, inr (Error m)) ->
    isString m = true.


(** X15. What [run] returns can be read off the cache afterwards: with
    the five mandatory arguments there, there is then an entry under
    the key, and the value returned is that entry or the [error] claim
    jwt-decode finds in it. (The message of a failure is a string, as
    the section has it.) *)
Theorem run_answer_is_cached a w :
  validated a = true ->
  exists result entry,
    fst (run JwtDecode.jwtDecode authenticateUser a w) = Return result
    /\ store (snd (run JwtDecode.jwtDecode authenticateUser a w)) !! cacheKey (credentialSet a)
       = Some entry
    /\ (result = entry
        \/ exists data, JwtDecode.jwtDecode entry = Some data /\ error data = Some result).
Proof.
  intros Hv.
  destruct (cacheHit JwtDecode.jwtDecode (clock w) (store w !! cacheKey (credentialSet a)))
    eqn:Hc.
  - destruct (run_hit_eq JwtDecode.jwtDecode authenticateUser a w Hv Hc)
      as (token & data & Hget & _ & _ & Hdec & Hrun).
    rewrite Hrun. cbn [fst snd logged store]. eexists _, token.
    split; [reflexivity|]. split; [exact Hget|].
    destruct (error data) as [r|] eqn:Herr; [|now left].
    destruct (truthy (Some r)); [|now left].
    right. exists data. now rewrite Herr.
  - rewrite (run_miss_eq JwtDecode.jwtDecode authenticateUser a w Hv Hc). cbv zeta.
    cbn [fst snd store]. rewrite lookup_insert_eq. eexists _, _.
    split; [reflexivity|]. split; [reflexivity|].
    destruct (authenticateUser (UserPoolId a) (ClientId a) (Username a) (Password a) (clock w))
      as [finished [session|[m]]] eqn:Hauth; cbn [fst snd answerOf entryOf message];
      [now left|].
    right. eexists.
    split; [apply jwtDecode_errorToken, (failure_message _ _ _ _ _ _ _ Hauth)|reflexivity].
Qed.

(** X18. A string without a dot is no token to [validToken]: with
    jwt-decode it is rejected at every time. So when such a string
    is what the cache holds, a run with its arguments there makes the
    handshake, whatever the time. *)
Theorem validToken_rejects_opaque token :
  forallb Base64.notDot (explode token) = true ->
  (forall now, validAt JwtDecode.jwtDecode now token = false)
  /\ (forall a w,
        validated a = true ->
        store w !! cacheKey (credentialSet a) = Some token ->
        handshakes (trace (snd (run JwtDecode.jwtDecode authenticateUser a w)))
        = handshakes (trace w) ++ [credentialSet a]).
Proof.
  intros Hdots.
  assert (Hinvalid : forall now, validAt JwtDecode.jwtDecode now token = false).
  { intros now. rewrite validAt_spec. unfold JwtDecode.jwtDecode, split.
    now rewrite (splitOn_plain "." _ Hdots). }
  split; [exact Hinvalid|]. intros a w Hv Hget.
  assert (Hmiss : cacheHit JwtDecode.jwtDecode (clock w)
                    (store w !! cacheKey (credentialSet a)) = false).
  { rewrite Hget. unfold cacheHit. rewrite Hinvalid. apply andb_false_r. }
  rewrite (run_miss_eq JwtDecode.jwtDecode authenticateUser a w Hv Hmiss).
  cbv zeta. cbn [snd trace]. unfold handshakes at 1. rewrite flat_map_app.
  fold (handshakes (trace w)). f_equal. apply handshakes_miss.
Qed.
End CachedAnswers.

(** X19. The key of the cache spells out every field it is made of:
    the password and the client secret can be read in it as they
    were given. *)
Theorem cacheKey_holds_fields d v :
  In v (keyFields d) -> includes (elementText v) (cacheKey d) = true.
Proof.
  unfold cacheKey. generalize (keyFields d). intros l.
  induction l as [|x [|y l] IH]; intros Hin; [contradiction| |].
  - destruct Hin as [->|[]]. apply includes_self.
  - rewrite join_cons. destruct Hin as [->|Hin]; [apply includes_front|].
    now apply includes_after, includes_after, IH.
Qed.

(** ** The template tag and its [run] *)

Lemma split_at {A} (before : list A) : forall l x after,
  l = before ++ x :: after ->
  nth_error l (length before) = Some x /\ firstn (length before) l = before.
Proof.
  induction before as [|b before IH]; intros l x after ->; [now split|].
  destruct (IH _ x after eq_refl) as [Hn Hf]. cbn [app length nth_error firstn].
  now rewrite Hn, Hf.
Qed.

Lemma required_accepts v : required v = "" <-> truthy v = true.
Proof. unfold required. destruct (truthy v); split; congruence. Qed.

Section TemplateTagProperties.
Variable jwtDecode : string -> option Claims.
Variable authenticateUser :
  option string -> option string -> option string -> option string -> Z ->
  Z * (AuthSession + exn).

(** X16. The validators of the form and the checks of [run] agree.
    Take the values of the seven arguments in their order: every
    validator accepts its value exactly when [run] finds its five
    mandatory arguments; and when some validator does not, [run]
    throws the error that names the first argument whose validator
    does not. *)
Theorem validate_agrees_with_run tag a w :
  In tag (templateTags jwtDecode authenticateUser) ->
  let shown := combine (TemplateTag.args tag) (keyFields a) in
  (validated a = true <-> forall arg v, In (arg, v) shown -> validation arg v = "")
  /\ (forall before arg v after,
        shown = before ++ (arg, v) :: after ->
        (forall arg' v', In (arg', v') before -> validation arg' v' = "") ->
        validation arg v <> "" ->
        TemplateTag.run tag a w
        = (Throw (Error (Arg.displayName arg +:+ " attribute is required")), w)).
Proof.
  intros [<-|[]]. cbv zeta. cbn [templateTags TemplateTag.args TemplateTag.run keyFields combine].
  split; [split|].
  - intros Hv arg v Hin. apply validated_fields in Hv as (H1 & H2 & H3 & H4 & H5).
    cbn [In] in Hin.
    destruct Hin as [E|[E|[E|[E|[E|[E|[E|[]]]]]]]]; injection E as <- <-;
      unfold validation; cbn [Arg.validate]; try reflexivity; now apply required_accepts.
  - intros H. unfold validated, requiredFields. cbn [forallb snd].
    rewrite !andb_true_iff.
    repeat split; try reflexivity;
      match goal with
      | |- truthy ?v = true =>
          apply required_accepts;
          refine (H {| Arg.displayName := _; Arg.type := "string";
                       Arg.validate := Some required; Arg.defaultValue := None;
                       Arg.options := [] |} v _);
          cbn [In]; auto 10
      end.
  - intros before arg v after Hsplit Hbefore Hrej.
    assert (HF : forallb (fun p => String.eqb (validation (fst p) (snd p)) "") before = true).
    { apply forallb_forall. intros [arg' v'] Hin. apply String.eqb_eq. now apply Hbefore. }
    destruct (split_at _ _ _ _ Hsplit) as [Hn Hf]. clear Hsplit Hbefore.
    destruct (length before) as [|[|[|[|[|[|[|k]]]]]]];
      cbn [nth_error firstn] in Hn, Hf; try (destruct k; discriminate);
      injection Hn as <- <-; subst before;
      unfold validation, required in HF, Hrej;
      cbn [forallb fst snd Arg.validate Arg.displayName] in HF, Hrej |- *;
      try (now elim Hrej);
      unfold run;
      destruct (truthy (Username a)); cbn [negb String.eqb Ascii.eqb andb] in HF, Hrej |- *;
      try discriminate; try reflexivity; try (now elim Hrej);
      destruct (truthy (Password a)); cbn [negb String.eqb Ascii.eqb andb] in HF, Hrej |- *;
      try discriminate; try reflexivity; try (now elim Hrej);
      destruct (truthy (Region a)); cbn [negb String.eqb Ascii.eqb andb] in HF, Hrej |- *;
      try discriminate; try reflexivity; try (now elim Hrej);
      destruct (truthy (ClientId a)); cbn [negb String.eqb Ascii.eqb andb] in HF, Hrej |- *;
      try discriminate; try reflexivity; try (now elim Hrej);
      destruct (truthy (UserPoolId a)); cbn [negb String.eqb Ascii.eqb andb] in HF, Hrej |- *;
      try discriminate; try reflexivity; now elim Hrej.
Qed.

(** X17. Each token type the form offers is taken as it is, and only
    ["id"] asks for the id token: on a miss with a handshake that
    succeeds, [run] with the value of an option of the menu keeps
    that value in the key and returns the id token of the session
    when the value is ["id"], and its access token for the two other
    options. *)
Theorem run_token_of_option tag arg opt a w finished session :
  In tag (templateTags jwtDecode authenticateUser) ->
  In arg (TemplateTag.args tag) ->
  In opt (Arg.options arg) ->
  validated a = true ->
  let a' := withTokenType (Some (EnumOption.value opt)) a in
  cacheHit jwtDecode (clock w) (store w !! cacheKey (credentialSet a')) = false ->
  authenticateUser (UserPoolId a) (ClientId a) (Username a) (Password a) (clock w)
  = (finished, inl session) ->
  TokenType (credentialSet a') = Some (EnumOption.value opt)
  /\ fst (TemplateTag.run tag a' w)
     = Return (if String.eqb (EnumOption.value opt) "id" then idToken session
               else accessToken session).
Proof.
  intros [<-|[]] Harg Hopt Hv. cbv zeta. cbn [templateTags TemplateTag.args TemplateTag.run] in *.
  assert (Hv' : validated (withTokenType (Some (EnumOption.value opt)) a) = true) by exact Hv.
  intros Hmiss Hauth.
  rewrite (run_miss_eq jwtDecode authenticateUser _ w Hv' Hmiss). cbv zeta.
  cbn [withTokenType UserPoolId ClientId Username Password fst]. rewrite Hauth.
  cbn [snd answerOf]. unfold sessionToken. rewrite strictEq_credentialSet.
  cbn [withTokenType TokenType strictEq].
  destruct Harg as [<-|[<-|[<-|[<-|[<-|[<-|[<-|[]]]]]]]]; cbn [Arg.options In] in Hopt;
    try contradiction.
  destruct Hopt as [<-|[<-|[<-|[]]]]; split; reflexivity.
Qed.
End TemplateTagProperties.

(** * The properties on worked inputs *)

Module Worked.
Import Examples.

(** A first call for alice when the handshake succeeds: the token comes
    back and is in the cache (scenario 1). *)
Example first_call_success :
  let r := run JwtDecode.jwtDecode accepting alice (world [] morning) in
  fst r = Return "tok123"
  /\ store (snd r) !! aliceKey = Some "tok123"
  /\ trace (snd r)
     = [GetItem aliceKey; Authenticate (credentialSet alice); SetItem aliceKey "tok123"].
Proof. cbv zeta. repeat split; vm_compute; reflexivity. Qed.

(** A cached token with an hour to live comes back as it is, and no
    handshake is made (scenario 2). *)
Example cached_token_reused :
  let token := tokenOf (JObject [("sub", JString "alice");
                                 ("exp", JNumber (Number.add (seconds morning) 3600))]) in
  let r := run JwtDecode.jwtDecode (rejecting "unreachable") alice
             (world [(aliceKey, token)] morning) in
  fst r = Return token
  /\ trace (snd r) = [GetItem aliceKey; ValidToken token].
Proof. cbv zeta. split; vm_compute; reflexivity. Qed.

(** A first call for alice when the handshake fails: the message comes
    back and the error token is in the cache (scenario 4). *)
Lemma run_authentication_failure_witness :
  let w := world [] morning in
  let oracle := rejecting "Incorrect username or password." in
  validated alice = true
  /\ cacheHit JwtDecode.jwtDecode (clock w) (store w !! cacheKey (credentialSet alice)) = false
  /\ fst (run JwtDecode.jwtDecode oracle alice w) = Return "Incorrect username or password."
  /\ store (snd (run JwtDecode.jwtDecode oracle alice w)) !! aliceKey
     = Some (errorTokenAt (morning + 250) "Incorrect username or password.").
Proof.
  cbv zeta.
  pose proof (run_authentication_failure JwtDecode.jwtDecode
                (rejecting "Incorrect username or password.") alice (world [] morning)
                (morning + 250) "Incorrect username or password."
                eq_refl eq_refl eq_refl) as H.
  rewrite H. repeat split; vm_compute; reflexivity.
Defined.

(** A second call within the minute: the cached message comes back and
    nothing else happens (scenario 5). *)
Example cached_error_returned :
  let token := errorTokenAt morning "Incorrect username or password." in
  let w := world [(aliceKey, token)] (morning + 30000) in
  run JwtDecode.jwtDecode accepting alice w
  = (Return "Incorrect username or password.",
     logged w [GetItem aliceKey; ValidToken token]).
Proof. vm_compute. reflexivity. Qed.

(** A second call after a failure with the empty message: every
    premise of a hit holds, the [error] claim is there, and what comes
    back is the token, not the claim. *)
Lemma run_cache_hit_witness :
  let w := world [(aliceKey, emptyMessageToken)] (morning + 1000) in
  validated alice = true
  /\ store w !! cacheKey (credentialSet alice) = Some emptyMessageToken
  /\ emptyMessageToken <> ""
  /\ validAt JwtDecode.jwtDecode (clock w) emptyMessageToken = true
  /\ JwtDecode.jwtDecode emptyMessageToken
     = Some {| exp := Some (Number.add (seconds morning) 60); nbf := None;
               error := Some "" |}
  /\ run JwtDecode.jwtDecode accepting alice w
     = (Return emptyMessageToken, logged w [GetItem aliceKey; ValidToken emptyMessageToken])
  /\ fst (run JwtDecode.jwtDecode accepting alice w) <> Return "".
Proof.
  cbv zeta.
  assert (Hne : emptyMessageToken <> "") by (vm_compute; discriminate).
  assert (Hdec : JwtDecode.jwtDecode emptyMessageToken
                 = Some {| exp := Some (Number.add (seconds morning) 60); nbf := None;
                           error := Some "" |})
    by (vm_compute; reflexivity).
  destruct (run_cache_hit JwtDecode.jwtDecode accepting alice
              (world [(aliceKey, emptyMessageToken)] (morning + 1000)) emptyMessageToken
              eq_refl ltac:(vm_compute; reflexivity) Hne ltac:(vm_compute; reflexivity))
    as (data & Hdata & Hworld & _ & _ & Hempty).
  rewrite Hdec in Hdata. injection Hdata as <-. specialize (Hempty eq_refl).
  split; [reflexivity|]. split; [vm_compute; reflexivity|]. split; [exact Hne|].
  split; [vm_compute; reflexivity|]. split; [exact Hdec|]. split.
  - rewrite (surjective_pairing (run JwtDecode.jwtDecode accepting alice _)).
    now rewrite Hempty, Hworld.
  - rewrite Hempty. intros H. injection H as H. now apply Hne.
Defined.

(** A token that expired ten seconds ago: the handshake is made and the
    entry is overwritten (scenario 3). *)
Lemma run_miss_or_invalid_witness :
  let old := tokenOf (JObject [("exp", JNumber (Number.add (seconds morning) (-10)))]) in
  let w := world [(aliceKey, old)] morning in
  validated alice = true
  /\ cacheHit JwtDecode.jwtDecode (clock w) (store w !! cacheKey (credentialSet alice)) = false
  /\ fst (run JwtDecode.jwtDecode accepting alice w) = Return "tok123"
  /\ store (snd (run JwtDecode.jwtDecode accepting alice w)) !! aliceKey = Some "tok123"
  /\ fst (run JwtDecode.jwtDecode accepting alice w)
     = fst (run JwtDecode.jwtDecode accepting alice (withoutEntry aliceKey w)).
Proof.
  cbv zeta.
  destruct (run_miss_or_invalid JwtDecode.jwtDecode accepting alice
              (world [(aliceKey, tokenOf (JObject [("exp", JNumber (Number.add (seconds morning) (-10)))]))]
                 morning)
              eq_refl ltac:(vm_compute; reflexivity)) as [Hrun (Hsame & _)].
  split; [reflexivity|]. split; [vm_compute; reflexivity|].
  split; [|split]; [| |exact Hsame];
    rewrite (Hrun (morning + 250)%Z {| idToken := "id.tok"; accessToken := "tok123" |}
               eq_refl);
    vm_compute; reflexivity.
Defined.

(** A payload with neither claim is valid. *)
Lemma validToken_decides_witness :
  let token := tokenOf (JObject [("sub", JString "alice")]) in
  JwtDecode.jwtDecode token = Some {| exp := None; nbf := None; error := None |}
  /\ validAt JwtDecode.jwtDecode morning token = true.
Proof.
  cbv zeta.
  assert (Hdec : JwtDecode.jwtDecode (tokenOf (JObject [("sub", JString "alice")]))
                 = Some {| exp := None; nbf := None; error := None |})
    by (vm_compute; reflexivity).
  split; [exact Hdec|].
  exact (proj2 (proj2 (validToken_decides JwtDecode.jwtDecode
                         (tokenOf (JObject [("sub", JString "alice")]))
                         (world [] morning)))
           _ Hdec eq_refl eq_refl).
Defined.

(** A token that expires at this very millisecond is still valid. *)
Lemma validToken_boundary_witness :
  let token := tokenOf (JObject [("exp", JNumber (seconds morning))]) in
  JwtDecode.jwtDecode token
  = Some {| exp := Some (seconds morning); nbf := None; error := None |}
  /\ validAt JwtDecode.jwtDecode morning token = true.
Proof.
  cbv zeta.
  assert (Hdec : JwtDecode.jwtDecode (tokenOf (JObject [("exp", JNumber (seconds morning))]))
                 = Some {| exp := Some (seconds morning); nbf := None; error := None |})
    by (vm_compute; reflexivity).
  split; [exact Hdec|].
  refine (proj1 (validToken_boundary JwtDecode.jwtDecode morning _ _ Hdec)
            (seconds morning) eq_refl _ I).
  reflexivity.
Defined.

(** The access and the id token of alice are cached apart; with no
    token type given it is the access token that is looked up. *)
Lemma cacheKey_separates_token_types_witness :
  TokenType (credentialSet alice) <> TokenType (credentialSet (withTokenType (Some "id") alice))
  /\ cacheKey (credentialSet alice)
     <> cacheKey (credentialSet (withTokenType (Some "id") alice)).
Proof.
  split; [discriminate|].
  apply (proj2 cacheKey_separates_token_types alice (withTokenType (Some "id") alice));
    try reflexivity.
  discriminate.
Defined.

(** Without a password the run throws and the world is as it was
    (scenario 6); without a token type it is the run for ["access"]. *)
Lemma run_validation_witness :
  let w := world [] morning in
  validated noPassword = false
  /\ (exists name,
        run JwtDecode.jwtDecode accepting noPassword w
        = (Throw (Error (name +:+ " attribute is required")), w))
  /\ validated alice = true
  /\ truthy (TokenType alice) = false
  /\ run JwtDecode.jwtDecode accepting alice w
     = run JwtDecode.jwtDecode accepting (withTokenType (Some "access") alice) w.
Proof.
  cbv zeta. split; [reflexivity|]. split.
  - destruct (proj1 (run_validation JwtDecode.jwtDecode accepting noPassword (world [] morning))
                eq_refl)
      as (before & name & v & after & Hfields & Hbefore & Hv & Hrun).
    exists name. exact Hrun.
  - split; [reflexivity|]. split; [reflexivity|].
    exact (proj2 (proj2 (run_validation JwtDecode.jwtDecode accepting alice (world [] morning))
                    eq_refl eq_refl)).
Defined.

(** An empty string in the cache: the run is the run on the cache
    without it. *)
Lemma run_empty_entry_witness :
  let w := world [(aliceKey, "")] morning in
  validated alice = true
  /\ store w !! cacheKey (credentialSet alice) = Some ""
  /\ fst (run JwtDecode.jwtDecode accepting alice w)
     = fst (run JwtDecode.jwtDecode accepting alice
              (withoutEntry (cacheKey (credentialSet alice)) w))
  /\ trace (snd (run JwtDecode.jwtDecode accepting alice w))
     = trace (snd (run JwtDecode.jwtDecode accepting alice
                     (withoutEntry (cacheKey (credentialSet alice)) w))).
Proof.
  cbv zeta.
  destruct (run_empty_entry JwtDecode.jwtDecode accepting alice
              (world [(aliceKey, "")] morning) eq_refl eq_refl)
    as [_ (Hfst & _ & _ & Htrace)].
  split; [reflexivity|]. split; [reflexivity|]. split; [exact Hfst|exact Htrace].
Defined.

(** alice with no client secret and alice with an empty one: plain
    fields, one key, and the same first six fields. *)
Lemma cacheKey_injective_witness :
  forallb plainField (separatedFields (credentialSet alice)) = true
  /\ forallb plainField (separatedFields (credentialSet aliceEmptySecret)) = true
  /\ cacheKey (credentialSet alice) = cacheKey (credentialSet aliceEmptySecret)
  /\ map elementText (keyFields (credentialSet alice))
     = map elementText (keyFields (credentialSet aliceEmptySecret)).
Proof.
  split; [reflexivity|]. split; [reflexivity|]. split; [reflexivity|].
  exact (proj1 (cacheKey_injective (credentialSet alice) (credentialSet aliceEmptySecret)
                  eq_refl eq_refl eq_refl)).
Defined.

(** C10 as it is stated fails when a field ends in a colon: no field
    holds ["::"], the keys are one and the same, the fields are not. *)
Lemma cacheKey_injective_counterexample :
  forallb (fun v => negb (includes "::" (elementText v))) (keyFields colonLeft) = true
  /\ forallb (fun v => negb (includes "::" (elementText v))) (keyFields colonRight) = true
  /\ cacheKey colonLeft = cacheKey colonRight
  /\ map elementText (keyFields colonLeft) <> map elementText (keyFields colonRight).
Proof.
  split; [reflexivity|]. split; [reflexivity|]. split; [reflexivity|]. discriminate.
Qed.

(** ** The further properties on worked inputs *)

(** A run for alice leaves somebody else's entry alone. *)
Lemma run_keeps_other_entries_witness :
  let w := world [("bob::pw::r::c::p::access::", "bob.token")] morning in
  "bob::pw::r::c::p::access::" <> cacheKey (credentialSet alice)
  /\ store (snd (run JwtDecode.jwtDecode accepting alice w)) !! "bob::pw::r::c::p::access::"
     = Some "bob.token".
Proof.
  cbv zeta.
  assert (Hk : "bob::pw::r::c::p::access::" <> cacheKey (credentialSet alice))
    by (vm_compute; discriminate).
  split; [exact Hk|].
  rewrite (run_keeps_other_entries JwtDecode.jwtDecode accepting alice
             (world [("bob::pw::r::c::p::access::", "bob.token")] morning) _ Hk).
  vm_compute. reflexivity.
Defined.

(** With or without somebody else's entry in the store, the run for
    alice is the same. *)
Lemma run_reads_own_entry_witness :
  let w1 := world [("bob::pw::r::c::p::access::", "bob.token")] morning in
  let w2 := world [] morning in
  store w1 !! cacheKey (credentialSet alice) = store w2 !! cacheKey (credentialSet alice)
  /\ clock w1 = clock w2
  /\ fst (run JwtDecode.jwtDecode accepting alice w1) = Return "tok123"
  /\ fst (run JwtDecode.jwtDecode accepting alice w2) = Return "tok123".
Proof.
  cbv zeta.
  assert (Hs : store (world [("bob::pw::r::c::p::access::", "bob.token")] morning)
               !! cacheKey (credentialSet alice)
               = store (world [] morning) !! cacheKey (credentialSet alice))
    by (vm_compute; reflexivity).
  split; [exact Hs|]. split; [reflexivity|].
  rewrite (proj1 (run_reads_own_entry JwtDecode.jwtDecode accepting alice _ _ Hs eq_refl)).
  split; vm_compute; reflexivity.
Defined.

(** The token of a first run comes back a second later, from the
    cache. *)
Lemma run_reuses_stored_token_witness :
  let w := world [] morning in
  let w' := world [(aliceKey, hourToken)] (morning + 1000) in
  validated alice = true
  /\ cacheHit JwtDecode.jwtDecode (clock w) (store w !! cacheKey (credentialSet alice)) = false
  /\ store w' !! cacheKey (credentialSet alice)
     = store (snd (run JwtDecode.jwtDecode issuing alice w)) !! cacheKey (credentialSet alice)
  /\ validAt JwtDecode.jwtDecode (clock w') hourToken = true
  /\ fst (run JwtDecode.jwtDecode issuing alice w) = Return hourToken
  /\ run JwtDecode.jwtDecode issuing alice w'
     = (Return hourToken, logged w' [GetItem aliceKey; ValidToken hourToken]).
Proof.
  cbv zeta.
  assert (Hmiss : cacheHit JwtDecode.jwtDecode (clock (world [] morning))
                    (store (world [] morning) !! cacheKey (credentialSet alice)) = false)
    by (vm_compute; reflexivity).
  assert (Hs : store (world [(aliceKey, hourToken)] (morning + 1000))
               !! cacheKey (credentialSet alice)
               = store (snd (run JwtDecode.jwtDecode issuing alice (world [] morning)))
                 !! cacheKey (credentialSet alice))
    by (vm_compute; reflexivity).
  assert (Hvalid : validAt JwtDecode.jwtDecode
                     (clock (world [(aliceKey, hourToken)] (morning + 1000))) hourToken = true)
    by (vm_compute; reflexivity).
  assert (Hne : hourToken <> "") by (vm_compute; discriminate).
  assert (Herr : forall data, JwtDecode.jwtDecode hourToken = Some data -> error data = None).
  { intros data H. vm_compute in H. injection H as <-. reflexivity. }
  split; [reflexivity|]. split; [exact Hmiss|]. split; [exact Hs|]. split; [exact Hvalid|].
  exact (run_reuses_stored_token JwtDecode.jwtDecode issuing alice (world [] morning)
           (morning + 250) {| idToken := "id.tok"; accessToken := hourToken |}
           (world [(aliceKey, hourToken)] (morning + 1000))
           eq_refl Hmiss eq_refl Hs Hne Hvalid Herr).
Defined.

(** alice in two regions, with and without a client secret: two keys,
    one handshake, one answer. *)
Lemma run_ignores_region_and_secret_witness :
  let w := world [] morning in
  validated alice = true /\ validated aliceElsewhere = true
  /\ cacheKey (credentialSet alice) = aliceKey
  /\ cacheKey (credentialSet aliceElsewhere)
     = "alice::hunter2::us-east-1::client::eu-west-1_pool::access::s3cret"
  /\ fst (run JwtDecode.jwtDecode accepting alice w)
     = fst (run JwtDecode.jwtDecode accepting aliceElsewhere w)
  /\ clock (snd (run JwtDecode.jwtDecode accepting alice w))
     = clock (snd (run JwtDecode.jwtDecode accepting aliceElsewhere w)).
Proof.
  cbv zeta. split; [reflexivity|]. split; [reflexivity|]. split; [reflexivity|].
  split; [reflexivity|].
  apply (run_ignores_region_and_secret JwtDecode.jwtDecode accepting alice aliceElsewhere
           (world [] morning) (world [] morning)); reflexivity.
Defined.

(** The two sets of arguments whose keys collide: what is cached for
    the one is returned to the other. *)
Lemma run_hit_by_key_witness :
  let w := world [(cacheKey colonLeft, hourToken)] (morning + 1000) in
  validated colonLeft = true /\ validated colonRight = true
  /\ cacheKey (credentialSet colonLeft) = cacheKey (credentialSet colonRight)
  /\ cacheHit JwtDecode.jwtDecode (clock w) (store w !! cacheKey (credentialSet colonLeft))
     = true
  /\ Password colonLeft = Some "b" /\ Password colonRight = Some ":b"
  /\ fst (run JwtDecode.jwtDecode accepting colonLeft w) = Return hourToken
  /\ run JwtDecode.jwtDecode accepting colonLeft w
     = run JwtDecode.jwtDecode accepting colonRight w.
Proof.
  cbv zeta.
  assert (Hhit : cacheHit JwtDecode.jwtDecode
                   (clock (world [(cacheKey colonLeft, hourToken)] (morning + 1000)))
                   (store (world [(cacheKey colonLeft, hourToken)] (morning + 1000))
                      !! cacheKey (credentialSet colonLeft)) = true)
    by (vm_compute; reflexivity).
  split; [reflexivity|]. split; [reflexivity|]. split; [reflexivity|]. split; [exact Hhit|].
  split; [reflexivity|]. split; [reflexivity|]. split; [vm_compute; reflexivity|].
  exact (proj1 (run_hit_by_key JwtDecode.jwtDecode accepting colonLeft colonRight
                  (world [(cacheKey colonLeft, hourToken)] (morning + 1000))
                  eq_refl eq_refl eq_refl Hhit)).
Defined.

(** Good at the first and at the last second of its hour, [hourToken]
    is good half an hour in. *)
Lemma validToken_interval_witness :
  validAt JwtDecode.jwtDecode morning hourToken = true
  /\ validAt JwtDecode.jwtDecode (morning + 3600000) hourToken = true
  /\ validAt JwtDecode.jwtDecode (morning + 1800000) hourToken = true.
Proof.
  assert (H1 : validAt JwtDecode.jwtDecode morning hourToken = true)
    by (vm_compute; reflexivity).
  assert (H3 : validAt JwtDecode.jwtDecode (morning + 3600000) hourToken = true)
    by (vm_compute; reflexivity).
  split; [exact H1|]. split; [exact H3|].
  apply (validToken_interval JwtDecode.jwtDecode hourToken morning (morning + 1800000)
           (morning + 3600000) H1 H3).
  unfold morning. lia.
Defined.

(** An error token built at the reading 2147483588004 of the clock:
    its expiry is the double that prints as 2147483648.0039997, a
    little under sixty seconds after the reading, and the token is
    good after 59 seconds and not after 61. *)
Lemma errorToken_expires_witness :
  let w := world [] 2147483588004 in
  let token := errorTokenAt 2147483588004 "Incorrect username or password." in
  isString "Incorrect username or password." = true
  /\ Number.timeValue (clock w)
  /\ errorToken "Incorrect username or password." w = (Return token, w)
  /\ JwtDecode.jwtDecode token
     = Some {| exp := Some (1125899906844721 # 524288)%Q; nbf := None;
               error := Some "Incorrect username or password." |}
  /\ validAt JwtDecode.jwtDecode (clock w + 59000) token = true
  /\ validAt JwtDecode.jwtDecode (clock w + 61000) token = false.
Proof.
  cbv zeta.
  assert (Hnow : Number.timeValue (clock (world [] 2147483588004)))
    by (unfold Number.timeValue; cbn; lia).
  destruct (errorToken_expires "Incorrect username or password." (world [] 2147483588004)
              eq_refl Hnow) as (Hret & _ & Hdec & _ & H59 & H61).
  change (clock (world [] 2147483588004)) with 2147483588004%Z in *.
  split; [reflexivity|]. split; [exact Hnow|]. split; [exact Hret|].
  split; [|split; [exact H59|exact H61]].
  rewrite Hdec. vm_compute. reflexivity.
Defined.

(** The same token, two milliseconds before the minute is over, two
    milliseconds after, and at the minute: for this reading of the
    clock it is rejected then already. *)
Lemma errorToken_window_witness :
  let now := 2147483588004%Z in
  let token := errorTokenAt now "Incorrect username or password." in
  isString "Incorrect username or password." = true
  /\ Number.timeValue now
  /\ validAt JwtDecode.jwtDecode (now + 59998) token = true
  /\ validAt JwtDecode.jwtDecode (now + 60002) token = false
  /\ validAt JwtDecode.jwtDecode (now + 60000) token = false.
Proof.
  cbv zeta.
  assert (Hnow : Number.timeValue 2147483588004) by (unfold Number.timeValue; lia).
  split; [reflexivity|]. split; [exact Hnow|]. split; [|split].
  - apply (proj2 (errorToken_window 2147483588004 "Incorrect username or password."
                    (2147483588004 + 59998) eq_refl) Hnow).
    lia.
  - apply (proj2 (errorToken_window 2147483588004 "Incorrect username or password."
                    (2147483588004 + 60002) eq_refl) Hnow).
    lia.
  - vm_compute. reflexivity.
Defined.

(** Two readings of the clock a millisecond apart with one expiry, the
    double that prints as 4398046511104.012: one token. *)
Lemma errorToken_injective_witness :
  isString "User does not exist." = true
  /\ 4398046511044011%Z <> 4398046511044012%Z
  /\ Number.add (seconds 4398046511044011) 60 = Number.add (seconds 4398046511044012) 60
  /\ errorTokenAt 4398046511044011 "User does not exist."
     = errorTokenAt 4398046511044012 "User does not exist.".
Proof.
  assert (He : Number.add (seconds 4398046511044011) 60
               = Number.add (seconds 4398046511044012) 60) by (vm_compute; reflexivity).
  split; [reflexivity|]. split; [discriminate|]. split; [exact He|].
  apply (errorToken_injective 4398046511044011 "User does not exist."
           4398046511044012 "User does not exist." eq_refl eq_refl).
  split; [reflexivity|exact He].
Defined.


(** After a failure, the message is the [error] claim of the entry. *)
Lemma run_answer_is_cached_witness :
  let oracle := rejecting "User does not exist." in
  let r := run JwtDecode.jwtDecode oracle alice (world [] morning) in
  validated alice = true
  /\ isString "User does not exist." = true
  /\ fst r = Return "User does not exist."
  /\ exists result entry,
       fst r = Return result
       /\ store (snd r) !! cacheKey (credentialSet alice) = Some entry
       /\ (result = entry
           \/ exists data, JwtDecode.jwtDecode entry = Some data /\ error data = Some result).
Proof.
  cbv zeta. split; [reflexivity|]. split; [reflexivity|]. split; [vm_compute; reflexivity|].
  refine (run_answer_is_cached (rejecting "User does not exist.") _ alice (world [] morning)
            eq_refl).
  intros pool client name password started finished m H. injection H as _ <-. reflexivity.
Defined.

(** No password: the validator of the second argument says
    ["Required"], and the run throws the error that names it. *)
Lemma validate_agrees_with_run_witness :
  exists tag arg,
    In tag (templateTags JwtDecode.jwtDecode accepting)
    /\ nth_error (TemplateTag.args tag) 1 = Some arg
    /\ Arg.displayName arg = "Password"
    /\ validation arg (Password noPassword) = "Required"
    /\ TemplateTag.run tag noPassword (world [] morning)
       = (Throw (Error "Password attribute is required"), world [] morning).
Proof.
  eexists _, _. split; [left; reflexivity|]. split; [reflexivity|]. split; [reflexivity|].
  split; [reflexivity|].
  refine (proj2 (validate_agrees_with_run JwtDecode.jwtDecode accepting _ noPassword
                   (world [] morning) (or_introl eq_refl))
            [_] _ _ _ eq_refl _ _).
  - intros arg' v' [E|[]]. injection E as <- <-. reflexivity.
  - discriminate.
Defined.

(** The third option of the menu, ["raw_request"]: the access token. *)
Lemma run_token_of_option_witness :
  exists tag arg opt,
    In tag (templateTags JwtDecode.jwtDecode accepting)
    /\ In arg (TemplateTag.args tag)
    /\ In opt (Arg.options arg)
    /\ EnumOption.value opt = "raw_request"
    /\ fst (TemplateTag.run tag (withTokenType (Some "raw_request") alice) (world [] morning))
       = Return "tok123".
Proof.
  eexists _, _, _. split; [left; reflexivity|].
  split; [do 5 right; left; reflexivity|]. split; [do 2 right; left; reflexivity|].
  split; [reflexivity|].
  exact (proj2 (run_token_of_option JwtDecode.jwtDecode accepting _ _ _ alice
                  (world [] morning) (morning + 250)
                  {| idToken := "id.tok"; accessToken := "tok123" |}
                  (or_introl eq_refl)
                  (or_intror (or_intror (or_intror (or_intror (or_intror (or_introl eq_refl))))))
                  (or_intror (or_intror (or_introl eq_refl)))
                  eq_refl eq_refl eq_refl)).
Defined.

(** ["tok123"] has no dot: cached or not, the handshake is made. *)
Lemma validToken_rejects_opaque_witness :
  let w := world [(aliceKey, "tok123")] morning in
  forallb Base64.notDot (explode "tok123") = true
  /\ validAt JwtDecode.jwtDecode morning "tok123" = false
  /\ store w !! cacheKey (credentialSet alice) = Some "tok123"
  /\ handshakes (trace (snd (run JwtDecode.jwtDecode accepting alice w)))
     = [credentialSet alice].
Proof.
  cbv zeta.
  destruct (validToken_rejects_opaque accepting "tok123" eq_refl) as [Hinvalid Hrun].
  split; [reflexivity|]. split; [apply Hinvalid|]. split; [vm_compute; reflexivity|].
  apply (Hrun alice (world [(aliceKey, "tok123")] morning) eq_refl).
  vm_compute. reflexivity.
Defined.

(** The password of alice is in her key. *)
Lemma cacheKey_holds_fields_witness :
  In (Password alice) (keyFields (credentialSet alice))
  /\ includes "hunter2" (cacheKey (credentialSet alice)) = true.
Proof.
  assert (Hin : In (Password alice) (keyFields (credentialSet alice)))
    by (right; left; reflexivity).
  split; [exact Hin|]. exact (cacheKey_holds_fields (credentialSet alice) (Password alice) Hin).
Defined.
End Worked.

